(** * python-redis-cache: a shallow embedding of [redis_cache/__init__.py]

    The development follows the source file top to bottom:

    - [Py]: the Python data the cache manipulates (text, byte strings,
      values, insertion-ordered dictionaries, exceptions) and the three
      standard-library functions the key derivation calls
      ([json.dumps] with compact separators, [str.encode('utf-8')],
      [base64.b64encode]);
    - [Normalizer]: [get_args];
    - [Redis]: the commands the Lua script issues, over one typed key space
      with expiry and a clock, and the script of [get_cache_lua_fn];
    - [Cache]: [CacheDecorator] ([get_full_prefix], [get_key], [__call__],
      the closure [inner]) and [RedisCache] ([cache], [mget]);
    - [Spec] and [Fixtures]: the predicates the statements are written with
      and the sample functions they are evaluated on.

    Code that may raise returns a [result]; code that also talks to the
    server or calls the wrapped function threads a state ([st]).  The
    statements follow, grouped by component. *)

From Stdlib Require Import ZArith NArith QArith List String Ascii Lia Bool.
From stdpp Require Import base option list gmap.
Import ListNotations.
Set Warnings "-register-all".

Local Open Scope N_scope.

(* ===================================================================== *)
(** * Python data *)
(* ===================================================================== *)

Module Py.

(** A Python [str] is a sequence of code points, a [bytes] object a sequence
    of octets.  Both are kept as lists of numbers so that the bit arithmetic
    of the encoders reads as in their definitions. *)
Definition str := list N.
Definition bytes := list N.

(** ASCII literal, one code point per character. *)
Fixpoint lit (s : string) : str :=
  match s with
  | EmptyString => []
  | String c s' => N_of_ascii c :: lit s'
  end.

(** Exceptions, by class.  [Custom] stands for any class the embedding does
    not name (the wrapped function's own errors, other client errors). *)
Inductive exn :=
| TypeError
| AttributeError
| IndexError
| UnicodeEncodeError
| ValueError
| DataError
| ResponseError
| ConnectionError
| TimeoutError
| Custom (tag : N).

Inductive result (A : Type) :=
| Ok (a : A)
| Raise (e : exn).
Arguments Ok {A} a.
Arguments Raise {A} e.

Definition rbind {A B} (r : result A) (k : A -> result B) : result B :=
  match r with
  | Ok a => k a
  | Raise e => Raise e
  end.

(** Code that works on a state and may raise.  The state reached when the
    exception is raised is kept. *)
Definition st (S A : Type) := S -> result A * S.

Definition ret {S A} (a : A) : st S A := fun s => (Ok a, s).

Definition bind {S A B} (m : st S A) (k : A -> st S B) : st S B :=
  fun s =>
    match m s with
    | (Ok a, s') => k a s'
    | (Raise e, s') => (Raise e, s')
    end.

Definition lift {S A} (r : result A) : st S A := fun s => (r, s).

(** Python values as far as the cache looks into them.  [VObject] is any
    object [json.dumps] has no encoding for; floats are left out. *)
Inductive value :=
| VNone
| VBool (b : bool)
| VInt (z : Z)
| VStr (s : str)
| VBytes (b : bytes)
| VList (l : list value)
| VTuple (l : list value)
| VDict (d : list (str * value))
| VObject (id : N).

(** ** Insertion-ordered dictionaries with [str] keys *)

Definition dict := list (str * value).

Definition str_eqb (a b : str) : bool := bool_decide (a = b).

Fixpoint dict_get (k : str) (d : dict) : option value :=
  match d with
  | [] => None
  | (k', v) :: d' => if str_eqb k k' then Some v else dict_get k d'
  end.

Definition dict_mem (k : str) (d : dict) : bool :=
  match dict_get k d with Some _ => true | None => false end.

(** [d[k] = v]: an existing key keeps its position, a new key goes last. *)
Fixpoint dict_set (k : str) (v : value) (d : dict) : dict :=
  match d with
  | [] => [(k, v)]
  | (k', v') :: d' =>
      if str_eqb k k' then (k', v) :: d' else (k', v') :: dict_set k v d'
  end.

(** ** [json.dumps(value, separators=(',', ':'))] *)

Definition digit_char (d : N) : N :=
  if d <? 10 then 48 + d else 87 + d.

(** Decimal digits of a positive number, most significant first. *)
Fixpoint decimal_pos (fuel : nat) (n : N) (acc : str) : str :=
  match fuel with
  | O => acc
  | S fuel' =>
      let acc' := digit_char (n mod 10) :: acc in
      if n / 10 =? 0 then acc' else decimal_pos fuel' (n / 10) acc'
  end.

Definition decimal_N (n : N) : str :=
  decimal_pos (S (N.to_nat (N.log2 n))) n [].

Definition decimal_Z (z : Z) : str :=
  match z with
  | Z0 => lit "0"
  | Zpos p => decimal_N (Npos p)
  | Zneg p => lit "-" ++ decimal_N (Npos p)
  end.

(** [format(n, '04x')] for [n < 0x10000]. *)
Definition hex4 (n : N) : str :=
  [digit_char (N.shiftr n 12 mod 16); digit_char (N.shiftr n 8 mod 16);
   digit_char (N.shiftr n 4 mod 16); digit_char (n mod 16)].

(** One character under [ensure_ascii=True]: printable ASCII other than the
    quote and the backslash is kept; the short escapes; [\uXXXX] otherwise,
    as a surrogate pair above the basic plane. *)
Definition escape_char (c : N) : str :=
  if c =? 34 then [92; 34]
  else if c =? 92 then lit "\\"
  else if (32 <=? c) && (c <=? 126) then [c]
  else if c =? 8 then lit "\b"
  else if c =? 12 then lit "\f"
  else if c =? 10 then lit "\n"
  else if c =? 13 then lit "\r"
  else if c =? 9 then lit "\t"
  else if c <? 65536 then lit "\u" ++ hex4 c
  else
    let n := c - 65536 in
    let s1 := N.lor 55296 (N.land (N.shiftr n 10) 1023) in
    let s2 := N.lor 56320 (N.land n 1023) in
    lit "\u" ++ hex4 s1 ++ lit "\u" ++ hex4 s2.

Definition json_string (s : str) : str :=
  [34] ++ flat_map escape_char s ++ [34].

Fixpoint join (sep : str) (parts : list str) : str :=
  match parts with
  | [] => []
  | [p] => p
  | p :: ps => p ++ sep ++ join sep ps
  end.

Fixpoint sequence {A} (rs : list (result A)) : result (list A) :=
  match rs with
  | [] => Ok []
  | r :: rs' => rbind r (fun a => rbind (sequence rs') (fun l => Ok (a :: l)))
  end.

Fixpoint dumps (v : value) : result str :=
  match v with
  | VNone => Ok (lit "null")
  | VBool true => Ok (lit "true")
  | VBool false => Ok (lit "false")
  | VInt z => Ok (decimal_Z z)
  | VStr s => Ok (json_string s)
  | VList l | VTuple l =>
      rbind (sequence (map dumps l))
            (fun parts => Ok (lit "[" ++ join (lit ",") parts ++ lit "]"))
  | VDict d =>
      rbind (sequence
               (map (fun kv => rbind (dumps (snd kv))
                       (fun s => Ok (json_string (fst kv) ++ lit ":" ++ s))) d))
            (fun parts => Ok (lit "{" ++ join (lit ",") parts ++ lit "}"))
  | VBytes _ | VObject _ => Raise TypeError
  end.

(** ** [str.encode('utf-8')]

    Surrogates have no UTF-8 form: the codec raises on them. *)
Definition utf8_char (c : N) : result bytes :=
  if c <? 128 then Ok [c]
  else if c <? 2048 then
    Ok [N.lor 192 (N.shiftr c 6); N.lor 128 (N.land c 63)]
  else if c <? 65536 then
    if (55296 <=? c) && (c <=? 57343) then Raise UnicodeEncodeError
    else Ok [N.lor 224 (N.shiftr c 12);
             N.lor 128 (N.land (N.shiftr c 6) 63);
             N.lor 128 (N.land c 63)]
  else if c <? 1114112 then
    Ok [N.lor 240 (N.shiftr c 18);
        N.lor 128 (N.land (N.shiftr c 12) 63);
        N.lor 128 (N.land (N.shiftr c 6) 63);
        N.lor 128 (N.land c 63)]
  else Raise UnicodeEncodeError.

Definition encode_utf8 (s : str) : result bytes :=
  rbind (sequence (map utf8_char s)) (fun chunks => Ok (concat chunks)).

(** ** [base64.b64encode] *)

(** The standard alphabet, indexed by a sextet. *)
Definition b64_char (i : N) : N :=
  let i := N.land i 63 in
  if i <? 26 then 65 + i
  else if i <? 52 then 97 + (i - 26)
  else if i <? 62 then 48 + (i - 52)
  else if i =? 62 then 43
  else 47.

Definition b64_pad : N := 61.

Fixpoint b64encode (data : bytes) : bytes :=
  match data with
  | [] => []
  | [a] =>
      [b64_char (N.shiftr a 2); b64_char (N.shiftl (N.land a 3) 4);
       b64_pad; b64_pad]
  | [a; b] =>
      [b64_char (N.shiftr a 2);
       b64_char (N.lor (N.shiftl (N.land a 3) 4) (N.shiftr b 4));
       b64_char (N.shiftl (N.land b 15) 2);
       b64_pad]
  | a :: b :: c :: rest =>
      b64_char (N.shiftr a 2)
      :: b64_char (N.lor (N.shiftl (N.land a 3) 4) (N.shiftr b 4))
      :: b64_char (N.lor (N.shiftl (N.land b 15) 2) (N.shiftr c 6))
      :: b64_char c
      :: b64encode rest
  end.

(** [bytes.decode('utf-8')] on ASCII octets: every octet below 128 is its
    own code point.  [b64encode] only produces such octets
    ([b64encode_ascii] below), which is the only place [get_key] decodes. *)
Definition decode_ascii (b : bytes) : str := b.

End Py.

Import Py.

Notation "'let*' x ':=' m 'in' k" := (bind m (fun x => k))
  (at level 10, x pattern, m at level 100, k at level 200, only parsing).

(* ===================================================================== *)
(** * The argument normalizer: [get_args] *)
(* ===================================================================== *)

Module Normalizer.

(** [inspect.Parameter.kind]. *)
Inductive param_kind :=
| POSITIONAL_ONLY
| POSITIONAL_OR_KEYWORD
| VAR_POSITIONAL
| KEYWORD_ONLY
| VAR_KEYWORD.

Record param := { name : str; kind : param_kind }.

(** [inspect.signature(fn).parameters.values()], in declaration order. *)
Definition signature := list param.

Definition is_standard (p : param) : bool :=
  match kind p with POSITIONAL_OR_KEYWORD => true | _ => false end.

Definition is_allowed_kwarg (p : param) : bool :=
  match kind p with
  | POSITIONAL_OR_KEYWORD | KEYWORD_ONLY => true
  | _ => false
  end.

Definition is_var_positional (p : param) : bool :=
  match kind p with VAR_POSITIONAL => true | _ => false end.

Definition is_var_keyword (p : param) : bool :=
  match kind p with VAR_KEYWORD => true | _ => false end.

Definition standard_args (sig : signature) : list str :=
  map name (List.filter is_standard sig).

Definition allowed_kwargs (sig : signature) : list str :=
  map name (List.filter is_allowed_kwarg sig).

Definition variable_args (sig : signature) : list str :=
  map name (List.filter is_var_positional sig).

Definition variable_kwargs (sig : signature) : list str :=
  map name (List.filter is_var_keyword sig).

(** Truth value of a list. *)
Definition nonempty {A} (l : list A) : bool :=
  match l with [] => false | _ => true end.

Definition str_in (k : str) (l : list str) : bool := existsb (str_eqb k) l.

(** Body of the loop over [enumerate(args)]: the assignment, and in the
    [IndexError] handler the append to the list kept under the collector's
    name.  [.append] on anything but a list raises. *)
Definition bind_positional (sig : signature) (parsed_args : dict)
    (index : nat) (arg : value) : result dict :=
  match nth_error (standard_args sig) index with
  | Some p => Ok (dict_set p arg parsed_args)
  | None =>
      match variable_args sig with
      | vargs_name :: _ =>
          let parsed_args :=
            if dict_mem vargs_name parsed_args then parsed_args
            else dict_set vargs_name (VList []) parsed_args in
          match dict_get vargs_name parsed_args with
          | Some (VList l) =>
              Ok (dict_set vargs_name (VList (l ++ [arg])) parsed_args)
          | _ => Raise AttributeError
          end
      | [] => Ok parsed_args
      end
  end.

Fixpoint positional_loop (sig : signature) (index : nat) (args : list value)
    (parsed_args : dict) : result dict :=
  match args with
  | [] => Ok parsed_args
  | arg :: args' =>
      rbind (bind_positional sig parsed_args index arg)
            (positional_loop sig (S index) args')
  end.

(** Body of the loop over [kwargs.items()].  Item assignment on anything
    but a dictionary raises. *)
Definition bind_named (sig : signature) (parsed_args : dict)
    (key : str) (value : value) : result dict :=
  if str_in key (allowed_kwargs sig) then Ok (dict_set key value parsed_args)
  else
    match variable_kwargs sig with
    | vkwargs_name :: _ =>
        let parsed_args :=
          if dict_mem vkwargs_name parsed_args then parsed_args
          else dict_set vkwargs_name (VDict []) parsed_args in
        match dict_get vkwargs_name parsed_args with
        | Some (VDict d) =>
            Ok (dict_set vkwargs_name (VDict (dict_set key value d)) parsed_args)
        | _ => Raise TypeError
        end
    | [] => Ok parsed_args
    end.

Fixpoint named_loop (sig : signature) (kwargs : dict) (parsed_args : dict)
    : result dict :=
  match kwargs with
  | [] => Ok parsed_args
  | (key, value) :: kwargs' =>
      rbind (bind_named sig parsed_args key value) (named_loop sig kwargs')
  end.

(** [get_args(fn, args, kwargs)], with [sig] for [signature(fn)].  [kwargs]
    lists the items of the caller's dictionary in its order. *)
Definition get_args (sig : signature) (args : list value) (kwargs : dict)
    : result dict :=
  let parsed_args : dict := [] in
  rbind
    (if nonempty (standard_args sig) || nonempty (variable_args sig)
     then positional_loop sig 0 args parsed_args
     else Ok parsed_args)
    (fun parsed_args =>
       if nonempty kwargs then named_loop sig kwargs parsed_args
       else Ok parsed_args).

End Normalizer.

Import Normalizer.

(* ===================================================================== *)
(** * The store: Redis commands and the Lua script of [get_cache_lua_fn] *)
(* ===================================================================== *)

Module Redis.

Local Open Scope Z_scope.

(** Keys and sorted-set members are kept as the text the client passes: it
    sends text as UTF-8, which is injective and preserves the order of code
    points, so nothing below depends on the encoded form. *)
Abbreviation key := str.

(** Scores.  The server keeps doubles; they are kept here as the rationals
    they stand for ([to_double] below gives the double of a decimal). *)
Abbreviation score := Q.

Inductive rvalue :=
| RString (v : bytes)
| RZset (z : list (key * score)).

(** An entry of the key space, with the first microsecond of the server
    clock at which it counts as expired, if it has an expiry. *)
Record entry := { payload : rvalue; expire_at : option Z }.

Inductive command :=
| GET (k : key)
| MGET (ks : list key)
| SET (k : key) (v : bytes)
| SETEX (k : key) (ttl : Z) (v : bytes)
| TIME
| ZADD (k : key) (sc : score) (m : key)
| ZCOUNT (k : key)
| ZPOPMIN (k : key) (n : Z)
| ZREM (k : key) (ms : list key)
| DEL (ks : list key).

(** The server: its key space, its clock in microseconds and the commands it
    has executed, oldest first. *)
Record server := {
  db : gmap str entry;
  now : Z;
  log : list command
}.

Definition empty_server : server := {| db := ∅; now := 0; log := [] |}.

Definition live (t : Z) (e : entry) : bool :=
  match expire_at e with
  | None => true
  | Some x => t <? x
  end.

(** What a command sees at key [k]: expired entries are gone. *)
Definition lookup (k : key) (s : server) : option entry :=
  match db s !! k with
  | Some e => if live (now s) e then Some e else None
  | None => None
  end.

Definition with_db (s : server) (d : gmap str entry) : server :=
  {| db := d; now := now s; log := log s |}.

Definition logged (c : command) (s : server) : server :=
  {| db := db s; now := now s; log := log s ++ [c] |}.

(** The clock moves between commands. *)
Definition advance (dt : N) (s : server) : server :=
  {| db := db s; now := now s + Z.of_N dt; log := log s |}.

(** Commands run against the server and may fail; the state a failed command
    leaves behind stays (a script is not rolled back). *)
Definition cmd (A : Type) := st server A.

(** ** Sorted sets *)

Fixpoint str_compare (a b : str) : comparison :=
  match a, b with
  | [], [] => Eq
  | [], _ :: _ => Lt
  | _ :: _, [] => Gt
  | x :: a', y :: b' =>
      match N.compare x y with
      | Eq => str_compare a' b'
      | c => c
      end
  end.

(** Order of a sorted set: by score, then by member. *)
Definition zleb (x y : key * score) : bool :=
  match Qcompare (snd x) (snd y) with
  | Lt => true
  | Gt => false
  | Eq => match str_compare (fst x) (fst y) with Gt => false | _ => true end
  end.

Fixpoint zinsert (x : key * score) (z : list (key * score)) : list (key * score) :=
  match z with
  | [] => [x]
  | y :: z' => if zleb x y then x :: y :: z' else y :: zinsert x z'
  end.

Definition zremove (ms : list key) (z : list (key * score)) : list (key * score) :=
  List.filter (fun p => negb (str_in (fst p) ms)) z.

(** A sorted set that loses its last member is removed from the key space. *)
Definition store_zset (k : key) (z : list (key * score)) (ex : option Z)
    (d : gmap str entry) : gmap str entry :=
  match z with
  | [] => delete k d
  | _ => <[k := {| payload := RZset z; expire_at := ex |}]> d
  end.

(** ** Commands *)

Definition get (k : key) : cmd (option bytes) := fun s =>
  let s := logged (GET k) s in
  match lookup k s with
  | None => (Ok None, s)
  | Some e =>
      match payload e with
      | RString v => (Ok (Some v), s)
      | RZset _ => (Raise ResponseError, s)
      end
  end.

(** [MGET] answers nil for a key that holds no string; the server rejects
    an [MGET] without a key. *)
Definition mget (ks : list key) : cmd (list (option bytes)) := fun s =>
  let s := logged (MGET ks) s in
  match ks with
  | [] => (Raise ResponseError, s)
  | _ =>
      (Ok (map (fun k =>
                  match lookup k s with
                  | Some {| payload := RString v |} => Some v
                  | _ => None
                  end) ks), s)
  end.

Definition set (k : key) (v : bytes) : cmd unit := fun s =>
  let s := logged (SET k v) s in
  (Ok tt, with_db s (<[k := {| payload := RString v; expire_at := None |}]> (db s))).

(** The server keeps an expiry in milliseconds, [ttl * 1000] past its clock
    in milliseconds, and takes a key for expired once that clock is past the
    expiry.  In microseconds: a key set at [t] with [ttl] seconds is expired
    from [expiry t ttl] on. *)
Definition expiry (t ttl : Z) : Z := (t / 1000 + ttl * 1000 + 1) * 1000.

Definition setex (k : key) (ttl : Z) (v : bytes) : cmd unit := fun s =>
  let s := logged (SETEX k ttl v) s in
  if ttl <=? 0 then (Raise ResponseError, s)
  else
    (Ok tt,
     with_db s (<[k := {| payload := RString v;
                          expire_at := Some (expiry (now s) ttl) |}]> (db s))).

(** Seconds and microseconds of the server clock. *)
Definition time : cmd (Z * Z) := fun s =>
  let s := logged TIME s in
  (Ok (now s / 1000000, now s mod 1000000), s).

Definition zadd (k : key) (sc : score) (m : key) : cmd Z := fun s =>
  let s := logged (ZADD k sc m) s in
  match lookup k s with
  | None =>
      (Ok 1, with_db s (store_zset k [(m, sc)] None (db s)))
  | Some e =>
      match payload e with
      | RZset z =>
          (Ok (if existsb (fun p => str_eqb m (fst p)) z then 0 else 1),
           with_db s (store_zset k (zinsert (m, sc) (zremove [m] z))
                                 (expire_at e) (db s)))
      | RString _ => (Raise ResponseError, s)
      end
  end.

(** [ZCOUNT k -inf +inf]. *)
Definition zcount (k : key) : cmd Z := fun s =>
  let s := logged (ZCOUNT k) s in
  match lookup k s with
  | None => (Ok 0, s)
  | Some e =>
      match payload e with
      | RZset z => (Ok (Z.of_nat (length z)), s)
      | RString _ => (Raise ResponseError, s)
      end
  end.

(** The reply of [ZPOPMIN] is flat: member, score, member, score, ... *)
Inductive bulk :=
| Member (m : key)
| Score (sc : score).

Definition flat_reply (z : list (key * score)) : list bulk :=
  flat_map (fun p => [Member (fst p); Score (snd p)]) z.

Definition zpopmin (k : key) (n : Z) : cmd (list bulk) := fun s =>
  let s := logged (ZPOPMIN k n) s in
  if n <? 0 then (Raise ResponseError, s)
  else
    match lookup k s with
    | None => (Ok [], s)
    | Some e =>
        match payload e with
        | RZset z =>
            (Ok (flat_reply (firstn (Z.to_nat n) z)),
             with_db s (store_zset k (skipn (Z.to_nat n) z) (expire_at e) (db s)))
        | RString _ => (Raise ResponseError, s)
        end
    end.

Definition zrem (k : key) (ms : list key) : cmd Z := fun s =>
  let s := logged (ZREM k ms) s in
  match ms with
  | [] => (Raise ResponseError, s)
  | _ =>
      match lookup k s with
      | None => (Ok 0, s)
      | Some e =>
          match payload e with
          | RZset z =>
              (Ok (Z.of_nat (length z - length (zremove ms z))),
               with_db s (store_zset k (zremove ms z) (expire_at e) (db s)))
          | RString _ => (Raise ResponseError, s)
          end
      end
  end.

Definition del (ks : list key) : cmd Z := fun s =>
  let s := logged (DEL ks) s in
  match ks with
  | [] => (Raise ResponseError, s)
  | _ =>
      (Ok (Z.of_nat (length (List.filter
                               (fun k => bool_decide (is_Some (lookup k s))) ks))),
       with_db s (foldr delete (db s) ks))
  end.

(** ** The script registered by [get_cache_lua_fn] *)

(** The value of the text [time_parts[1] .. '.' .. time_parts[2]]: the
    microseconds are appended as printed, without padding. *)
Definition lua_time_number (time_parts : Z * Z) : score :=
  let (sec, usec) := time_parts in
  let scale := Z.to_pos (10 ^ Z.of_nat (length (decimal_Z usec))) in
  Qmake (sec * Zpos scale + usec) scale.

(** The integer nearest to [n / d], for [d > 0]; a tie goes to the even
    one. *)
Definition round_half_even (n d : Z) : Z :=
  let q := n / d in
  let r := n mod d in
  if 2 * r <? d then q
  else if d <? 2 * r then q + 1
  else if Z.even q then q else q + 1.

(** For [q > 0], the [e] with [2^e <= q < 2^(e+1)]. *)
Definition binary_exponent (q : Q) : Z :=
  let n := Qnum q in
  let d := Zpos (Qden q) in
  if d <=? n then Z.log2 (n / d) else - Z.log2_up ((d + n - 1) / n).

(** [tonumber] of a decimal text: the double nearest to its value, which is
    what the script passes on and the sorted set keeps.  A double has 53
    significant bits: with [2^e <= q < 2^(e+1)] it is a multiple of
    [2^(e-52)].  (Values too small or too large for a normal double do not
    occur: a reading of [TIME] is zero or at least a millionth.) *)
Definition to_double (q : Q) : Q :=
  if Qnum q <=? 0 then q
  else
    let k := 52 - binary_exponent q in
    if 0 <=? k
    then Qmake (round_half_even (Qnum q * 2 ^ k) (Zpos (Qden q)))
               (Z.to_pos (2 ^ k))
    else Qmake (round_half_even (Qnum q) (Zpos (Qden q) * 2 ^ (- k))
                * 2 ^ (- k)) 1.

(** [for i = 1, #t, 2 do r[#r+1] = t[i] end]. *)
Fixpoint lua_stride2 {A} (t : list A) : list A :=
  match t with
  | [] => []
  | [x] => [x]
  | x :: _ :: t' => x :: lua_stride2 t'
  end.

(** The text of a reply element as a key.  A score is never used as one: the
    stride above keeps the members only ([lua_stride2_flat_reply]). *)
Definition bulk_key (b : bulk) : option key :=
  match b with
  | Member m => Some m
  | Score _ => None
  end.

(** [KEYS = {entry_key, index_key}], [ARGV = {value, ttl, limit}]; the two
    numbers are taken as integers. *)
Definition cache_lua_fn (KEYS1 KEYS2 : key) (ARGV1 : bytes) (ARGV2 ARGV3 : Z)
    : cmd unit :=
  let ttl := ARGV2 in
  let* value :=
    (if ttl >? 0 then setex KEYS1 ttl ARGV1 else set KEYS1 ARGV1) in
  let limit := ARGV3 in
  let* _ :=
    (if limit >? 0 then
       let* time_parts := time in
       let time := to_double (lua_time_number time_parts) in
       let* _ := zadd KEYS2 time KEYS1 in
       let* count := zcount KEYS2 in
       let over := count - limit in
       if over >? 0 then
         let* stale_keys_and_scores := zpopmin KEYS2 over in
         let stale_keys := omap bulk_key (lua_stride2 stale_keys_and_scores) in
         let* _ := zrem KEYS2 stale_keys in
         let* _ := del stale_keys in
         ret tt
       else ret tt
     else ret tt) in
  ret value.

(** The members of the index at [k], in pop order. *)
Definition index_members (k : key) (s : server) : list key :=
  match lookup k s with
  | Some {| payload := RZset z |} => map fst z
  | _ => []
  end.

(** [k] holds a cache entry now. *)
Definition entry_exists (k : key) (s : server) : bool :=
  match lookup k s with
  | Some {| payload := RString _ |} => true
  | _ => false
  end.

End Redis.

Import Redis.

(* ===================================================================== *)
(** * [CacheDecorator] and [RedisCache] *)
(* ===================================================================== *)

Module Cache.

(** What a serializer returns: text or octets. *)
Inductive serialized :=
| SStr (s : str)
| SBytes (b : bytes).

(** [compact_dump], the default serializer. *)
Definition compact_dump (value : value) : result serialized :=
  rbind (dumps value) (fun s => Ok (SStr s)).

(** What the client puts on the wire for a serialized value. *)
Definition wire (d : serialized) : result bytes :=
  match d with
  | SStr s => encode_utf8 s
  | SBytes b => Ok b
  end.

(** The wrapped function: where it is defined, its signature and what a call
    returns or raises. *)
Record function := {
  fn_module : str;
  fn_qualname : str;
  fn_signature : signature;
  fn_body : list value -> dict -> result value
}.

Record call := { called : str; call_args : list value; call_kwargs : dict }.

(** The world around the cache: the server, the outcome of the coming round
    trips (an exception the client raises instead of reaching the server),
    the calls made to wrapped functions, and whether the client carries the
    script handle [_lua_cache_fn]. *)
Record world := {
  srv : server;
  faults : list (option exn);
  calls : list call;
  has_lua_cache_fn : bool
}.

Definition io (A : Type) := st world A.

Definition call_fn (fn : function) (args : list value) (kwargs : dict)
    : io value := fun w =>
  (fn_body fn args kwargs,
   {| srv := srv w; faults := faults w;
      calls := calls w ++ [{| called := fn_qualname fn; call_args := args;
                              call_kwargs := kwargs |}];
      has_lua_cache_fn := has_lua_cache_fn w |}).

(** One round trip of the client. *)
Definition round_trip {A} (c : cmd A) : io A := fun w =>
  match faults w with
  | Some e :: rest =>
      (Raise e,
       {| srv := srv w; faults := rest; calls := calls w;
          has_lua_cache_fn := has_lua_cache_fn w |})
  | _ =>
      let (r, s) := c (srv w) in
      (r, {| srv := s; faults := tl (faults w); calls := calls w;
             has_lua_cache_fn := has_lua_cache_fn w |})
  end.

(** [get_cache_lua_fn(client)]: the handle is registered on first use. *)
Definition get_cache_lua_fn : io unit := fun w =>
  (Ok tt,
   {| srv := srv w; faults := faults w; calls := calls w;
      has_lua_cache_fn := true |}).

Record CacheDecorator := {
  prefix : str;
  serializer : value -> result serialized;
  deserializer : bytes -> result value;
  key_serializer : option (value -> result serialized);
  ttl : Z;
  limit : Z;
  namespace : option str;
  fallback_exceptions : exn -> bool;
  keys_key : option str;
  original_fn : option function
}.

(** [f'{{{self.prefix}:{self.namespace}}}']. *)
Definition get_full_prefix (self : CacheDecorator) : str :=
  lit "{" ++ prefix self ++ lit ":"
  ++ match namespace self with Some ns => ns | None => lit "None" end
  ++ lit "}".

Definition get_key (self : CacheDecorator) (args : list value) (kwargs : dict)
    : result str :=
  match original_fn self with
  | None => Raise TypeError
  | Some fn =>
      rbind (get_args (fn_signature fn) args kwargs) (fun normalized_args =>
      rbind (match key_serializer self with
             | Some key_serializer => key_serializer (VDict normalized_args)
             | None => serializer self (VDict normalized_args)
             end) (fun serialized_data =>
      rbind (match serialized_data with
             | SStr text => encode_utf8 text
             | SBytes data => Ok data
             end) (fun serialized_data =>
      let serialized_encoded_data := decode_ascii (b64encode serialized_data) in
      Ok (get_full_prefix self ++ lit ":" ++ serialized_encoded_data))))
  end.

Definition with_namespace (self : CacheDecorator) (ns : str) : CacheDecorator :=
  {| prefix := prefix self; serializer := serializer self;
     deserializer := deserializer self; key_serializer := key_serializer self;
     ttl := ttl self; limit := limit self; namespace := Some ns;
     fallback_exceptions := fallback_exceptions self;
     keys_key := keys_key self; original_fn := original_fn self |}.

(** The attribute updates of [__call__]: the namespace defaults to the
    function's module and qualified name (an empty one counts as missing),
    then [keys_key] and [original_fn] are set. *)
Definition decorate (self : CacheDecorator) (fn : function) : CacheDecorator :=
  let self :=
    with_namespace self
      match namespace self with
      | Some (c :: ns) => c :: ns
      | _ => fn_module fn ++ lit "." ++ fn_qualname fn
      end in
  {| prefix := prefix self; serializer := serializer self;
     deserializer := deserializer self; key_serializer := key_serializer self;
     ttl := ttl self; limit := limit self; namespace := namespace self;
     fallback_exceptions := fallback_exceptions self;
     keys_key := Some (get_full_prefix self ++ lit ":keys");
     original_fn := Some fn |}.

(** Truth value of what [client.get] returns: [None] and the empty byte
    string are false. *)
Definition truthy (result : option bytes) : bool :=
  match result with
  | None => false
  | Some [] => false
  | Some (_ :: _) => true
  end.

(** Calling the script handle with [keys] and [args]. *)
Definition run_script (key : str) (keys_key : option str)
    (result_serialized : serialized) (ttl limit : Z) : io unit :=
  let* _ := get_cache_lua_fn in
  match keys_key with
  | None => lift (Raise DataError)
  | Some keys_key =>
      let* payload := lift (wire result_serialized) in
      round_trip (cache_lua_fn key keys_key payload ttl limit)
  end.

(** The closure [inner] that [__call__] returns. *)
Definition inner (self : CacheDecorator) (fn : function)
    (args : list value) (kwargs : dict) : io value :=
  let* key := lift (get_key self args kwargs) in
  fun w =>
    match round_trip (get key) w with
    | (Raise e, w) =>
        if fallback_exceptions self e then call_fn fn args kwargs w
        else (Raise e, w)
    | (Ok result, w) =>
        (if negb (truthy result) then
           let* result := call_fn fn args kwargs in
           let* result_serialized := lift (serializer self result) in
           let* _ := run_script key (keys_key self) result_serialized
                                (ttl self) (limit self) in
           ret result
         else
           match result with
           | Some result => lift (deserializer self result)
           | None => lift (Raise TypeError)
           end) w
    end.

(** [@cache.cache(...)] applied to [fn]: the updated decorator and the
    wrapped callable. *)
Definition __call__ (self : CacheDecorator) (fn : function)
    : CacheDecorator * (list value -> dict -> io value) :=
  let self := decorate self fn in (self, inner self fn).

(** ** [RedisCache] *)

Record RedisCache := {
  rc_prefix : str;
  rc_serializer : value -> result serialized;
  rc_deserializer : bytes -> result value;
  rc_key_serializer : option (value -> result serialized)
}.

(** [RedisCache.cache(ttl, limit, namespace, fallback_exceptions)]. *)
Definition cache (self : RedisCache) (ttl limit : Z) (namespace : option str)
    (fallback_exceptions : exn -> bool) : CacheDecorator :=
  {| prefix := rc_prefix self; serializer := rc_serializer self;
     deserializer := rc_deserializer self;
     key_serializer := rc_key_serializer self;
     ttl := ttl; limit := limit; namespace := namespace;
     fallback_exceptions := fallback_exceptions;
     keys_key := None; original_fn := None |}.

(** One request of [mget]: [fn['fn'].instance] and the optional ['args'] and
    ['kwargs']. *)
Record fn_and_args := {
  instance : CacheDecorator;
  args : option (list value);
  kwargs : option dict
}.

Definition args_of (r : fn_and_args) : list value := default [] (args r).
Definition kwargs_of (r : fn_and_args) : dict := default [] (kwargs r).

(** A script call queued on the pipeline. *)
Record queued := {
  q_key : str;
  q_keys_key : option str;
  q_value : serialized;
  q_ttl : Z;
  q_limit : Z
}.

Definition index {A} (l : list A) (i : nat) : result A :=
  match nth_error l i with
  | Some a => Ok a
  | None => Raise IndexError
  end.

Fixpoint mget_keys (fns_with_args : list fn_and_args) : result (list str) :=
  match fns_with_args with
  | [] => Ok []
  | r :: rest =>
      rbind (get_key (instance r) (args_of r) (kwargs_of r)) (fun k =>
      rbind (mget_keys rest) (fun keys => Ok (k :: keys)))
  end.

(** The loop over [enumerate(results)], with the pipeline, the result list
    and the flag it updates. *)
Fixpoint mget_loop (self : RedisCache) (fns_with_args : list fn_and_args)
    (keys : list str) (i : nat) (results : list (option bytes))
    (pipeline : list queued) (deserialized_results : list value)
    (needs_pipeline : bool) : io (list queued * list value * bool) :=
  match results with
  | [] => ret (pipeline, deserialized_results, needs_pipeline)
  | None :: results' =>
      let* r := lift (index fns_with_args i) in
      let* fn := lift (match original_fn (instance r) with
                       | Some fn => Ok fn
                       | None => Raise TypeError
                       end) in
      let* result := call_fn fn (args_of r) (kwargs_of r) in
      let* result_serialized := lift (rc_serializer self result) in
      let* _ := get_cache_lua_fn in
      let* key := lift (index keys i) in
      mget_loop self fns_with_args keys (S i) results'
        (pipeline ++ [{| q_key := key; q_keys_key := keys_key (instance r);
                         q_value := result_serialized;
                         q_ttl := ttl (instance r);
                         q_limit := limit (instance r) |}])
        (deserialized_results ++ [result]) true
  | Some result :: results' =>
      let* result := lift (rc_deserializer self result) in
      mget_loop self fns_with_args keys (S i) results' pipeline
        (deserialized_results ++ [result]) needs_pipeline
  end.

(** The queued scripts run one after the other on the server; the first
    error, if any, is raised once all have run. *)
Fixpoint run_queued (qs : list (str * str * bytes * Z * Z)) : cmd unit :=
  match qs with
  | [] => ret tt
  | (key, keys_key, payload, ttl, limit) :: qs' => fun s =>
      match cache_lua_fn key keys_key payload ttl limit s with
      | (Ok _, s') => run_queued qs' s'
      | (Raise e, s') => (Raise e, snd (run_queued qs' s'))
      end
  end.

Definition pack (q : queued) : result (str * str * bytes * Z * Z) :=
  match q_keys_key q with
  | None => Raise DataError
  | Some keys_key =>
      rbind (wire (q_value q)) (fun payload =>
      Ok (q_key q, keys_key, payload, q_ttl q, q_limit q))
  end.

(** [pipeline.execute()]: the commands are packed, sent in one round trip and
    run in order. *)
Definition pipeline_execute (pipeline : list queued) : io unit :=
  let* packed := lift (sequence (map pack pipeline)) in
  round_trip (run_queued packed).

(** [self.client.mget( *keys)] with no key is a call that lacks its
    argument: it raises before anything is sent. *)
Definition client_mget (keys : list str) : io (list (option bytes)) :=
  match keys with
  | [] => lift (Raise TypeError)
  | _ :: _ => round_trip (Redis.mget keys)
  end.

Definition mget (self : RedisCache) (fns_with_args : list fn_and_args)
    : io (list value) :=
  let* keys := lift (mget_keys fns_with_args) in
  let* results := client_mget keys in
  let* (pipeline, deserialized_results, needs_pipeline) :=
    mget_loop self fns_with_args keys 0 results [] [] false in
  let* _ := (if needs_pipeline : bool then pipeline_execute pipeline else ret tt) in
  ret deserialized_results.

End Cache.

Import Cache.

(* ===================================================================== *)
(** * Vocabulary of the statements *)
(* ===================================================================== *)

Module Spec.

(** ** Keys *)

(** A base64 character is a letter, a digit, [+] or [/]. *)
Definition b64_alphabet (c : N) : Prop :=
  (65 <= c <= 90) \/ (97 <= c <= 122) \/ (48 <= c <= 57) \/ c = 43 \/ c = 47.

Definition b64_output (c : N) : Prop := b64_alphabet c \/ c = b64_pad.

(** The two characters of the hash-tag syntax, [{] and [}]. *)
Definition brace (c : N) : Prop := c = 123 \/ c = 125.

(** ** Signatures *)

(** [inspect.signature] never repeats a name, so parameters of different
    kinds have different names. *)
Definition unique_names (sig : signature) : Prop := NoDup (map name sig).

(** What the two loops of [get_args] may leave under the collectors' names:
    a list under the [*args] name, a dictionary under the [**kwargs] name. *)
Definition collectors_ok (sig : signature) (parsed_args : dict) : Prop :=
  (forall n, head (variable_args sig) = Some n ->
     match dict_get n parsed_args with
     | None | Some (VList _) => True
     | _ => False
     end)
  /\ (forall n, head (variable_kwargs sig) = Some n ->
        match dict_get n parsed_args with
        | None | Some (VDict _) => True
        | _ => False
        end).

(** ** The store *)

Local Open Scope Z_scope.

(** The entry a script run at state [s] writes for value [v] and [ttl]. *)
Definition written (v : bytes) (ttl : Z) (s : server) : entry :=
  {| payload := RString v;
     expire_at := if ttl >? 0 then Some (expiry (now s) ttl) else None |}.

Definition write_command (k : key) (v : bytes) (ttl : Z) : command :=
  if ttl >? 0 then SETEX k ttl v else SET k v.

(** A cache entry: a string value, expired or not. *)
Definition is_entry (e : entry) : Prop := exists v, payload e = RString v.

(** A cache entry that never expires. *)
Definition is_persistent (e : entry) : Prop :=
  is_entry e /\ expire_at e = None.

(** Every member of the index at [idx] names a key the key space holds, with
    an entry that satisfies [P]. *)
Definition refs (P : entry -> Prop) (idx : key) (s : server) : Prop :=
  forall m, In m (index_members idx s) ->
    exists e, db s !! m = Some e /\ P e.

(** Every key the index references exists as an entry in the store. *)
Definition index_backed (idx : key) (s : server) : Prop :=
  forall m, In m (index_members idx s) -> entry_exists m s = true.

(** Every key the index references holds an entry, which exists unless its
    expiry time has passed. *)
Definition backed_unless_expired (idx : key) (s : server) : Prop :=
  forall m, In m (index_members idx s) ->
    entry_exists m s = true
    \/ exists e t, db s !! m = Some e /\ is_entry e
                   /\ expire_at e = Some t /\ t <= now s.

(** From [s] to [s'] the server log only grew, the clock stood still, and
    key [k] was either left as it was or removed. *)
Definition fades (k : key) (s s' : server) : Prop :=
  now s' = now s
  /\ (exists rest, log s' = log s ++ rest)
  /\ (db s' !! k = db s !! k \/ db s' !! k = None).

(** One store-and-evict execution: its entry key, value and ttl, and the
    time that passes on the server before it starts. *)
Record execution := {
  e_key : key;
  e_value : bytes;
  e_ttl : Z;
  e_wait : N
}.

Definition execute (idx : key) (limit : Z) (e : execution) (s : server)
    : result unit * server :=
  cache_lua_fn (e_key e) idx (e_value e) (e_ttl e) limit (advance (e_wait e) s).

(** A sequence of executions under one index key and one limit. *)
Fixpoint run (idx : key) (limit : Z) (es : list execution) (s : server)
    : server :=
  match es with
  | [] => s
  | e :: es' => run idx limit es' (snd (execute idx limit e s))
  end.

(** ** The façades *)

(** The world after the wrapped function has been called from [w]. *)
Definition called_from (fn : function) (args : list value) (kwargs : dict)
    (w : world) : world :=
  snd (call_fn fn args kwargs w).

(** What request [r] of [mget] is answered with, given what the multi-key
    read returned in its slot: the deserialized payload on a hit, the value
    its function computes on a miss. *)
Definition answer (self : RedisCache) (r : fn_and_args) (read : option bytes)
    : result value :=
  match read with
  | Some payload => rc_deserializer self payload
  | None =>
      match original_fn (instance r) with
      | Some fn => fn_body fn (args_of r) (kwargs_of r)
      | None => Raise TypeError
      end
  end.

Definition is_miss (read : option bytes) : bool :=
  match read with None => true | Some _ => false end.

(** Nothing raises while request [r] is answered. *)
Definition answerable (self : RedisCache) (r : fn_and_args)
    (read : option bytes) : Prop :=
  exists v, answer self r read = Ok v
            /\ (read = None -> exists s, rc_serializer self v = Ok s).

End Spec.

Import Spec.

(* ===================================================================== *)
(** * Sample functions, caches and worlds *)
(* ===================================================================== *)

Module Fixtures.

Local Open Scope Z_scope.

Definition ordinary (n : string) : param :=
  {| name := lit n; kind := POSITIONAL_OR_KEYWORD |}.

(** [def add(a, b): return a + b], in module [app]. *)
Definition add : function :=
  {| fn_module := lit "app"; fn_qualname := lit "add";
     fn_signature := [ordinary "a"; ordinary "b"];
     fn_body := fun args kwargs =>
       match args ++ map snd kwargs with
       | [VInt a; VInt b] => Ok (VInt (a + b))
       | _ => Raise TypeError
       end |}.

(** [def square(x): return x * x]. *)
Definition square : function :=
  {| fn_module := lit "app"; fn_qualname := lit "square";
     fn_signature := [ordinary "x"];
     fn_body := fun args kwargs =>
       match args ++ map snd kwargs with
       | [VInt x] => Ok (VInt (x * x))
       | _ => Raise TypeError
       end |}.

(** [def motd(): return ''], a function whose result is the empty text. *)
Definition motd : function :=
  {| fn_module := lit "app"; fn_qualname := lit "motd";
     fn_signature := [];
     fn_body := fun args kwargs =>
       match args, kwargs with
       | [], [] => Ok (VStr [])
       | _, _ => Raise TypeError
       end |}.

Fixpoint digits_value (b : bytes) (acc : Z) : option Z :=
  match b with
  | [] => Some acc
  | c :: b' =>
      if ((48 <=? c) && (c <=? 57))%N
      then digits_value b' (10 * acc + Z.of_N (c - 48))
      else None
  end.

(** [deserializer=int], on the decimal text [compact_dump] writes for an
    integer; other payloads raise. *)
Definition int_deserializer (b : bytes) : result value :=
  match b with
  | [] => Raise ValueError
  | 45%N :: (_ :: _) as ds =>
      match digits_value ds 0 with
      | Some z => Ok (VInt (- z))
      | None => Raise ValueError
      end
  | ds =>
      match digits_value ds 0 with
      | Some z => Ok (VInt z)
      | None => Raise ValueError
      end
  end.

(** [serializer=lambda v: v] and [deserializer=lambda b: b].  What the
    serializer returns goes to the client as it is: the client takes text
    and byte strings, prints an integer, and rejects the rest with
    [DataError]. *)
Definition identity_serializer (v : value) : result serialized :=
  match v with
  | VStr s => Ok (SStr s)
  | VBytes b => Ok (SBytes b)
  | VInt z => Ok (SBytes (decimal_Z z))
  | _ => Raise DataError
  end.

Definition identity_deserializer (b : bytes) : result value := Ok (VBytes b).

(** [RedisCache(client, deserializer=int)]. *)
Definition int_cache : RedisCache :=
  {| rc_prefix := lit "rc"; rc_serializer := compact_dump;
     rc_deserializer := int_deserializer; rc_key_serializer := None |}.

(** [RedisCache(client, deserializer=lambda b: b)]. *)
Definition raw_cache : RedisCache :=
  {| rc_prefix := lit "rc"; rc_serializer := compact_dump;
     rc_deserializer := identity_deserializer; rc_key_serializer := None |}.

(** A cache of texts, stored as they are; keys still go through JSON. *)
Definition text_cache : RedisCache :=
  {| rc_prefix := lit "rc"; rc_serializer := identity_serializer;
     rc_deserializer := identity_deserializer;
     rc_key_serializer := Some compact_dump |}.

Definition never (e : exn) : bool := false.

Definition on_connection_error (e : exn) : bool :=
  match e with ConnectionError => true | _ => false end.

Definition cached_add : CacheDecorator :=
  decorate (cache int_cache 0 0 None never) add.

Definition cached_square : CacheDecorator :=
  decorate (cache int_cache 0 0 None on_connection_error) square.

Definition raw_square : CacheDecorator :=
  decorate (cache raw_cache 0 0 None never) square.

Definition cached_motd : CacheDecorator :=
  decorate (cache text_cache 0 0 None never) motd.

(** A reachable, empty store. *)
Definition quiet : world :=
  {| srv := empty_server; faults := []; calls := [];
     has_lua_cache_fn := false |}.

(** The next round trip fails with a connection error. *)
Definition offline : world :=
  {| srv := empty_server; faults := [Some ConnectionError]; calls := [];
     has_lua_cache_fn := false |}.

(** The compact JSON text of the map that binds [a] to 1 and [b] to 2. *)
Definition json_a1_b2 : str :=
  [123; 34; 97; 34; 58; 49; 44; 34; 98; 34; 58; 50; 125]%N.

(** The index key of a namespace, and a run of the script under it. *)
Definition idx : key := lit "{rc:app.square}:keys".

Definition put (k : string) (v : string) (ttl : Z) (wait : N) : execution :=
  {| e_key := lit k; e_value := lit v; e_ttl := ttl; e_wait := wait |}.

End Fixtures.

(* ===================================================================== *)
(** * Invalidation: [chunks], [invalidate], [invalidate_all] *)
(* ===================================================================== *)

Module Maintenance.

Local Open Scope Z_scope.

(** The inner loop of [chunks]: up to [n] calls of [next], stopping at
    [StopIteration].  Returns the elements read and what is left of the
    iterator. *)
Fixpoint take_next {A} (n : nat) (_iterable : list A) : list A * list A :=
  match n with
  | O => ([], _iterable)
  | S n' =>
      match _iterable with
      | [] => ([], [])
      | x :: rest =>
          let (elements, rest') := take_next n' rest in
          (x :: elements, rest')
      end
  end.

(** The [while True] loop of [chunks]: an empty batch ends it. *)
Fixpoint chunks_loop {A} (fuel : nat) (n : Z) (_iterable : list A)
    : list (list A) :=
  match fuel with
  | O => []
  | S fuel' =>
      let (elements, rest) := take_next (Z.to_nat n) _iterable in
      match elements with
      | [] => []
      | _ :: _ => elements :: chunks_loop fuel' n rest
      end
  end.

(** [chunks(iterable, n)], as the list of the lists it yields.  Every batch
    but the one that ends the loop reads at least one element, so the loop
    runs at most once more than there are elements. *)
Definition chunks {A} (iterable : list A) (n : Z) : list (list A) :=
  chunks_loop (S (length iterable)) n iterable.

(** A pipeline of commands: all of them run, in order; the first error, if
    any, is raised once all have run. *)
Fixpoint run_pipeline (commands : list (cmd Z)) : cmd unit :=
  match commands with
  | [] => ret tt
  | c :: commands' => fun s =>
      match c s with
      | (Ok _, s') => run_pipeline commands' s'
      | (Raise e, s') => (Raise e, snd (run_pipeline commands' s'))
      end
  end.

(** [CacheDecorator.invalidate], called with [args] and [kwargs]. *)
Definition invalidate (self : CacheDecorator) (args : list value)
    (kwargs : dict) : io unit :=
  let* key := lift (get_key self args kwargs) in
  match keys_key self with
  | None => lift (Raise DataError)
  | Some keys_key =>
      round_trip (run_pipeline [del [key]; zrem keys_key [key]])
  end.

(** [client.scan_iter(pattern)]: the keys that exist and match the pattern.
    How the server matches a pattern against a key is its own business and
    comes in as [scan_match]; the iteration is not a command of the log. *)
Definition scan_iter (scan_match : str -> key -> bool) (pattern : str)
    : cmd (list key) := fun s =>
  (Ok (List.filter
         (fun k => bool_decide (is_Some (lookup k s)) && scan_match pattern k)
         (map fst (map_to_list (db s)))),
   s).

(** The loop of [invalidate_all]: one [DEL] per batch of keys. *)
Fixpoint delete_chunks (chunks_gen : list (list key)) : io unit :=
  match chunks_gen with
  | [] => ret tt
  | keys :: chunks_gen' =>
      let* _ := round_trip (del keys) in
      delete_chunks chunks_gen'
  end.

(** [CacheDecorator.invalidate_all()]. *)
Definition invalidate_all (scan_match : str -> key -> bool)
    (self : CacheDecorator) : io unit :=
  let* found :=
    round_trip (scan_iter scan_match (get_full_prefix self ++ lit ":*")) in
  delete_chunks (chunks found 500).


(** The match of a pattern that is a literal text followed by one star. *)
Fixpoint starts_with (p k : str) : bool :=
  match p, k with
  | [], _ => true
  | _ :: _, [] => false
  | a :: p', b :: k' => (a =? b)%N && starts_with p' k'
  end.

Definition literal_star (pattern : str) (k : key) : bool :=
  starts_with (removelast pattern) k.

End Maintenance.

Import Maintenance.

(* ===================================================================== *)
(** * More vocabulary *)
(* ===================================================================== *)

Module MoreSpec.

Local Open Scope Z_scope.

(** The names [get_args] may use as keys: those of the parameters that are
    not positional-only. *)
Definition bindable (sig : signature) (k : str) : Prop :=
  exists p, In p sig /\ name p = k /\ kind p <> POSITIONAL_ONLY.

Definition keys_bindable (sig : signature) (d : dict) : Prop :=
  forall k, In k (map fst d) -> bindable sig k.

(** ** Octets and the inverse of the two encoders *)

Definition is_octet (b : N) : Prop := (b < 256)%N.

(** [f] holds of every number below [2 ^ k]. *)
Fixpoint all_below (k : nat) (f : N -> bool) : bool :=
  match k with
  | O => f 0%N
  | S k' =>
      all_below k' (fun n => f (2 * n)%N)
      && all_below k' (fun n => f (2 * n + 1)%N)
  end.

(** The sextet a base64 character stands for. *)
Definition b64_index (c : N) : N :=
  (if (65 <=? c) && (c <=? 90) then c - 65
   else if (97 <=? c) && (c <=? 122) then c - 71
   else if (48 <=? c) && (c <=? 57) then c + 4
   else if c =? 43 then 62
   else 63)%N.

Definition b64_octet1 (c1 c2 : N) : N :=
  N.lor (N.shiftl (b64_index c1) 2) (N.shiftr (b64_index c2) 4).

Definition b64_octet2 (c2 c3 : N) : N :=
  N.lor (N.shiftl (N.land (b64_index c2) 15) 4) (N.shiftr (b64_index c3) 2).

Definition b64_octet3 (c3 c4 : N) : N :=
  N.lor (N.shiftl (N.land (b64_index c3) 3) 6) (b64_index c4).

(** Reading a base64 text back, four characters at a time. *)
Fixpoint b64decode (t : bytes) : bytes :=
  match t with
  | c1 :: c2 :: c3 :: c4 :: rest =>
      if (c3 =? b64_pad)%N then [b64_octet1 c1 c2]
      else if (c4 =? b64_pad)%N then [b64_octet1 c1 c2; b64_octet2 c2 c3]
      else b64_octet1 c1 c2 :: b64_octet2 c2 c3 :: b64_octet3 c3 c4
           :: b64decode rest
  | _ => []
  end.

(** The code point behind the UTF-8 form of one character. *)
Definition utf8_point (chunk : bytes) : N :=
  match chunk with
  | [a] => a
  | [a; b] => N.lor (N.shiftl (N.land a 31) 6) (N.land b 63)
  | [a; b; c] =>
      N.lor (N.shiftl (N.land a 15) 12)
            (N.lor (N.shiftl (N.land b 63) 6) (N.land c 63))
  | [a; b; c; d] =>
      N.lor (N.shiftl (N.land a 7) 18)
            (N.lor (N.shiftl (N.land b 63) 12)
                   (N.lor (N.shiftl (N.land c 63) 6) (N.land d 63)))
  | _ => 0
  end%N.

(** How many octets follow a leading octet of UTF-8. *)
Definition utf8_following (a : N) : nat :=
  if (a <? 128)%N then 0%nat
  else if (a <? 224)%N then 1%nat
  else if (a <? 240)%N then 2%nat
  else 3%nat.

(** ** What [mget] does for the misses of a batch *)

(** The calls [mget] makes: the function of each request whose slot the read
    left empty, in request order. *)
Fixpoint miss_calls (reqs : list fn_and_args) (results : list (option bytes))
    : list call :=
  match reqs, results with
  | r :: reqs', None :: results' =>
      match original_fn (instance r) with
      | Some fn => [{| called := fn_qualname fn; call_args := args_of r;
                       call_kwargs := kwargs_of r |}]
      | None => []
      end ++ miss_calls reqs' results'
  | _ :: reqs', Some _ :: results' => miss_calls reqs' results'
  | _, _ => []
  end.

(** The script calls [mget] queues on its pipeline: for each miss, in
    request order, the key of the request, the index key of its decorator,
    the serialized value its function computed, and the decorator's ttl and
    limit. *)
Fixpoint miss_queue (self : RedisCache) (reqs : list fn_and_args)
    (keys : list str) (results : list (option bytes)) : list queued :=
  match reqs, keys, results with
  | r :: reqs', key :: keys', None :: results' =>
      match rbind (answer self r None) (rc_serializer self) with
      | Ok result_serialized =>
          [{| q_key := key; q_keys_key := keys_key (instance r);
              q_value := result_serialized; q_ttl := ttl (instance r);
              q_limit := limit (instance r) |}]
      | Raise _ => []
      end ++ miss_queue self reqs' keys' results'
  | _ :: reqs', _ :: keys', Some _ :: results' =>
      miss_queue self reqs' keys' results'
  | _, _, _ => []
  end.

(** The world when the loop of [mget] is over: if there was a miss, the
    functions have been called and the script handle is registered. *)
Definition after_misses (reqs : list fn_and_args)
    (results : list (option bytes)) (w : world) : world :=
  if existsb is_miss results then
    {| srv := srv w; faults := faults w;
       calls := calls w ++ miss_calls reqs results;
       has_lua_cache_fn := true |}
  else w.




(** ** The index with its scores *)





(** ** What may follow a run *)

(** The operations on a namespace: a run of the script for a key, with its
    value, ttl and limit; the pipeline of [invalidate] for a key; time that
    passes. *)
Inductive later_op :=
| Store (k : key) (v : bytes) (ttl limit : Z)
| Invalidate (k : key)
| Wait (dt : N).

Fixpoint run_later (idx : key) (ops : list later_op) (s : server) : server :=
  match ops with
  | [] => s
  | Store k v ttl limit :: ops' =>
      run_later idx ops' (snd (cache_lua_fn k idx v ttl limit s))
  | Invalidate k :: ops' =>
      run_later idx ops' (snd (run_pipeline [del [k]; zrem idx [k]] s))
  | Wait dt :: ops' => run_later idx ops' (advance dt s)
  end.

(** The operation is not for key [K]. *)
Definition spares (K : key) (o : later_op) : Prop :=
  match o with
  | Store k _ _ _ => k <> K
  | Invalidate k => k <> K
  | Wait _ => True
  end.

(* MORESPEC *)

End MoreSpec.

Import MoreSpec.

(* ===================================================================== *)
(** * More sample functions, caches and worlds *)
(* ===================================================================== *)

Module MoreFixtures.

Import Fixtures.

Local Open Scope Z_scope.

(** The signature of [def report(level, *args, **kwargs)]. *)
Definition report_signature : signature :=
  [ordinary "level";
   {| name := lit "args"; kind := VAR_POSITIONAL |};
   {| name := lit "kwargs"; kind := VAR_KEYWORD |}].

(** [key_serializer=lambda v: dumps(v).encode()]: keys from octets. *)
Definition octet_serializer (v : value) : result serialized :=
  rbind (dumps v) (fun s => rbind (encode_utf8 s) (fun b => Ok (SBytes b))).

Definition octet_cache : RedisCache :=
  {| rc_prefix := lit "rc"; rc_serializer := compact_dump;
     rc_deserializer := int_deserializer;
     rc_key_serializer := Some octet_serializer |}.

Definition octet_add : CacheDecorator :=
  decorate (cache octet_cache 0 0 None never) add.


(** The key of [square(4)] and of [square(3)]. *)
Definition square_4 : key := lit "{rc:app.square}:eyJ4Ijo0fQ==".
Definition square_3 : key := lit "{rc:app.square}:eyJ4IjozfQ==".

(** The world after [square(4)] has been called through the cache. *)
Definition warm : world :=
  snd (inner cached_square square [VInt 4] [] quiet).

(** A store that holds an entry and the index of [square], an entry of
    [add] and a key of its own. *)
Definition shared : world :=
  {| srv := {| db := <[square_4 := {| payload := RString (lit "16");
                                      expire_at := None |}]>
                     (<[idx := {| payload := RZset [(square_4, 1%Q)];
                                  expire_at := None |}]>
                     (<[lit "{rc:app.add}:eyJhIjoxLCJiIjoyfQ==" :=
                          {| payload := RString (lit "3"); expire_at := None |}]>
                     (<[lit "session" := {| payload := RString (lit "x");
                                            expire_at := None |}]> ∅)));
               now := 0; log := [] |};
     faults := []; calls := []; has_lua_cache_fn := true |}.





End MoreFixtures.

(* ===================================================================== *)
(** * The key codec *)
(* ===================================================================== *)

Section KeyCodec.

Local Open Scope N_scope.

(** Lists taken three elements at a time, as [b64encode] does. *)
Lemma list_ind3 {A} (P : list A -> Prop) :
  P [] -> (forall a, P [a]) -> (forall a b, P [a; b]) ->
  (forall a b c l, P l -> P (a :: b :: c :: l)) ->
  forall l, P l.
Proof.
  intros H0 H1 H2 H3.
  assert (H : forall l, P l /\ (forall a, P (a :: l)) /\ (forall a b, P (a :: b :: l))).
  { induction l as [|x l (IH0 & IH1 & IH2)]; repeat split; auto. }
  intros l. apply H.
Qed.

Lemma b64_char_alphabet i : b64_alphabet (b64_char i).
Proof.
  unfold b64_char, b64_alphabet.
  assert (Hi : N.land i 63 < 64).
  { change 63 with (N.ones 6). rewrite N.land_ones. apply N.mod_lt. discriminate. }
  destruct (N.ltb_spec (N.land i 63) 26); [lia|].
  destruct (N.ltb_spec (N.land i 63) 52); [lia|].
  destruct (N.ltb_spec (N.land i 63) 62); [lia|].
  destruct (N.eqb_spec (N.land i 63) 62); lia.
Qed.

Lemma b64encode_output data : Forall b64_output (b64encode data).
Proof.
  induction data as [|a|a b|a b c l IH] using list_ind3; simpl;
    repeat (constructor;
            [first [left; apply b64_char_alphabet | right; reflexivity]|]);
    first [assumption | constructor].
Qed.

(** Every octet of the encoding is plain ASCII, so decoding it as UTF-8
    gives the same numbers as code points. *)
Lemma b64encode_ascii data : Forall (fun c => c < 128) (b64encode data).
Proof.
  eapply List.Forall_impl; [|apply b64encode_output].
  intros c [H|H]; [unfold b64_alphabet in H | unfold b64_pad in H]; lia.
Qed.

Lemma b64encode_no_brace data : Forall (fun c => ~ brace c) (b64encode data).
Proof.
  eapply List.Forall_impl; [|apply b64encode_output].
  intros c [H|H]; unfold brace; [unfold b64_alphabet in H | unfold b64_pad in H]; lia.
Qed.

(** A serializer that returns octets has them encoded as they are. *)
Lemma get_key_format_bytes self fn ns args kwargs normalized_args data :
  original_fn self = Some fn ->
  namespace self = Some ns ->
  get_args (fn_signature fn) args kwargs = Ok normalized_args ->
  match key_serializer self with
  | Some key_serializer => key_serializer (VDict normalized_args)
  | None => serializer self (VDict normalized_args)
  end = Ok (SBytes data) ->
  get_key self args kwargs
  = Ok ((lit "{" ++ prefix self ++ lit ":" ++ ns ++ lit "}")
        ++ lit ":" ++ b64encode data).
Proof.
  intros Hfn Hns Hargs Hser.
  unfold get_key. rewrite Hfn. simpl. rewrite Hargs. simpl.
  rewrite Hser. simpl. unfold get_full_prefix, decode_ascii. rewrite Hns.
  reflexivity.
Qed.

End KeyCodec.

(* ===================================================================== *)
(** * The argument normalizer *)
(* ===================================================================== *)

Section NormalizerFacts.

Lemma str_eqb_true a b : str_eqb a b = true <-> a = b.
Proof. unfold str_eqb. apply bool_decide_eq_true. Qed.

Lemma str_eqb_refl a : str_eqb a a = true.
Proof. apply str_eqb_true. reflexivity. Qed.

Lemma str_eqb_false a b : a <> b -> str_eqb a b = false.
Proof. intros H. unfold str_eqb. apply bool_decide_eq_false. exact H. Qed.

Lemma str_in_true k l : str_in k l = true <-> In k l.
Proof.
  unfold str_in. rewrite existsb_exists. split.
  - intros (x & Hx & Hk). apply str_eqb_true in Hk. subst. exact Hx.
  - intros H. exists k. split; [exact H | apply str_eqb_refl].
Qed.

Lemma dict_get_set_eq k v d : dict_get k (dict_set k v d) = Some v.
Proof.
  induction d as [|[k' v'] d IH]; simpl.
  - rewrite str_eqb_refl. reflexivity.
  - destruct (str_eqb k k') eqn:E; simpl; rewrite E; [reflexivity | exact IH].
Qed.

Lemma dict_get_set_ne k k' v d :
  k <> k' -> dict_get k' (dict_set k v d) = dict_get k' d.
Proof.
  intros Hne. induction d as [|[k0 v0] d IH]; simpl.
  - rewrite str_eqb_false by congruence. reflexivity.
  - destruct (str_eqb k k0) eqn:E; simpl.
    + apply str_eqb_true in E. subst k0.
      rewrite str_eqb_false by congruence. reflexivity.
    + rewrite IH. reflexivity.
Qed.

Lemma unique_names_inj sig p q :
  unique_names sig -> In p sig -> In q sig -> name p = name q -> p = q.
Proof.
  unfold unique_names. induction sig as [|a sig IH]; simpl; [tauto|].
  intros Hnd Hp Hq Hn. apply NoDup_cons in Hnd as [Hnot Hnd].
  destruct Hp as [->|Hp], Hq as [->|Hq]; auto.
  - exfalso. apply Hnot. apply list_elem_of_In. rewrite Hn. apply in_map. exact Hq.
  - exfalso. apply Hnot. apply list_elem_of_In. rewrite <- Hn. apply in_map. exact Hp.
Qed.

Lemma names_apart sig (f g : param -> bool) n :
  unique_names sig ->
  (forall p, f p = true -> g p = true -> False) ->
  In n (map name (List.filter f sig)) ->
  In n (map name (List.filter g sig)) -> False.
Proof.
  intros Hu Hfg Hf Hg.
  apply in_map_iff in Hf as (p & Hp & Hpf).
  apply in_map_iff in Hg as (q & Hq & Hqg).
  apply filter_In in Hpf as [Hpin Hfp]. apply filter_In in Hqg as [Hqin Hgq].
  assert (p = q) by (apply (unique_names_inj sig); congruence).
  subst q. eauto.
Qed.

Lemma head_In {A} (l : list A) n : head l = Some n -> In n l.
Proof. destruct l; simpl; [discriminate | intros [= ->]; left; reflexivity]. Qed.

(** Closes [a <> b] for two names that belong to parameters of different
    kinds. *)
Ltac apart Hu H1 H2 :=
  let E := fresh in
  intros E; subst;
  refine (names_apart _ _ _ _ Hu _ H1 H2);
  let p := fresh in
  let Hf := fresh in
  let Hg := fresh in
  intros p Hf Hg;
  unfold is_standard, is_allowed_kwarg, is_var_positional, is_var_keyword in *;
  destruct (kind p); discriminate.

Lemma standard_allowed sig p :
  In p (standard_args sig) -> In p (allowed_kwargs sig).
Proof.
  unfold standard_args, allowed_kwargs. rewrite !in_map_iff.
  intros (q & Hn & Hq). exists q. split; [exact Hn|].
  apply filter_In in Hq as [Hin Hs]. apply filter_In. split; [exact Hin|].
  unfold is_standard in Hs. unfold is_allowed_kwarg.
  destruct (kind q); try discriminate; reflexivity.
Qed.

Lemma bind_positional_ok sig parsed_args i arg :
  unique_names sig -> collectors_ok sig parsed_args ->
  exists parsed', bind_positional sig parsed_args i arg = Ok parsed'
                  /\ collectors_ok sig parsed'.
Proof.
  intros Hu [Hva Hvk]. unfold bind_positional.
  destruct (nth_error (standard_args sig) i) as [p|] eqn:Hp.
  - eexists. split; [reflexivity|]. apply nth_error_In in Hp.
    split; intros n Hn; apply head_In in Hn as Hin.
    + rewrite dict_get_set_ne; [apply Hva; exact Hn | apart Hu Hp Hin].
    + rewrite dict_get_set_ne; [apply Hvk; exact Hn | apart Hu Hp Hin].
  - destruct (variable_args sig) as [|vn rest] eqn:Hv.
    + eexists. split; [reflexivity|]. split; [intros n Hn; rewrite Hv in Hn; discriminate | exact Hvk].
    + specialize (Hva vn eq_refl). unfold dict_mem.
      assert (Hin : In vn (variable_args sig)) by (rewrite Hv; left; reflexivity).
      destruct (dict_get vn parsed_args) as [[]|] eqn:Hg; try contradiction.
      * rewrite Hg. eexists. split; [reflexivity|].
        split; intros n Hn.
        -- rewrite Hv in Hn. injection Hn as <-. rewrite dict_get_set_eq. exact I.
        -- apply head_In in Hn as Hin'.
           rewrite dict_get_set_ne; [apply Hvk; exact Hn | apart Hu Hin Hin'].
      * rewrite dict_get_set_eq. eexists. split; [reflexivity|].
        split; intros n Hn.
        -- rewrite Hv in Hn. injection Hn as <-. rewrite dict_get_set_eq. exact I.
        -- apply head_In in Hn as Hin'.
           rewrite !dict_get_set_ne;
             [apply Hvk; exact Hn | apart Hu Hin Hin' | apart Hu Hin Hin'].
Qed.

Lemma positional_loop_ok sig args : forall i parsed_args,
  unique_names sig -> collectors_ok sig parsed_args ->
  exists parsed', positional_loop sig i args parsed_args = Ok parsed'
                  /\ collectors_ok sig parsed'.
Proof.
  induction args as [|arg args IH]; intros i parsed_args Hu Hok; simpl.
  - eauto.
  - destruct (bind_positional_ok sig parsed_args i arg Hu Hok) as (p1 & -> & Hok1).
    simpl. apply IH; assumption.
Qed.

Lemma bind_named_ok sig parsed_args key value :
  unique_names sig -> collectors_ok sig parsed_args ->
  exists parsed', bind_named sig parsed_args key value = Ok parsed'
                  /\ collectors_ok sig parsed'.
Proof.
  intros Hu [Hva Hvk]. unfold bind_named.
  destruct (str_in key (allowed_kwargs sig)) eqn:Hk.
  - eexists. split; [reflexivity|]. apply str_in_true in Hk.
    split; intros n Hn; apply head_In in Hn as Hin.
    + rewrite dict_get_set_ne; [apply Hva; exact Hn | apart Hu Hk Hin].
    + rewrite dict_get_set_ne; [apply Hvk; exact Hn | apart Hu Hk Hin].
  - destruct (variable_kwargs sig) as [|vn rest] eqn:Hv.
    + eexists. split; [reflexivity|]. split; [exact Hva | intros n Hn; rewrite Hv in Hn; discriminate].
    + specialize (Hvk vn eq_refl). unfold dict_mem.
      assert (Hin : In vn (variable_kwargs sig)) by (rewrite Hv; left; reflexivity).
      destruct (dict_get vn parsed_args) as [[]|] eqn:Hg; try contradiction.
      * rewrite Hg. eexists. split; [reflexivity|].
        split; intros n Hn.
        -- apply head_In in Hn as Hin'.
           rewrite dict_get_set_ne; [apply Hva; exact Hn | apart Hu Hin Hin'].
        -- rewrite Hv in Hn. injection Hn as <-. rewrite dict_get_set_eq. exact I.
      * rewrite dict_get_set_eq. eexists. split; [reflexivity|].
        split; intros n Hn.
        -- apply head_In in Hn as Hin'.
           rewrite !dict_get_set_ne;
             [apply Hva; exact Hn | apart Hu Hin Hin' | apart Hu Hin Hin'].
        -- rewrite Hv in Hn. injection Hn as <-. rewrite dict_get_set_eq. exact I.
Qed.

Lemma named_loop_ok sig kwargs : forall parsed_args,
  unique_names sig -> collectors_ok sig parsed_args ->
  exists parsed', named_loop sig kwargs parsed_args = Ok parsed'
                  /\ collectors_ok sig parsed'.
Proof.
  induction kwargs as [|[key value] kwargs IH]; intros parsed_args Hu Hok; simpl.
  - eauto.
  - destruct (bind_named_ok sig parsed_args key value Hu Hok) as (p1 & -> & Hok1).
    simpl. apply IH; assumption.
Qed.

(** [get_args] raises nothing on a signature without repeated names. *)
Lemma get_args_total sig args kwargs :
  unique_names sig -> exists parsed_args, get_args sig args kwargs = Ok parsed_args.
Proof.
  intros Hu. unfold get_args. cbv zeta.
  assert (H0 : collectors_ok sig []) by (split; intros n _; exact I).
  assert (H1 : forall p, collectors_ok sig p ->
             exists q, (if nonempty kwargs then named_loop sig kwargs p else Ok p) = Ok q).
  { intros p Hp. destruct (nonempty kwargs); [|eauto].
    destruct (named_loop_ok sig kwargs p Hu Hp) as (q & -> & _). eauto. }
  destruct (nonempty (standard_args sig) || nonempty (variable_args sig)).
  - destruct (positional_loop_ok sig args 0%nat [] Hu H0) as (p & -> & Hp).
    simpl. apply H1. exact Hp.
  - simpl. apply H1. exact H0.
Qed.

(** ** Named values are applied last *)

Lemma bind_named_other sig parsed_args key value parsed' p :
  unique_names sig -> In p (allowed_kwargs sig) -> key <> p ->
  bind_named sig parsed_args key value = Ok parsed' ->
  dict_get p parsed' = dict_get p parsed_args.
Proof.
  intros Hu Hp Hne. unfold bind_named.
  destruct (str_in key (allowed_kwargs sig)).
  - intros [= <-]. apply dict_get_set_ne. exact Hne.
  - destruct (variable_kwargs sig) as [|vn rest] eqn:Hv; [intros [= <-]; reflexivity|].
    assert (Hin : In vn (variable_kwargs sig)) by (rewrite Hv; left; reflexivity).
    assert (Hvn : vn <> p) by (apart Hu Hin Hp).
    unfold dict_mem.
    destruct (dict_get vn parsed_args) as [v0|] eqn:Hg.
    + rewrite Hg. destruct v0; try discriminate.
      intros [= <-]. apply dict_get_set_ne. exact Hvn.
    + rewrite dict_get_set_eq. intros [= <-].
      rewrite !dict_get_set_ne by exact Hvn. reflexivity.
Qed.

Lemma named_loop_other sig kwargs p : forall parsed_args parsed',
  unique_names sig -> In p (allowed_kwargs sig) -> ~ In p (map fst kwargs) ->
  named_loop sig kwargs parsed_args = Ok parsed' ->
  dict_get p parsed' = dict_get p parsed_args.
Proof.
  induction kwargs as [|[key value] kwargs IH]; intros parsed_args parsed' Hu Hp Hnot; simpl.
  - intros [= <-]. reflexivity.
  - simpl in Hnot.
    destruct (bind_named sig parsed_args key value) as [p1|] eqn:Hb; [|discriminate].
    simpl. intros Hl.
    rewrite (IH p1 parsed') by tauto.
    apply (bind_named_other sig parsed_args key value); auto.
Qed.

Lemma named_loop_binds sig kwargs p v : forall parsed_args parsed',
  unique_names sig -> In p (allowed_kwargs sig) ->
  NoDup (map fst kwargs) -> In (p, v) kwargs ->
  named_loop sig kwargs parsed_args = Ok parsed' ->
  dict_get p parsed' = Some v.
Proof.
  induction kwargs as [|[key value] kwargs IH];
    intros parsed_args parsed' Hu Hp Hnd Hin; simpl; [destruct Hin|].
  simpl in Hnd. apply NoDup_cons in Hnd as [Hfresh Hnd].
  destruct (bind_named sig parsed_args key value) as [p1|] eqn:Hb; [|discriminate].
  simpl. intros Hl. destruct Hin as [[= -> ->]|Hin].
  - rewrite (named_loop_other sig kwargs p p1 parsed'); auto.
    + unfold bind_named in Hb.
      apply str_in_true in Hp. rewrite Hp in Hb. injection Hb as <-.
      apply dict_get_set_eq.
    + intros Hin. apply Hfresh. apply list_elem_of_In. exact Hin.
  - apply (IH p1); auto.
Qed.

(** C9.  When an ordinary parameter [p] (the [i]-th of the signature) gets a
    positional value and the call also passes [p = v] by name, [get_args]
    returns a map that binds [p] to the named value [v]: the named values are
    applied after the positional ones and replace them. *)
Theorem named_value_replaces_positional sig args kwargs i p v :
  unique_names sig ->
  NoDup (map fst kwargs) ->
  nth_error (standard_args sig) i = Some p ->
  (i < length args)%nat ->
  In (p, v) kwargs ->
  exists parsed_args,
    get_args sig args kwargs = Ok parsed_args
    /\ dict_get p parsed_args = Some v.
Proof.
  intros Hu Hnd Hp Hi Hin.
  destruct (get_args_total sig args kwargs Hu) as (parsed & Hget).
  exists parsed. split; [exact Hget|].
  unfold get_args in Hget. cbv zeta in Hget.
  match type of Hget with
  | rbind ?x _ = _ => destruct x as [p0|]; [|discriminate]
  end.
  simpl in Hget.
  destruct kwargs as [|kv kwargs]; [destruct Hin|].
  simpl nonempty in Hget. cbv iota in Hget.
  apply (named_loop_binds sig (kv :: kwargs) p v p0 parsed); auto.
  apply standard_allowed. apply nth_error_In in Hp. exact Hp.
Qed.

(** The positional value is what the map holds when nothing is passed by
    name, so the theorem above does describe a replacement. *)
Lemma positional_loop_binds sig args : forall i j p a parsed_args parsed',
  unique_names sig ->
  nth_error (standard_args sig) (i + j) = Some p ->
  nth_error args j = Some a ->
  positional_loop sig i args parsed_args = Ok parsed' ->
  NoDup (standard_args sig) ->
  dict_get p parsed' = Some a.
Proof.
  assert (Hkeep : forall args i p parsed_args parsed',
            unique_names sig ->
            In p (standard_args sig) ->
            (forall k, nth_error (standard_args sig) (i + k) = Some p -> (length args <= k)%nat) ->
            positional_loop sig i args parsed_args = Ok parsed' ->
            dict_get p parsed' = dict_get p parsed_args).
  { intros args0. induction args0 as [|a args0 IH];
      intros i p parsed parsed' Hu Hp Hlate; simpl.
    - intros [= <-]. reflexivity.
    - destruct (bind_positional sig parsed i a) as [p1|] eqn:Hb; [|discriminate].
      simpl. intros Hl. rewrite (IH (S i) p p1 parsed' Hu Hp); [| |exact Hl].
      + unfold bind_positional in Hb.
        destruct (nth_error (standard_args sig) i) as [q|] eqn:Hq.
        * injection Hb as <-. apply dict_get_set_ne. intros ->.
          specialize (Hlate 0%nat). rewrite Nat.add_0_r in Hlate.
          specialize (Hlate Hq). simpl in Hlate. lia.
        * destruct (variable_args sig) as [|vn rest] eqn:Hv; [injection Hb as <-; reflexivity|].
          assert (Hin : In vn (variable_args sig)) by (rewrite Hv; left; reflexivity).
          assert (Hvn : vn <> p) by (apart Hu Hin Hp).
          unfold dict_mem in Hb.
          destruct (dict_get vn parsed) as [v0|] eqn:Hg.
          -- rewrite Hg in Hb. destruct v0; try discriminate.
             injection Hb as <-. apply dict_get_set_ne. exact Hvn.
          -- rewrite dict_get_set_eq in Hb. injection Hb as <-.
             rewrite !dict_get_set_ne by exact Hvn. reflexivity.
      + intros k Hk. specialize (Hlate (S k)).
        rewrite Nat.add_succ_r in Hlate. specialize (Hlate Hk). simpl in Hlate. lia. }
  intros i j p a parsed parsed' Hu Hp Ha Hl Hnd. revert i j parsed Hp Ha Hl.
  induction args as [|a0 args IH]; intros i j parsed Hp Ha; simpl.
  - destruct j; discriminate.
  - destruct (bind_positional sig parsed i a0) as [p1|] eqn:Hb; [|discriminate].
    simpl. intros Hl. destruct j as [|j].
    + simpl in Ha. injection Ha as ->. rewrite Nat.add_0_r in Hp.
      rewrite (Hkeep args (S i) p p1 parsed' Hu); [| |  |exact Hl].
      * unfold bind_positional in Hb. rewrite Hp in Hb. injection Hb as <-.
        apply dict_get_set_eq.
      * apply nth_error_In in Hp. exact Hp.
      * intros k Hk. exfalso.
        assert (S i + k = i)%nat; [|lia].
        apply (proj1 (NoDup_nth_error (standard_args sig))
                 (proj1 (NoDup_ListNoDup _) Hnd)).
        -- apply nth_error_Some. congruence.
        -- congruence.
    + simpl in Ha. apply (IH (S i) j p1); auto.
      rewrite <- Hp. f_equal. lia.
Qed.

(** ** Positional values and the same values passed by name *)

Lemma skipn_nth_error {A} (l : list A) : forall i x,
  nth_error l i = Some x -> skipn i l = x :: skipn (S i) l.
Proof.
  induction l as [|y l IH]; intros [|i] x; simpl; try discriminate.
  - intros [= ->]. reflexivity.
  - intros H. rewrite (IH i x H). reflexivity.
Qed.

Lemma positional_as_named sig args : forall i parsed_args,
  (i + length args <= length (standard_args sig))%nat ->
  positional_loop sig i args parsed_args
  = named_loop sig (combine (skipn i (standard_args sig)) args) parsed_args.
Proof.
  induction args as [|a args IH]; intros i parsed Hlen; simpl.
  - destruct (skipn i (standard_args sig)); reflexivity.
  - simpl in Hlen.
    destruct (nth_error (standard_args sig) i) as [p|] eqn:Hp.
    2:{ apply nth_error_None in Hp. lia. }
    rewrite (skipn_nth_error _ _ _ Hp). simpl.
    unfold bind_positional, bind_named. rewrite Hp.
    assert (Hin : str_in p (allowed_kwargs sig) = true).
    { apply str_in_true. apply standard_allowed. eapply nth_error_In. exact Hp. }
    rewrite Hin. simpl. apply IH. lia.
Qed.

(** Values for the leading ordinary parameters give the same map whether
    they are passed by position, or by name in the order of declaration. *)
Lemma get_args_positional_named sig values :
  (length values <= length (standard_args sig))%nat ->
  get_args sig values []
  = get_args sig [] (combine (standard_args sig) values).
Proof.
  intros Hlen. unfold get_args. cbv zeta.
  destruct values as [|a values].
  - destruct (standard_args sig) as [|p l]; simpl;
      destruct (nonempty (variable_args sig)); reflexivity.
  - destruct (standard_args sig) as [|p l] eqn:Hs; [simpl in Hlen; lia|].
    cbn [nonempty orb combine].
    rewrite (positional_as_named sig (a :: values) 0) by (rewrite Hs; simpl in *; lia).
    rewrite Hs. cbn [skipn combine positional_loop rbind].
    destruct (named_loop sig ((p, a) :: combine l values) []); reflexivity.
Qed.

End NormalizerFacts.

(* ===================================================================== *)
(** * The script: write, index bookkeeping, eviction *)
(* ===================================================================== *)

Section ScriptFacts.

Local Open Scope Z_scope.

(** The expiry falls in the millisecond after [ttl] seconds have passed. *)
Lemma expiry_bounds t ttl :
  t + ttl * 1000000 < expiry t ttl <= t + ttl * 1000000 + 1000.
Proof.
  unfold expiry. pose proof (Z.div_mod t 1000 ltac:(lia)) as Hd.
  pose proof (Z.mod_pos_bound t 1000 ltac:(lia)) as Hm.
  generalize dependent (t / 1000). generalize dependent (t mod 1000).
  intros r Hr q Hq. lia.
Qed.

Lemma written_live v ttl s : live (now s) (written v ttl s) = true.
Proof.
  unfold live, written. simpl. destruct (ttl >? 0) eqn:E; [|reflexivity].
  apply Z.ltb_lt. apply Z.gtb_lt in E.
  pose proof (expiry_bounds (now s) ttl). lia.
Qed.

(** The first step of the script. *)
Lemma write_step k v ttl s :
  (if ttl >? 0 then setex k ttl v else set k v) s
  = (Ok tt, {| db := <[k := written v ttl s]> (db s);
               now := now s;
               log := log s ++ [write_command k v ttl] |}).
Proof.
  unfold written, write_command. destruct (ttl >? 0) eqn:E.
  - unfold setex. apply Z.gtb_lt in E.
    destruct (ttl <=? 0) eqn:E'; [apply Z.leb_le in E'; lia|]. reflexivity.
  - reflexivity.
Qed.

(** ** Sorted-set operations *)

Lemma zinsert_length x z : length (zinsert x z) = S (length z).
Proof.
  induction z as [|y z IH]; simpl; [reflexivity|].
  destruct (zleb x y); simpl; [reflexivity | rewrite IH; reflexivity].
Qed.

Lemma zinsert_members x z k :
  In k (map fst (zinsert x z)) <-> k = fst x \/ In k (map fst z).
Proof.
  induction z as [|y z IH]; simpl.
  - intuition congruence.
  - destruct (zleb x y); simpl; [intuition congruence|].
    rewrite IH. intuition congruence.
Qed.

Lemma zremove_length ms z : (length (zremove ms z) <= length z)%nat.
Proof. apply filter_length_le. Qed.

Lemma zremove_members ms z k :
  In k (map fst (zremove ms z)) -> In k (map fst z) /\ ~ In k ms.
Proof.
  unfold zremove. rewrite !in_map_iff. intros (p & <- & Hp).
  apply filter_In in Hp as [Hin Hb]. split; [eauto|].
  intros Hms. apply str_in_true in Hms. cbv beta in Hb.
  rewrite Hms in Hb. discriminate.
Qed.

Lemma skipn_In {A} (n : nat) (l : list A) x : In x (skipn n l) -> In x l.
Proof.
  intros H. rewrite <- (firstn_skipn n l). apply in_or_app. right. exact H.
Qed.

Lemma lua_stride2_flat_reply z :
  omap bulk_key (lua_stride2 (flat_reply z)) = map fst z.
Proof.
  induction z as [|p z IH]; simpl; [reflexivity|]. f_equal. exact IH.
Qed.

(** ** What a command sees through [lookup] *)

Lemma lookup_db k s e : lookup k s = Some e -> db s !! k = Some e.
Proof.
  unfold lookup. destruct (db s !! k) as [e'|]; [|discriminate].
  destruct (live (now s) e'); [congruence | discriminate].
Qed.

Lemma lookup_live k s e : lookup k s = Some e -> live (now s) e = true.
Proof.
  unfold lookup. destruct (db s !! k) as [e'|]; [|discriminate].
  destruct (live (now s) e') eqn:E; [congruence | discriminate].
Qed.

Lemma lookup_same k s s' :
  now s' = now s -> db s' !! k = db s !! k -> lookup k s' = lookup k s.
Proof. unfold lookup. intros -> ->. reflexivity. Qed.

Lemma store_zset_other k z ex d k' :
  k' <> k -> store_zset k z ex d !! k' = d !! k'.
Proof.
  intros Hne. unfold store_zset. destruct z.
  - apply lookup_delete_ne. congruence.
  - apply lookup_insert_ne. congruence.
Qed.

Lemma index_members_stored k z ex s s' :
  now s' = now s -> db s' = store_zset k z ex (db s) ->
  live (now s) {| payload := RZset z; expire_at := ex |} = true ->
  index_members k s' = map fst z.
Proof.
  intros Hnow Hdb Hlive. unfold index_members, lookup. rewrite Hdb, Hnow.
  unfold store_zset. destruct z as [|p z].
  - rewrite lookup_delete_eq. reflexivity.
  - rewrite lookup_insert_eq. rewrite Hlive. reflexivity.
Qed.

Lemma index_members_lookup k s :
  index_members k s
  = match lookup k s with
    | Some e => match payload e with RZset z => map fst z | RString _ => [] end
    | None => []
    end.
Proof.
  unfold index_members. destruct (lookup k s) as [[[v|z] ex]|]; reflexivity.
Qed.

Lemma foldr_delete_in (ks : list key) (d : gmap str entry) k :
  In k ks -> foldr delete d ks !! k = None.
Proof.
  induction ks as [|a ks IH]; simpl; [tauto|]. intros Hin.
  destruct (decide (a = k)) as [->|Hne].
  - apply lookup_delete_eq.
  - rewrite lookup_delete_ne by exact Hne. apply IH. tauto.
Qed.

Lemma foldr_delete_notin (ks : list key) (d : gmap str entry) k :
  ~ In k ks -> foldr delete d ks !! k = d !! k.
Proof.
  induction ks as [|a ks IH]; simpl; [reflexivity|]. intros Hin.
  rewrite lookup_delete_ne by tauto. apply IH. tauto.
Qed.

Lemma foldr_delete_fade (ks : list key) (d : gmap str entry) k :
  foldr delete d ks !! k = d !! k \/ foldr delete d ks !! k = None.
Proof.
  induction ks as [|a ks IH]; simpl; [left; reflexivity|].
  destruct (decide (a = k)) as [->|Hne].
  - right. apply lookup_delete_eq.
  - rewrite lookup_delete_ne by exact Hne. exact IH.
Qed.

(** ** The index and the entries it refers to *)

Lemma index_members_same k s s' :
  now s' = now s -> db s' !! k = db s !! k ->
  index_members k s' = index_members k s.
Proof.
  intros Hn Hd. unfold index_members. rewrite (lookup_same k s s' Hn Hd).
  reflexivity.
Qed.

Lemma index_members_fade k s s' :
  now s' = now s -> (db s' !! k = db s !! k \/ db s' !! k = None) ->
  index_members k s' = index_members k s \/ index_members k s' = [].
Proof.
  intros Hn [Hd|Hd].
  - left. apply index_members_same; assumption.
  - right. unfold index_members, lookup. rewrite Hd. reflexivity.
Qed.

Section Refs.

Variable P : entry -> Prop.
Hypothesis P_entry : forall e, P e -> is_entry e.
Variable idx : key.

Lemma refs_not_index s m :
  refs P idx s -> In m (index_members idx s) -> m <> idx.
Proof.
  intros Hr Hin ->. destruct (Hr idx Hin) as (e & He & HP).
  apply P_entry in HP as [v Hv].
  rewrite index_members_lookup in Hin.
  destruct (lookup idx s) as [e'|] eqn:Hl; [|destruct Hin].
  apply lookup_db in Hl. rewrite Hl in He. injection He as ->.
  rewrite Hv in Hin. destruct Hin.
Qed.

Lemma refs_transfer s s' :
  refs P idx s ->
  (forall m, In m (index_members idx s') ->
     In m (index_members idx s) /\ (m <> idx -> db s' !! m = db s !! m)) ->
  refs P idx s'.
Proof.
  intros Hr Hm m Hin. destruct (Hm m Hin) as [Hin0 Hdb].
  rewrite Hdb by (eapply refs_not_index; eassumption).
  apply Hr. exact Hin0.
Qed.

Lemma refs_same s s' :
  now s' = now s -> db s' = db s -> refs P idx s -> refs P idx s'.
Proof.
  intros Hn Hd Hr. apply (refs_transfer s s' Hr). intros m Hin.
  rewrite (index_members_same idx s s') in Hin by (rewrite ?Hd; auto).
  split; [exact Hin | intros _; rewrite Hd; reflexivity].
Qed.

Lemma zadd_post sc K1 E s r s' :
  zadd idx sc K1 s = (r, s') ->
  refs P idx s -> db s !! K1 = Some E -> P E -> live (now s) E = true ->
  now s' = now s /\ refs P idx s'
  /\ (forall k, k <> idx -> db s' !! k = db s !! k).
Proof.
  intros Hz Hr HK HP HL. unfold zadd in Hz.
  change (lookup idx (logged (ZADD idx sc K1) s)) with (lookup idx s) in Hz.
  assert (HKl : lookup K1 s = Some E) by (unfold lookup; rewrite HK, HL; reflexivity).
  destruct (lookup idx s) as [e|] eqn:Hl.
  - destruct (payload e) as [v|z] eqn:Hp.
    + injection Hz as <- <-. simpl. split; [reflexivity|]. split; [|reflexivity].
      apply (refs_same s); auto.
    + injection Hz as <- <-. simpl.
      assert (Hne : K1 <> idx).
      { intros ->. rewrite Hl in HKl. injection HKl as ->.
        apply P_entry in HP as [v Hv]. congruence. }
      split; [reflexivity|]. split; [|intros k Hk; apply store_zset_other; exact Hk].
      intros m Hin.
      erewrite (index_members_stored idx _ _ s) in Hin; [|reflexivity|reflexivity|].
      2:{ apply lookup_live in Hl. exact Hl. }
      simpl. apply zinsert_members in Hin. simpl in Hin.
      destruct Hin as [->|Hin].
      * rewrite store_zset_other by exact Hne. eauto.
      * apply zremove_members in Hin as [Hin _].
        assert (Hin' : In m (index_members idx s)).
        { rewrite index_members_lookup, Hl, Hp. exact Hin. }
        rewrite store_zset_other by (eapply refs_not_index; eassumption).
        apply Hr. exact Hin'.
  - injection Hz as <- <-. simpl.
    assert (Hne : K1 <> idx) by (intros ->; congruence).
    split; [reflexivity|]. split; [|intros k Hk; apply lookup_insert_ne; congruence].
    intros m Hin.
    erewrite (index_members_stored idx [(K1, sc)] None s) in Hin;
      [|reflexivity|reflexivity|reflexivity].
    simpl in Hin. destruct Hin as [<-|[]].
    simpl. rewrite lookup_insert_ne by congruence. eauto.
Qed.

Lemma zcount_post s r s' :
  zcount idx s = (r, s') ->
  now s' = now s /\ db s' = db s
  /\ (forall n, r = Ok n -> n = Z.of_nat (length (index_members idx s))).
Proof.
  unfold zcount.
  change (lookup idx (logged (ZCOUNT idx) s)) with (lookup idx s).
  rewrite index_members_lookup.
  destruct (lookup idx s) as [e|]; [destruct (payload e)|];
    intros [= <- <-]; simpl; repeat split; try reflexivity; intros n [= <-];
    rewrite ?length_map; reflexivity.
Qed.

Lemma zpopmin_post n s r s' :
  zpopmin idx n s = (r, s') ->
  now s' = now s
  /\ (forall k, k <> idx -> db s' !! k = db s !! k)
  /\ match r with
     | Ok reply =>
         index_members idx s' = skipn (Z.to_nat n) (index_members idx s)
         /\ omap bulk_key (lua_stride2 reply)
            = firstn (Z.to_nat n) (index_members idx s)
     | Raise _ => db s' = db s
     end.
Proof.
  unfold zpopmin.
  change (lookup idx (logged (ZPOPMIN idx n) s)) with (lookup idx s).
  rewrite (index_members_lookup idx s).
  destruct (n <? 0); [intros [= <- <-]; simpl; auto|].
  destruct (lookup idx s) as [e|] eqn:Hl.
  - destruct (payload e) as [v|z] eqn:Hp; intros [= <- <-]; simpl; [auto|].
    split; [reflexivity|]. split; [intros k Hk; apply store_zset_other; exact Hk|].
    split.
    + erewrite (index_members_stored idx _ _ s); [|reflexivity|reflexivity|].
      * symmetry. apply skipn_map.
      * apply lookup_live in Hl. exact Hl.
    + rewrite lua_stride2_flat_reply. symmetry. apply firstn_map.
  - intros [= <- <-]. simpl. split; [reflexivity|]. split; [reflexivity|].
    split; [|rewrite firstn_nil; reflexivity].
    rewrite skipn_nil. unfold index_members.
    change (lookup idx (logged (ZPOPMIN idx n) s)) with (lookup idx s).
    rewrite Hl. reflexivity.
Qed.

Lemma zrem_post ms s r s' :
  zrem idx ms s = (r, s') ->
  now s' = now s
  /\ (forall k, k <> idx -> db s' !! k = db s !! k)
  /\ (forall m, In m (index_members idx s') -> In m (index_members idx s))
  /\ (length (index_members idx s') <= length (index_members idx s))%nat
  /\ match r with
     | Ok _ => forall m, In m (index_members idx s') -> ~ In m ms
     | Raise _ => db s' = db s
     end.
Proof.
  unfold zrem.
  change (lookup idx (logged (ZREM idx ms) s)) with (lookup idx s).
  assert (Hsame : forall c, index_members idx (logged c s) = index_members idx s)
    by reflexivity.
  destruct ms as [|m0 ms].
  { intros [= <- <-]. rewrite Hsame. simpl. auto. }
  destruct (lookup idx s) as [e|] eqn:Hl.
  - destruct (payload e) as [v|z] eqn:Hp; intros [= <- <-].
    { rewrite Hsame. simpl. auto. }
    assert (Hmem : index_members idx
                     (with_db (logged (ZREM idx (m0 :: ms)) s)
                        (store_zset idx (zremove (m0 :: ms) z) (expire_at e)
                           (db s)))
                   = map fst (zremove (m0 :: ms) z)).
    { eapply (index_members_stored idx _ _ s); [reflexivity|reflexivity|].
      apply lookup_live in Hl. exact Hl. }
    rewrite Hmem, (index_members_lookup idx s), Hl, Hp.
    split; [reflexivity|]. split; [intros k Hk; apply store_zset_other; exact Hk|].
    split; [intros m Hm; apply zremove_members in Hm; tauto|].
    split; [rewrite !length_map; apply zremove_length|].
    intros m Hm. apply zremove_members in Hm. tauto.
  - intros [= <- <-]. rewrite Hsame. simpl.
    repeat split; auto. intros m Hm.
    rewrite index_members_lookup, Hl in Hm. destruct Hm.
Qed.

Lemma del_post ks s r s' :
  del ks s = (r, s') ->
  now s' = now s
  /\ (forall k, ~ In k ks -> db s' !! k = db s !! k)
  /\ (forall k, db s' !! k = db s !! k \/ db s' !! k = None).
Proof.
  unfold del. destruct ks as [|k0 ks]; intros [= <- <-].
  - simpl. auto.
  - split; [reflexivity|]. split.
    + intros k Hk. apply (foldr_delete_notin (k0 :: ks) (db s) k Hk).
    + intros k. apply (foldr_delete_fade (k0 :: ks) (db s) k).
Qed.

Lemma time_step s :
  time s = (Ok (now s / 1000000, now s mod 1000000), logged TIME s).
Proof. reflexivity. Qed.

Lemma refs_del s ks r s' :
  del ks s = (r, s') -> refs P idx s ->
  (forall m, In m (index_members idx s) -> ~ In m ks) ->
  now s' = now s /\ refs P idx s'
  /\ (length (index_members idx s') <= length (index_members idx s))%nat.
Proof.
  intros Hd Hr Hms. apply del_post in Hd as (Hn & Hkeep & Hfade).
  split; [exact Hn|].
  destruct (index_members_fade idx s s' Hn (Hfade idx)) as [E|E]; rewrite E.
  - split; [|lia]. intros m Hm. rewrite E in Hm.
    rewrite Hkeep by (apply Hms; exact Hm). apply Hr. exact Hm.
  - split; [intros m Hm; rewrite E in Hm; destruct Hm | simpl; lia].
Qed.

(** The write keeps the invariant when the entry it writes satisfies [P]. *)
Lemma refs_write K1 E s s' :
  now s' = now s -> db s' = <[K1 := E]> (db s) -> live (now s) E = true ->
  P E -> refs P idx s -> refs P idx s'.
Proof.
  intros Hn Hd HL HP Hr m Hm. rewrite Hd.
  destruct (decide (K1 = m)) as [->|Hne].
  - rewrite lookup_insert_eq. eauto.
  - rewrite lookup_insert_ne by exact Hne. apply Hr.
    destruct (decide (K1 = idx)) as [->|Hni].
    + exfalso. rewrite index_members_lookup in Hm. unfold lookup in Hm.
      rewrite Hd, lookup_insert_eq, Hn, HL in Hm.
      apply P_entry in HP as [v Hv]. rewrite Hv in Hm. destruct Hm.
    + rewrite (index_members_same idx s s') in Hm; auto.
      rewrite Hd. apply lookup_insert_ne. exact Hni.
Qed.

(** One run of the script, from a state where the index refers to entries
    only: it still does afterwards, and a run that completes under a
    positive limit leaves at most that many members. *)
Lemma script_post K1 v ttl L s r s' :
  cache_lua_fn K1 idx v ttl L s = (r, s') ->
  refs P idx s -> P (written v ttl s) ->
  now s' = now s /\ refs P idx s'
  /\ (0 < L -> r = Ok tt ->
      (length (index_members idx s') <= Z.to_nat L)%nat).
Proof.
  intros H Hr HP. unfold cache_lua_fn, bind in H. rewrite write_step in H.
  match type of H with
  | context [{| db := ?d; now := ?n; log := ?l |}] =>
      set (s1 := {| db := d; now := n; log := l |}) in *
  end.
  assert (Hn1 : now s1 = now s) by reflexivity.
  assert (Hr1 : refs P idx s1).
  { apply (refs_write K1 (written v ttl s) s s1); auto. apply written_live. }
  assert (HK1 : db s1 !! K1 = Some (written v ttl s))
    by (apply lookup_insert_eq).
  destruct (L >? 0) eqn:HL.
  2:{ injection H as <- <-. split; [exact Hn1|]. split; [exact Hr1|].
      intros HL'. rewrite Z.gtb_ltb in HL. apply Z.ltb_ge in HL. lia. }
  rewrite time_step in H.
  match type of H with
  | context [zadd idx ?sc K1 ?st] =>
      destruct (zadd idx sc K1 st) as [r3 s3] eqn:H3
  end.
  apply (zadd_post _ K1 (written v ttl s)) in H3 as (Hn3 & Hr3 & _);
    [| apply (refs_same s1); auto | exact HK1 | exact HP
     | exact (written_live v ttl s)].
  simpl in Hn3.
  destruct r3 as [added|e]; [|injection H as <- <-; split; [lia|]; split; [exact Hr3 | discriminate]].
  destruct (zcount idx s3) as [r4 s4] eqn:H4.
  apply zcount_post in H4 as (Hn4 & Hd4 & Hc4).
  assert (Hm4 : index_members idx s4 = index_members idx s3)
    by (apply index_members_same; [exact Hn4 | rewrite Hd4; reflexivity]).
  assert (Hr4 : refs P idx s4) by (apply (refs_same s3); auto).
  destruct r4 as [count|e]; [|injection H as <- <-; split; [lia|]; split; [exact Hr4 | discriminate]].
  specialize (Hc4 count eq_refl).
  destruct (count - L >? 0) eqn:Hover.
  2:{ injection H as <- <-. split; [lia|]. split; [exact Hr4|].
      intros _ _. rewrite Hm4. rewrite Z.gtb_ltb in Hover.
      apply Z.ltb_ge in Hover. lia. }
  apply Z.gtb_lt in Hover.
  destruct (zpopmin idx (count - L) s4) as [r5 s5] eqn:H5.
  apply zpopmin_post in H5 as (Hn5 & Hf5 & H5).
  destruct r5 as [reply|e].
  2:{ injection H as <- <-. split; [lia|]. split; [|discriminate].
      apply (refs_same s4); auto. }
  destruct H5 as [Hm5 Hstale].
  assert (Hr5 : refs P idx s5).
  { apply (refs_transfer s4); [exact Hr4|]. intros m Hm. rewrite Hm5 in Hm.
    split; [|apply Hf5]. revert Hm. apply skipn_In. }
  assert (Hl5 : (length (index_members idx s5) <= Z.to_nat L)%nat).
  { rewrite Hm5, length_skipn, Hm4. lia. }
  rewrite Hstale in H.
  match type of H with
  | context [zrem idx ?ms s5] =>
      set (stale := ms) in *; destruct (zrem idx stale s5) as [r6 s6] eqn:H6
  end.
  apply zrem_post in H6 as (Hn6 & Hf6 & Hi6 & Hl6 & H6).
  assert (Hr6 : refs P idx s6).
  { apply (refs_transfer s5); [exact Hr5|]. intros m Hm. split; [auto|apply Hf6]. }
  destruct r6 as [removed|e]; [|injection H as <- <-; split; [lia|]; split; [exact Hr6 | discriminate]].
  destruct (del stale s6) as [r7 s7] eqn:H7.
  apply (refs_del s6) in H7 as (Hn7 & Hr7 & Hl7); [|exact Hr6|exact H6].
  destruct r7; injection H as <- <-; (split; [lia|]); (split; [exact Hr7|]);
    [intros _ _; lia | discriminate].
Qed.

End Refs.

(** ** What a run does at the entry key *)

Lemma fades_refl k s : fades k s s.
Proof.
  split; [reflexivity|]. split; [exists []; rewrite app_nil_r; reflexivity|].
  left. reflexivity.
Qed.

Lemma fades_trans k s1 s2 s3 : fades k s1 s2 -> fades k s2 s3 -> fades k s1 s3.
Proof.
  intros (Hn1 & [l1 Hl1] & Hd1) (Hn2 & [l2 Hl2] & Hd2).
  split; [congruence|]. split.
  - exists (l1 ++ l2). rewrite Hl2, Hl1, app_assoc. reflexivity.
  - destruct Hd2 as [Hd2|Hd2]; [rewrite Hd2; exact Hd1 | right; exact Hd2].
Qed.

Lemma fades_logged k c s : fades k s (logged c s).
Proof.
  split; [reflexivity|]. split; [exists [c]; reflexivity | left; reflexivity].
Qed.

Lemma fades_store k idx z ex c s :
  k <> idx ->
  fades k s (with_db (logged c s) (store_zset idx z ex (db (logged c s)))).
Proof.
  intros Hne. split; [reflexivity|]. split; [exists [c]; reflexivity|].
  left. exact (store_zset_other idx z ex (db s) k Hne).
Qed.

Lemma zadd_fades k idx sc m s : k <> idx -> fades k s (snd (zadd idx sc m s)).
Proof.
  intros Hne. unfold zadd.
  change (lookup idx (logged (ZADD idx sc m) s)) with (lookup idx s).
  destruct (lookup idx s) as [e|]; [destruct (payload e)|]; cbn [snd];
    first [apply fades_logged | apply (fades_store k idx); exact Hne].
Qed.

Lemma zcount_fades k idx s : fades k s (snd (zcount idx s)).
Proof.
  unfold zcount.
  change (lookup idx (logged (ZCOUNT idx) s)) with (lookup idx s).
  destruct (lookup idx s) as [e|]; [destruct (payload e)|]; apply fades_logged.
Qed.

Lemma zpopmin_fades k idx n s : k <> idx -> fades k s (snd (zpopmin idx n s)).
Proof.
  intros Hne. unfold zpopmin.
  change (lookup idx (logged (ZPOPMIN idx n) s)) with (lookup idx s).
  destruct (n <? 0); [apply fades_logged|].
  destruct (lookup idx s) as [e|]; [destruct (payload e)|]; cbn [snd];
    first [apply fades_logged | apply (fades_store k idx); exact Hne].
Qed.

Lemma zrem_fades k idx ms s : k <> idx -> fades k s (snd (zrem idx ms s)).
Proof.
  intros Hne. unfold zrem.
  change (lookup idx (logged (ZREM idx ms) s)) with (lookup idx s).
  destruct ms; [apply fades_logged|].
  destruct (lookup idx s) as [e|]; [destruct (payload e)|]; cbn [snd];
    first [apply fades_logged | apply (fades_store k idx); exact Hne].
Qed.

Lemma del_fades k ks s : fades k s (snd (del ks s)).
Proof.
  unfold del. destruct ks as [|k0 ks]; [apply fades_logged|].
  split; [reflexivity|]. split; [exists [DEL (k0 :: ks)]; reflexivity|].
  apply (foldr_delete_fade (k0 :: ks) (db s) k).
Qed.

Lemma zadd_on_entry idx sc m s e :
  lookup idx s = Some e -> is_entry e ->
  zadd idx sc m s = (Raise ResponseError, logged (ZADD idx sc m) s).
Proof.
  intros Hl [v Hv]. unfold zadd.
  change (lookup idx (logged (ZADD idx sc m) s)) with (lookup idx s).
  rewrite Hl, Hv. reflexivity.
Qed.

(** The part of the script that follows the write either leaves the entry
    key alone or, when the key is among the evicted, removes it. *)
Lemma script_entry_fate K1 K2 v ttl L s :
  let s1 := {| db := <[K1 := written v ttl s]> (db s);
               now := now s;
               log := log s ++ [write_command K1 v ttl] |} in
  fades K1 s1 (snd (cache_lua_fn K1 K2 v ttl L s)).
Proof.
  intros s1. unfold cache_lua_fn, bind. rewrite write_step. fold s1.
  destruct (L >? 0); [|apply fades_refl].
  rewrite time_step.
  assert (Hl1 : lookup K1 (logged TIME s1) = Some (written v ttl s)).
  { unfold lookup. simpl. rewrite lookup_insert_eq.
    rewrite (written_live v ttl s). reflexivity. }
  destruct (decide (K1 = K2)) as [<-|Hne].
  { erewrite zadd_on_entry; [|exact Hl1|eexists; reflexivity].
    simpl. eapply fades_trans; apply fades_logged. }
  match goal with
  | |- context [zadd K2 ?sc K1 ?st] =>
      pose proof (zadd_fades K1 K2 sc K1 st Hne) as F3;
      destruct (zadd K2 sc K1 st) as [r3 s3]
  end.
  simpl in F3.
  assert (F3' : fades K1 s1 s3)
    by (eapply fades_trans; [apply (fades_logged K1 TIME)|exact F3]).
  destruct r3; [|exact F3'].
  pose proof (zcount_fades K1 K2 s3) as F4.
  destruct (zcount K2 s3) as [r4 s4]. simpl in F4.
  assert (F4' : fades K1 s1 s4) by (eapply fades_trans; eassumption).
  destruct r4 as [count|]; [|exact F4'].
  destruct (count - L >? 0); [|exact F4'].
  pose proof (zpopmin_fades K1 K2 (count - L) s4 Hne) as F5.
  destruct (zpopmin K2 (count - L) s4) as [r5 s5]. simpl in F5.
  assert (F5' : fades K1 s1 s5) by (eapply fades_trans; eassumption).
  destruct r5 as [reply|]; [|exact F5'].
  pose proof (zrem_fades K1 K2 (omap bulk_key (lua_stride2 reply)) s5 Hne) as F6.
  destruct (zrem K2 (omap bulk_key (lua_stride2 reply)) s5) as [r6 s6]. simpl in F6.
  assert (F6' : fades K1 s1 s6) by (eapply fades_trans; eassumption).
  destruct r6; [|exact F6'].
  pose proof (del_fades K1 (omap bulk_key (lua_stride2 reply)) s6) as F7.
  destruct (del (omap bulk_key (lua_stride2 reply)) s6) as [r7 s7]. simpl in F7.
  assert (F7' : fades K1 s1 s7) by (eapply fades_trans; eassumption).
  destruct r7; exact F7'.
Qed.

(** ** Sequences of runs under one namespace *)

Lemma refs_advance P idx dt s :
  (forall e, P e -> is_entry e) ->
  refs P idx s -> refs P idx (advance dt s).
Proof.
  intros HP Hr. apply (refs_transfer P HP idx s); [exact Hr|].
  intros m Hm. split; [|reflexivity].
  rewrite index_members_lookup in *. unfold lookup in *. simpl in Hm.
  destruct (db s !! idx) as [e|]; [|destruct Hm].
  destruct (live (now s + Z.of_N dt) e) eqn:E; [|destruct Hm].
  assert (E' : live (now s) e = true).
  { unfold live in *. destruct (expire_at e); [|reflexivity].
    apply Z.ltb_lt in E. apply Z.ltb_lt. lia. }
  rewrite E'. exact Hm.
Qed.

Lemma execute_post P idx L e s :
  (forall e, P e -> is_entry e) ->
  (forall s0, P (written (e_value e) (e_ttl e) s0)) ->
  refs P idx s ->
  refs P idx (snd (execute idx L e s))
  /\ (0 < L -> fst (execute idx L e s) = Ok tt ->
      (length (index_members idx (snd (execute idx L e s))) <= Z.to_nat L)%nat).
Proof.
  intros HP Hw Hr. unfold execute.
  destruct (cache_lua_fn (e_key e) idx (e_value e) (e_ttl e) L
              (advance (e_wait e) s)) as [r s'] eqn:H.
  apply (script_post P HP) in H as (_ & Hr' & Hb);
    [| apply refs_advance; assumption | apply Hw].
  simpl. split; [exact Hr' | exact Hb].
Qed.

Lemma run_refs P idx L es : forall s,
  (forall e, P e -> is_entry e) ->
  Forall (fun e => forall s0, P (written (e_value e) (e_ttl e) s0)) es ->
  refs P idx s -> refs P idx (run idx L es s).
Proof.
  induction es as [|e es IH]; intros s HP Hes Hr; simpl; [exact Hr|].
  apply Forall_cons in Hes as [He Hes].
  apply IH; [exact HP | exact Hes |].
  apply execute_post; assumption.
Qed.

Lemma written_entry v ttl s : is_entry (written v ttl s).
Proof. exists v. reflexivity. Qed.

Lemma written_persistent v ttl s : ttl <= 0 -> is_persistent (written v ttl s).
Proof.
  intros H. split; [apply written_entry|]. unfold written. simpl.
  destruct (ttl >? 0) eqn:E; [apply Z.gtb_lt in E; lia | reflexivity].
Qed.

Lemma persistent_exists idx s :
  refs is_persistent idx s -> index_backed idx s.
Proof.
  intros Hr m Hm. destruct (Hr m Hm) as (e & He & [v Hv] & Hex).
  unfold entry_exists, lookup. rewrite He. unfold live. rewrite Hex.
  destruct e as [p ex]. simpl in Hv. subst p. reflexivity.
Qed.

Lemma entries_backed_unless_expired idx s :
  refs is_entry idx s -> backed_unless_expired idx s.
Proof.
  intros Hr m Hm. destruct (Hr m Hm) as (e & He & [v Hv]).
  destruct (live (now s) e) eqn:Hl.
  - left. unfold entry_exists, lookup. rewrite He, Hl.
    destruct e as [pl ex]. simpl in Hv. subst pl. reflexivity.
  - right. unfold live in Hl. destruct (expire_at e) as [t|] eqn:Hx; [|discriminate].
    exists e, t. apply Z.ltb_ge in Hl. repeat split; try assumption.
    exists v. exact Hv.
Qed.

(** C2, as the code has it.  Start from a state whose index refers to
    entries only (the empty store, say) and run any sequence of executions
    under one index key with limit [L > 0].  After each execution that
    completes, the index holds at most [L] members and every key it refers to
    holds an entry, which exists unless its expiry time has passed.  When no
    execution sets an expiry ([ttl <= 0] throughout) and the entries referred
    to at the start have none, every key the index refers to exists in the
    store. *)
Theorem index_bounded_and_backed idx L es e s0 :
  0 < L ->
  refs is_entry idx s0 ->
  let s := run idx L es s0 in
  let s' := snd (execute idx L e s) in
  fst (execute idx L e s) = Ok tt ->
  (length (index_members idx s') <= Z.to_nat L)%nat
  /\ backed_unless_expired idx s'
  /\ (refs is_persistent idx s0 ->
      Forall (fun x => e_ttl x <= 0) (es ++ [e]) ->
      index_backed idx s').
Proof.
  intros HL Hr0 s s' Hok.
  assert (He : forall P, (forall x, P x -> is_entry x) ->
             Forall (fun x => forall s0, P (written (e_value x) (e_ttl x) s0)) (es ++ [e]) ->
             refs P idx s0 -> refs P idx s'
             /\ (length (index_members idx s') <= Z.to_nat L)%nat).
  { intros P HP Hall HrP. apply Forall_app in Hall as [Hes He1].
    apply Forall_cons in He1 as [He1 _].
    destruct (execute_post P idx L e s HP He1) as [Hr' Hb].
    - apply run_refs; assumption.
    - split; [exact Hr' | apply Hb; assumption]. }
  split; [|split].
  - apply (He is_entry); [auto | | exact Hr0].
    apply Forall_forall. intros x _ s1. apply written_entry.
  - apply entries_backed_unless_expired.
    apply (He is_entry); [auto | | exact Hr0].
    apply Forall_forall. intros x _ s1. apply written_entry.
  - intros Hp Httl. apply persistent_exists.
    apply (He is_persistent); [intros x [Hx _]; exact Hx | | exact Hp].
    eapply List.Forall_impl; [|exact Httl].
    intros x Hx s1. apply written_persistent. exact Hx.
Qed.

End ScriptFacts.

(* ===================================================================== *)
(** * The single-call façade: [inner] *)
(* ===================================================================== *)

Section Facade.

Variable self : CacheDecorator.
Variable fn : function.
Variables (args : list value) (kwargs : dict).

Lemma inner_unfold key w :
  get_key self args kwargs = Ok key ->
  inner self fn args kwargs w
  = match round_trip (get key) w with
    | (Raise e, w) =>
        if fallback_exceptions self e then call_fn fn args kwargs w
        else (Raise e, w)
    | (Ok result, w) =>
        (if negb (truthy result) then
           bind (call_fn fn args kwargs) (fun result =>
           bind (lift (serializer self result)) (fun result_serialized =>
           bind (run_script key (keys_key self) result_serialized
                            (ttl self) (limit self)) (fun _ =>
           ret result)))
         else
           match result with
           | Some result => lift (deserializer self result)
           | None => lift (Raise TypeError)
           end) w
    end.
Proof. intros H. unfold inner, bind at 1, lift at 1. rewrite H. reflexivity. Qed.

(** A read changes nothing in the key space and adds at most itself to the
    server log. *)
Lemma read_only key w :
  let w' := snd (round_trip (get key) w) in
  db (srv w') = db (srv w) /\ now (srv w') = now (srv w)
  /\ calls w' = calls w
  /\ (log (srv w') = log (srv w) \/ log (srv w') = log (srv w) ++ [GET key]).
Proof.
  unfold round_trip, get.
  destruct (faults w) as [|[e|] rest]; simpl;
    change (lookup key (logged (GET key) (srv w))) with (lookup key (srv w));
    try (destruct (lookup key (srv w)) as [en|]; [destruct (payload en)|]);
    simpl; auto.
Qed.

(** C6.  When the store read raises an exception of a declared fallback
    kind, [inner] calls the wrapped function once and returns what that call
    returns; the key space is as before the call, the server has seen no
    command except possibly the read itself, and no script was sent. *)
Theorem inner_fallback key e w :
  get_key self args kwargs = Ok key ->
  fst (round_trip (get key) w) = Raise e ->
  fallback_exceptions self e = true ->
  let w' := snd (inner self fn args kwargs w) in
  fst (inner self fn args kwargs w) = fn_body fn args kwargs
  /\ calls w' = calls w ++ [{| called := fn_qualname fn; call_args := args;
                               call_kwargs := kwargs |}]
  /\ db (srv w') = db (srv w)
  /\ (log (srv w') = log (srv w) \/ log (srv w') = log (srv w) ++ [GET key])
  /\ has_lua_cache_fn w' = has_lua_cache_fn w.
Proof.
  intros Hkey Hread Hfb. rewrite (inner_unfold key w Hkey).
  pose proof (read_only key w) as (Hdb & _ & Hcalls & Hlog).
  assert (Hflag : has_lua_cache_fn (snd (round_trip (get key) w)) = has_lua_cache_fn w).
  { unfold round_trip. destruct (faults w) as [|[x|] rest]; simpl;
      try destruct (get key (srv w)); reflexivity. }
  destruct (round_trip (get key) w) as [r w1]. simpl in *. subst r.
  rewrite Hfb. simpl. rewrite Hcalls. auto.
Qed.

(** A payload that is not empty is a hit: it is deserialized and returned,
    the wrapped function is not called and nothing is written. *)
Lemma inner_hit key payload w w1 :
  get_key self args kwargs = Ok key ->
  round_trip (get key) w = (Ok (Some payload), w1) ->
  payload <> [] ->
  inner self fn args kwargs w = (deserializer self payload, w1).
Proof.
  intros Hkey Hread Hne. rewrite (inner_unfold key w Hkey), Hread.
  destruct payload; [congruence | reflexivity].
Qed.

(** Absence and the empty payload both take the miss branch. *)
Lemma inner_miss key result w w1 :
  get_key self args kwargs = Ok key ->
  round_trip (get key) w = (Ok result, w1) ->
  truthy result = false ->
  inner self fn args kwargs w
  = bind (call_fn fn args kwargs) (fun result =>
    bind (lift (serializer self result)) (fun result_serialized =>
    bind (run_script key (keys_key self) result_serialized
                     (ttl self) (limit self)) (fun _ =>
    ret result))) w1.
Proof.
  intros Hkey Hread Hf. rewrite (inner_unfold key w Hkey), Hread, Hf.
  reflexivity.
Qed.

Lemma run_script_server key ser ttl0 limit0 w w2 :
  run_script key (keys_key self) ser ttl0 limit0 w = (Ok tt, w2) ->
  exists keys_key p,
    Cache.keys_key self = Some keys_key /\ wire ser = Ok p
    /\ srv w2 = snd (cache_lua_fn key keys_key p ttl0 limit0 (srv w)).
Proof.
  unfold run_script, bind, get_cache_lua_fn, lift.
  destruct (Cache.keys_key self) as [kk|]; [|discriminate].
  destruct (wire ser) as [p|]; [|discriminate].
  unfold round_trip. simpl.
  destruct (faults w) as [|[e|] rest]; try discriminate;
    destruct (cache_lua_fn key kk p ttl0 limit0 (srv w)) as [r s'] eqn:E;
    intros [= -> <-]; exists kk, p; simpl; rewrite ?E; auto.
Qed.

Lemma get_some key p' w w3 :
  round_trip (get key) w = (Ok (Some p'), w3) ->
  exists e, db (srv w) !! key = Some e /\ payload e = RString p'.
Proof.
  unfold round_trip, get.
  change (lookup key (logged (GET key) (srv w))) with (lookup key (srv w)).
  destruct (lookup key (srv w)) as [e|] eqn:Hl.
  - apply lookup_db in Hl. exists e. split; [exact Hl|].
    destruct (payload e) as [x|z]; destruct (faults w) as [|[x0|] rest];
      try discriminate; injection H as -> _; reflexivity.
  - destruct (faults w) as [|[x0|] rest]; discriminate.
Qed.

(** C10.  On a miss, [inner] returns the very value the wrapped function
    produced; what it stores is the serialized value, so a later hit on the
    same key returns the deserialized payload instead.  The two results
    differ whenever deserializing the serialized value does not give the
    value back. *)
Theorem inner_miss_returns_computed key result w w1 v ser p w2 :
  get_key self args kwargs = Ok key ->
  round_trip (get key) w = (Ok result, w1) ->
  truthy result = false ->
  fn_body fn args kwargs = Ok v ->
  serializer self v = Ok ser ->
  wire ser = Ok p ->
  run_script key (keys_key self) ser (ttl self) (limit self)
             (called_from fn args kwargs w1)
  = (Ok tt, w2) ->
  inner self fn args kwargs w = (Ok v, w2)
  /\ forall p' w3,
       round_trip (get key) w2 = (Ok (Some p'), w3) ->
       p' = p
       /\ (p <> [] -> inner self fn args kwargs w2 = (deserializer self p, w3)).
Proof.
  intros Hkey Hread Hmiss Hv Hser Hwire Hrun. split.
  - rewrite (inner_miss key result w w1 Hkey Hread Hmiss).
    unfold bind at 1. unfold called_from in Hrun.
    destruct (call_fn fn args kwargs w1) as [r wc] eqn:Hc.
    assert (r = Ok v) by (unfold call_fn in Hc; injection Hc as <- _; exact Hv).
    subst r. unfold bind at 1, lift at 1. rewrite Hser.
    unfold bind, ret. simpl in Hrun. rewrite Hrun. reflexivity.
  - intros p' w3 Hget.
    destruct (run_script_server key ser _ _ _ _ Hrun) as (kk & p0 & _ & Hw & Hsrv).
    rewrite Hwire in Hw. injection Hw as <-.
    destruct (get_some key p' w2 w3 Hget) as (e & He & Hp).
    pose proof (script_entry_fate key kk p (ttl self) (limit self)
                  (srv (called_from fn args kwargs w1))) as (_ & _ & Hfate).
    rewrite <- Hsrv in Hfate. simpl in Hfate. rewrite lookup_insert_eq in Hfate.
    assert (p' = p).
    { destruct Hfate as [Hf|Hf]; rewrite Hf in He; [|discriminate].
      injection He as <-. simpl in Hp. congruence. }
    subst p'. split; [reflexivity|]. intros Hne.
    apply (inner_hit key p w2 w3 Hkey Hget Hne).
Qed.

End Facade.

(* ===================================================================== *)
(** * The batch façade: [RedisCache.mget] *)
(* ===================================================================== *)

Section Batch.

Variable self : RedisCache.

Lemma mget_keys_length reqs : forall keys,
  mget_keys reqs = Ok keys -> length keys = length reqs.
Proof.
  induction reqs as [|r reqs IH]; simpl; intros keys.
  - intros [= <-]. reflexivity.
  - destruct (get_key (instance r) (args_of r) (kwargs_of r)); [|discriminate].
    simpl. destruct (mget_keys reqs) as [ks|]; [|discriminate].
    simpl. intros [= <-]. simpl. rewrite (IH ks eq_refl). reflexivity.
Qed.

Lemma skipn_cons_inv {A} (l : list A) : forall i x rest,
  skipn i l = x :: rest -> nth_error l i = Some x /\ skipn (S i) l = rest.
Proof.
  induction l as [|y l IH]; intros [|i] x rest; simpl; try discriminate.
  - intros [= -> ->]. auto.
  - intros H. apply (IH i x rest H).
Qed.

Lemma client_mget_read keys w results w1 :
  round_trip (Redis.mget keys) w = (Ok results, w1) ->
  client_mget keys w = (Ok results, w1).
Proof.
  destruct keys as [|k keys]; [|intros H; exact H].
  unfold round_trip. destruct (faults w) as [|[e|] rest]; discriminate.
Qed.

Lemma miss_calls_hits reqs : forall results,
  existsb is_miss results = false -> miss_calls reqs results = [].
Proof.
  induction reqs as [|r reqs IH]; intros [|[p|] results]; simpl;
    try reflexivity; try discriminate.
  apply IH.
Qed.

Lemma miss_queue_hits reqs : forall keys results,
  existsb is_miss results = false -> miss_queue self reqs keys results = [].
Proof.
  induction reqs as [|r reqs IH]; intros [|k keys] [|[p|] results]; simpl;
    try reflexivity; try discriminate.
  apply IH.
Qed.

(** The loop of [mget], when every request can be answered: it collects the
    answers in order, queues one script call per miss and calls the function
    of each miss; it sends nothing. *)
Lemma mget_loop_spec reqs keys :
  length keys = length reqs ->
  forall results i pipeline acc flag w,
    Forall2 (answerable self) (skipn i reqs) results ->
    exists vs,
      mget_loop self reqs keys i results pipeline acc flag w
      = (Ok (pipeline ++ miss_queue self (skipn i reqs) (skipn i keys) results,
             acc ++ vs, flag || existsb is_miss results),
         after_misses (skipn i reqs) results w)
      /\ Forall2 (fun rr v => answer self (fst rr) (snd rr) = Ok v)
                 (combine (skipn i reqs) results) vs
      /\ length (miss_queue self (skipn i reqs) (skipn i keys) results)
         = length (List.filter is_miss results)
      /\ length (miss_calls (skipn i reqs) results)
         = length (List.filter is_miss results).
Proof.
  intros Hlen. induction results as [|read results IH];
    intros i pipeline acc flag w Hall.
  - exists []. unfold after_misses. simpl. rewrite !app_nil_r, orb_false_r.
    assert (E : miss_queue self (skipn i reqs) (skipn i keys) [] = []).
    { destruct (skipn i reqs); [reflexivity|]. destruct (skipn i keys); reflexivity. }
    assert (E' : miss_calls (skipn i reqs) [] = [])
      by (destruct (skipn i reqs); reflexivity).
    rewrite E, E', app_nil_r. split; [reflexivity|].
    split; [destruct (skipn i reqs); constructor | auto].
  - apply Forall2_cons_inv_r in Hall as (r & rest & (v & Hv & Hs) & Hrest & Hskip).
    pose proof Hskip as Hskip0.
    apply skipn_cons_inv in Hskip as [Hi Hnext]. subst rest.
    assert (Hk : exists k, skipn i keys = k :: skipn (S i) keys).
    { destruct (nth_error keys i) as [k|] eqn:E.
      - exists k. clear -E. revert i E.
        induction keys as [|a l IHl]; intros [|i] E; simpl in *;
          try discriminate.
        + injection E as ->. reflexivity.
        + apply IHl. exact E.
      - apply nth_error_None in E.
        assert (nth_error reqs i <> None) by congruence.
        apply nth_error_Some in H. lia. }
    destruct Hk as [k Hk].
    assert (Hki : nth_error keys i = Some k).
    { apply skipn_cons_inv in Hk as [Hk _]. exact Hk. }
    rewrite Hskip0, Hk.
    destruct read as [payload|].
    + simpl in Hv.
      destruct (IH (S i) pipeline (acc ++ [v]) flag w Hrest)
        as (vs & Hloop & Hvs & Hq & Hc).
      exists (v :: vs).
      cbn [mget_loop]. unfold bind at 1, lift at 1. rewrite Hv, Hloop.
      rewrite <- app_assoc. cbn [miss_queue miss_calls existsb is_miss orb app].
      split; [reflexivity|].
      split; [constructor; assumption|]. split; assumption.
    + simpl in Hv.
      destruct (original_fn (instance r)) as [f|] eqn:Hf; [|discriminate].
      destruct (Hs eq_refl) as [ser Hser].
      set (q := {| q_key := k; q_keys_key := keys_key (instance r);
                   q_value := ser; q_ttl := ttl (instance r);
                   q_limit := limit (instance r) |}).
      set (c := {| called := fn_qualname f; call_args := args_of r;
                   call_kwargs := kwargs_of r |}).
      set (w1 := {| srv := srv w; faults := faults w;
                    calls := calls w ++ [c]; has_lua_cache_fn := true |}).
      destruct (IH (S i) (pipeline ++ [q]) (acc ++ [v]) true w1 Hrest)
        as (vs & Hloop & Hvs & Hq & Hc).
      exists (v :: vs).
      cbn [mget_loop]. unfold bind, lift, index, call_fn, get_cache_lua_fn.
      rewrite Hi, Hf, Hv, Hser, Hki. cbn [srv faults calls has_lua_cache_fn].
      fold c. fold q. fold w1. rewrite Hloop. rewrite <- !app_assoc.
      cbn [miss_queue miss_calls answer]. rewrite Hf, Hv. cbn [rbind].
      rewrite Hser. fold q. fold c.
      cbn [existsb is_miss orb app List.filter length].
      rewrite orb_true_r.
      split.
      { f_equal. unfold after_misses at 2. cbn [existsb is_miss orb].
        unfold after_misses.
        cbn [miss_calls]. rewrite Hf. fold c.
        destruct (existsb is_miss results) eqn:Em.
        - unfold w1. cbn [srv faults calls]. rewrite <- app_assoc. reflexivity.
        - rewrite (miss_calls_hits _ _ Em). reflexivity. }
      split; [constructor; [simpl; rewrite Hf; exact Hv | assumption]|].
      split; simpl; f_equal; assumption.
Qed.

(** C8.  When nothing raises while the keys are derived, the multi-key read
    is made and each request is answered, [mget] builds one result per
    request, in the order of the requests: at a slot the read filled, the
    deserialized payload; at a slot it left empty, the value computed by that
    request's function, which is called once, in request order.  With no
    miss it returns that list and the world is as the read left it.  With a
    miss it sends, in one pipeline, one script call per miss — the key of the
    request, the index key, ttl and limit of its decorator and the
    serialized value just computed — and returns the list if the pipeline
    runs, or raises what the pipeline raises. *)
Theorem mget_in_request_order reqs keys results w w1 :
  mget_keys reqs = Ok keys ->
  round_trip (Redis.mget keys) w = (Ok results, w1) ->
  Forall2 (answerable self) reqs results ->
  exists vs,
    length vs = length reqs
    /\ (forall i r, nth_error reqs i = Some r ->
          exists read v,
            nth_error results i = Some read /\ nth_error vs i = Some v
            /\ answer self r read = Ok v)
    /\ length (miss_queue self reqs keys results)
       = length (List.filter is_miss results)
    /\ length (miss_calls reqs results) = length (List.filter is_miss results)
    /\ let pipeline := miss_queue self reqs keys results in
       let w2 := after_misses reqs results w1 in
       mget self reqs w
       = if existsb is_miss results
         then (rbind (fst (pipeline_execute pipeline w2)) (fun _ => Ok vs),
               snd (pipeline_execute pipeline w2))
         else (Ok vs, w1).
Proof.
  intros Hkeys Hread Hall.
  pose proof (mget_keys_length reqs keys Hkeys) as Hlen.
  destruct (mget_loop_spec reqs keys Hlen results 0 [] [] false w1 Hall)
    as (vs & Hloop & Hvs & Hq & Hc).
  change (skipn 0 reqs) with reqs in *. change (skipn 0 keys) with keys in *.
  simpl in Hloop.
  exists vs.
  assert (Hl : length (combine reqs results) = length reqs).
  { rewrite length_combine. apply Forall2_length in Hall. lia. }
  split; [|split; [|split; [exact Hq|split; [exact Hc|]]]].
  - apply Forall2_length in Hvs. lia.
  - intros i r Hi.
    assert (Hr : exists read, nth_error results i = Some read).
    { destruct (nth_error results i) eqn:E; [eauto|].
      apply nth_error_None in E. apply Forall2_length in Hall.
      assert (nth_error reqs i <> None) by congruence.
      apply nth_error_Some in H. lia. }
    destruct Hr as [read Hr]. exists read.
    cut (exists v, nth_error vs i = Some v /\ answer self r read = Ok v).
    { intros (v & H1 & H2). exists v. auto. }
    assert (Hci : nth_error (combine reqs results) i = Some (r, read)).
    { clear -Hi Hr. revert reqs results Hi Hr.
      induction i as [|i IH]; intros [|a l] [|b l']; simpl; try discriminate.
      - intros [= ->] [= ->]. reflexivity.
      - apply IH. }
    clear -Hvs Hci. revert vs i Hvs Hci.
    generalize (combine reqs results) as l.
    induction l as [|x l IH]; intros vs i Hvs Hci; [destruct i; discriminate|].
    apply Forall2_cons_inv_l in Hvs as (v0 & vs' & Hx & Hvs' & ->).
    destruct i as [|i]; simpl in *.
    + injection Hci as ->. exists v0. auto.
    + apply (IH vs' i Hvs' Hci).
  - cbn zeta. unfold mget. unfold bind at 1, lift at 1. rewrite Hkeys.
    unfold bind at 1. rewrite (client_mget_read _ _ _ _ Hread).
    unfold bind at 1. rewrite Hloop.
    destruct (existsb is_miss results) eqn:Em.
    + unfold bind, ret.
      destruct (pipeline_execute (miss_queue self reqs keys results)
                  (after_misses reqs results w1)) as [[[]|e] w3];
        reflexivity.
    + unfold after_misses. rewrite Em. reflexivity.
Qed.

End Batch.

(* ===================================================================== *)
(** * The statements on the sample functions *)
(* ===================================================================== *)

Section Examples.

Import Fixtures.

Local Open Scope Z_scope.

(** ** Keys *)

(** Values passed by position, or by name in the order of declaration, give
    the same key. *)
Lemma get_key_positional_named self fn values :
  original_fn self = Some fn ->
  (length values <= length (standard_args (fn_signature fn)))%nat ->
  get_key self values []
  = get_key self [] (combine (standard_args (fn_signature fn)) values).
Proof.
  intros Hfn Hlen. unfold get_key. rewrite Hfn.
  rewrite (get_args_positional_named _ _ Hlen). reflexivity.
Qed.

(** C1 does not hold on the code.  For [add(a, b)], the calls [add(1, 2)]
    and [add(b=2, a=1)] assign the same values to the same parameters, yet
    [get_args] returns the maps [{a: 1, b: 2}] and [{b: 2, a: 1}], whose
    compact JSON differs, and [get_key] returns two different store keys:
    neither call hits the entry the other one stored. *)
Theorem add_named_out_of_order :
  get_args (fn_signature add) [VInt 1; VInt 2] []
  = Ok [(lit "a", VInt 1); (lit "b", VInt 2)]
  /\ get_args (fn_signature add) [] [(lit "b", VInt 2); (lit "a", VInt 1)]
     = Ok [(lit "b", VInt 2); (lit "a", VInt 1)]
  /\ get_key cached_add [VInt 1; VInt 2] []
     = Ok (lit "{rc:app.add}:eyJhIjoxLCJiIjoyfQ==")
  /\ get_key cached_add [] [(lit "b", VInt 2); (lit "a", VInt 1)]
     = Ok (lit "{rc:app.add}:eyJiIjoyLCJhIjoxfQ==")
  /\ get_key cached_add [VInt 1; VInt 2] []
     <> get_key cached_add [] [(lit "b", VInt 2); (lit "a", VInt 1)].
Proof.
  repeat split; try (vm_compute; reflexivity). vm_compute. discriminate.
Qed.

(** ** The normalizer *)

Lemma named_value_replaces_positional_witness :
  exists parsed_args,
    get_args (fn_signature add) [VInt 1] [(lit "a", VInt 5)] = Ok parsed_args
    /\ dict_get (lit "a") parsed_args = Some (VInt 5).
Proof.
  apply (named_value_replaces_positional (fn_signature add) [VInt 1]
           [(lit "a", VInt 5)] 0 (lit "a") (VInt 5)).
  - apply (bool_decide_unpack _). vm_compute. exact I.
  - apply (bool_decide_unpack _). vm_compute. exact I.
  - reflexivity.
  - simpl. lia.
  - left. reflexivity.
Defined.

(** ** The script *)

(** C2 as stated fails on the code: an entry written with a ttl expires in
    the store while the index keeps its key.  Two runs under limit 5, one
    second of ttl each, two seconds apart: the second run completes and the
    index still names the first key, which no longer exists. *)
Lemma index_refers_to_expired_entry :
  ~ (forall idx L es e s0,
       0 < L -> s0 = empty_server ->
       fst (execute idx L e (run idx L es s0)) = Ok tt ->
       (length (index_members idx (snd (execute idx L e (run idx L es s0))))
        <= Z.to_nat L)%nat
       /\ index_backed idx (snd (execute idx L e (run idx L es s0)))).
Proof.
  intros H.
  destruct (H idx 5 [put "k1" "1" 1 0] (put "k2" "2" 1 2000000) empty_server)
    as [_ Hb]; [lia | reflexivity | vm_compute; reflexivity |].
  specialize (Hb (lit "k1")).
  assert (Hin : In (lit "k1")
                  (index_members idx
                     (snd (execute idx 5 (put "k2" "2" 1 2000000)
                             (run idx 5 [put "k1" "1" 1 0] empty_server)))))
    by (vm_compute; left; reflexivity).
  specialize (Hb Hin). vm_compute in Hb. discriminate.
Qed.

Lemma index_bounded_and_backed_witness :
  let s' := snd (execute idx 2 (put "k3" "3" 0 1000000)
                   (run idx 2 [put "k1" "1" 0 1000000; put "k2" "2" 0 1000000] empty_server)) in
  0 < 2
  /\ fst (execute idx 2 (put "k3" "3" 0 1000000)
            (run idx 2 [put "k1" "1" 0 1000000; put "k2" "2" 0 1000000] empty_server)) = Ok tt
  /\ (length (index_members idx s') <= 2)%nat
  /\ index_backed idx s'.
Proof.
  intros s'.
  assert (H0 : forall P, refs P idx empty_server)
    by (intros P m Hm; vm_compute in Hm; destruct Hm).
  assert (Hok : fst (execute idx 2 (put "k3" "3" 0 1000000)
                       (run idx 2 [put "k1" "1" 0 1000000; put "k2" "2" 0 1000000]
                          empty_server)) = Ok tt)
    by (vm_compute; reflexivity).
  destruct (index_bounded_and_backed idx 2 [put "k1" "1" 0 1000000; put "k2" "2" 0 1000000]
              (put "k3" "3" 0 1000000) empty_server ltac:(lia) (H0 _) Hok)
    as (Hlen & _ & Hb).
  split; [lia|]. split; [exact Hok|]. split; [exact Hlen|].
  apply Hb; [apply H0|]. repeat constructor; simpl; lia.
Defined.

(** ** The façades *)

(** C3 does not hold on the code.  [motd()] returns the empty text and the
    cache stores it as it is, so after the first call the store holds an
    empty payload under the key.  On the second call the read returns that
    payload, and [inner] takes it for a miss: the wrapped function is called
    again and the entry is written again.  [mget] on the same store takes
    the empty payload for the hit it is and calls nothing. *)
Theorem empty_payload_is_recomputed :
  let key := lit "{rc:app.motd}:e30=" in
  let first := inner cached_motd motd [] [] quiet in
  let second := inner cached_motd motd [] [] (snd first) in
  let batch := mget text_cache
                 [{| instance := cached_motd; args := None; kwargs := None |}]
                 (snd first) in
  get_key cached_motd [] [] = Ok key
  /\ fst (round_trip (get key) (snd first)) = Ok (Some [])
  /\ fst second = Ok (VStr [])
  /\ length (calls (snd first)) = 1%nat
  /\ length (calls (snd second)) = 2%nat
  /\ log (srv (snd second))
     = [GET key; SET key []; GET key; SET key []]
  /\ fst batch = Ok [VBytes []]
  /\ calls (snd batch) = calls (snd first).
Proof. vm_compute. repeat split; reflexivity. Qed.

Lemma inner_fallback_witness :
  let w' := snd (inner cached_square square [VInt 4] [] offline) in
  fst (round_trip (get (lit "{rc:app.square}:eyJ4Ijo0fQ==")) offline)
  = Raise ConnectionError
  /\ fst (inner cached_square square [VInt 4] [] offline) = Ok (VInt 16)
  /\ db (srv w') = db (srv offline)
  /\ log (srv w') = [].
Proof.
  intros w'.
  assert (Hread : fst (round_trip (get (lit "{rc:app.square}:eyJ4Ijo0fQ=="))
                         offline) = Raise ConnectionError)
    by (vm_compute; reflexivity).
  destruct (inner_fallback cached_square square [VInt 4] []
              (lit "{rc:app.square}:eyJ4Ijo0fQ==") ConnectionError offline
              ltac:(vm_compute; reflexivity) Hread eq_refl)
    as (Hr & _ & Hdb & _ & _).
  split; [exact Hread|]. split; [rewrite Hr; reflexivity|].
  split; [exact Hdb|]. vm_compute. reflexivity.
Defined.

Lemma inner_miss_returns_computed_witness :
  let first := inner raw_square square [VInt 4] [] quiet in
  let second := inner raw_square square [VInt 4] [] (snd first) in
  fst first = Ok (VInt 16)
  /\ fst second = Ok (VBytes (lit "16"))
  /\ fst first <> fst second.
Proof.
  intros first second.
  set (key := lit "{rc:app.square}:eyJ4Ijo0fQ==").
  set (w1 := snd (round_trip (get key) quiet)).
  set (w2 := snd (run_script key (keys_key raw_square) (SStr (lit "16")) 0 0
                    (called_from square [VInt 4] [] w1))).
  set (w3 := snd (round_trip (get key) w2)).
  destruct (inner_miss_returns_computed raw_square square [VInt 4] [] key None
              quiet w1 (VInt 16) (SStr (lit "16")) (lit "16") w2)
    as [Hmiss Hhit]; try (vm_compute; reflexivity).
  destruct (Hhit (lit "16") w3) as [_ Hsecond]; [vm_compute; reflexivity|].
  assert (H1 : fst first = Ok (VInt 16)) by (subst first; rewrite Hmiss; reflexivity).
  assert (H2 : fst second = Ok (VBytes (lit "16"))).
  { subst second first. rewrite Hmiss. simpl snd. rewrite Hsecond.
    - reflexivity.
    - vm_compute. discriminate. }
  split; [exact H1|]. split; [exact H2|]. rewrite H1, H2. discriminate.
Defined.

Lemma mget_in_request_order_witness :
  let w := snd (inner cached_square square [VInt 4] [] quiet) in
  let reqs :=
    [{| instance := cached_square; args := Some [VInt 3]; kwargs := None |};
     {| instance := cached_square; args := Some [VInt 4]; kwargs := None |}] in
  let keys := [lit "{rc:app.square}:eyJ4IjozfQ==";
               lit "{rc:app.square}:eyJ4Ijo0fQ=="] in
  let results := [None; Some (lit "16")] in
  fst (round_trip (Redis.mget keys) w) = Ok results
  /\ fst (mget int_cache reqs w) = Ok [VInt 9; VInt 16]
  /\ miss_queue int_cache reqs keys results
     = [{| q_key := lit "{rc:app.square}:eyJ4IjozfQ==";
           q_keys_key := Some idx; q_value := SStr (lit "9");
           q_ttl := 0; q_limit := 0 |}]
  /\ db (srv (snd (mget int_cache reqs w))) !! lit "{rc:app.square}:eyJ4IjozfQ=="
     = Some {| payload := RString (lit "9"); expire_at := None |}
  /\ exists vs,
       length vs = length reqs
       /\ (forall i r, nth_error reqs i = Some r ->
             exists read v,
               nth_error results i = Some read
               /\ nth_error vs i = Some v
               /\ answer int_cache r read = Ok v)
       /\ mget int_cache reqs w
          = (rbind (fst (pipeline_execute (miss_queue int_cache reqs keys results)
                           (after_misses reqs results
                              (snd (round_trip (Redis.mget keys) w)))))
               (fun _ => Ok vs),
             snd (pipeline_execute (miss_queue int_cache reqs keys results)
                    (after_misses reqs results
                       (snd (round_trip (Redis.mget keys) w))))).
Proof.
  intros w reqs keys results.
  split; [vm_compute; reflexivity|]. split; [vm_compute; reflexivity|].
  split; [vm_compute; reflexivity|]. split; [vm_compute; reflexivity|].
  destruct (mget_in_request_order int_cache reqs keys results w
              (snd (round_trip (Redis.mget keys) w)))
    as (vs & Hlen & Hans & _ & _ & Hm).
  - vm_compute. reflexivity.
  - vm_compute. reflexivity.
  - constructor; [|constructor; [|constructor]].
    + exists (VInt 9). split; [reflexivity|]. intros _. eexists. reflexivity.
    + exists (VInt 16). split; [reflexivity|]. discriminate.
  - exists vs. split; [exact Hlen|]. split; [exact Hans|]. exact Hm.
Defined.

End Examples.

(* ===================================================================== *)
(** * More on the argument normalizer *)
(* ===================================================================== *)

Section NormalizerMore.

Ltac apart2 Hu H1 H2 :=
  let E := fresh in
  intros E; subst;
  refine (names_apart _ _ _ _ Hu _ H1 H2);
  let p := fresh in
  let Hf := fresh in
  let Hg := fresh in
  intros p Hf Hg;
  unfold is_standard, is_allowed_kwarg, is_var_positional, is_var_keyword in *;
  destruct (kind p); discriminate.

Lemma dict_set_keys k v d x :
  In x (map fst (dict_set k v d)) -> x = k \/ In x (map fst d).
Proof.
  induction d as [|[k' v'] d IH]; simpl.
  - intros [<-|[]]. left. reflexivity.
  - destruct (str_eqb k k') eqn:E; simpl.
    + intros [<-|H]; auto.
    + intros [<-|H]; auto. destruct (IH H); auto.
Qed.

Lemma filter_bindable sig (f : param -> bool) k :
  (forall p, f p = true -> kind p <> POSITIONAL_ONLY) ->
  In k (map name (List.filter f sig)) -> bindable sig k.
Proof.
  intros Hf Hin. apply in_map_iff in Hin as (p & Hn & Hp).
  apply filter_In in Hp as [Hp Hfp]. exists p. auto.
Qed.

Lemma standard_bindable sig k : In k (standard_args sig) -> bindable sig k.
Proof.
  apply filter_bindable. intros p. unfold is_standard.
  destruct (kind p); discriminate.
Qed.

Lemma allowed_bindable sig k : In k (allowed_kwargs sig) -> bindable sig k.
Proof.
  apply filter_bindable. intros p. unfold is_allowed_kwarg.
  destruct (kind p); discriminate.
Qed.

Lemma variable_args_bindable sig k : In k (variable_args sig) -> bindable sig k.
Proof.
  apply filter_bindable. intros p. unfold is_var_positional.
  destruct (kind p); discriminate.
Qed.

Lemma variable_kwargs_bindable sig k :
  In k (variable_kwargs sig) -> bindable sig k.
Proof.
  apply filter_bindable. intros p. unfold is_var_keyword.
  destruct (kind p); discriminate.
Qed.

Lemma keys_bindable_set sig k v d :
  bindable sig k -> keys_bindable sig d -> keys_bindable sig (dict_set k v d).
Proof.
  intros Hk Hd x Hx. apply dict_set_keys in Hx as [->|Hx]; auto.
Qed.

Lemma bind_positional_keys sig parsed i arg parsed' :
  keys_bindable sig parsed ->
  bind_positional sig parsed i arg = Ok parsed' -> keys_bindable sig parsed'.
Proof.
  intros Hk. unfold bind_positional.
  destruct (nth_error (standard_args sig) i) as [p|] eqn:Hp.
  - intros [= <-]. apply keys_bindable_set; [|exact Hk].
    apply standard_bindable. eapply nth_error_In. exact Hp.
  - destruct (variable_args sig) as [|vn rest] eqn:Hv; [intros [= <-]; exact Hk|].
    assert (Hb : bindable sig vn)
      by (apply variable_args_bindable; rewrite Hv; left; reflexivity).
    match goal with
    | |- context [dict_get vn ?d] =>
        assert (Hd : keys_bindable sig d)
          by (destruct (dict_mem vn parsed);
              [exact Hk | apply keys_bindable_set; assumption]);
        destruct (dict_get vn d) as [[]|]; try discriminate
    end.
    intros [= <-]. apply keys_bindable_set; assumption.
Qed.

Lemma positional_loop_keys sig args : forall i parsed parsed',
  keys_bindable sig parsed ->
  positional_loop sig i args parsed = Ok parsed' -> keys_bindable sig parsed'.
Proof.
  induction args as [|a args IH]; intros i parsed parsed' Hk; simpl.
  - intros [= <-]. exact Hk.
  - destruct (bind_positional sig parsed i a) as [p1|] eqn:Hb; [|discriminate].
    simpl. apply IH. eapply bind_positional_keys; eassumption.
Qed.

Lemma bind_named_keys sig parsed key value parsed' :
  keys_bindable sig parsed ->
  bind_named sig parsed key value = Ok parsed' -> keys_bindable sig parsed'.
Proof.
  intros Hk. unfold bind_named.
  destruct (str_in key (allowed_kwargs sig)) eqn:Ha.
  - intros [= <-]. apply keys_bindable_set; [|exact Hk].
    apply allowed_bindable. apply str_in_true. exact Ha.
  - destruct (variable_kwargs sig) as [|vn rest] eqn:Hv; [intros [= <-]; exact Hk|].
    assert (Hb : bindable sig vn)
      by (apply variable_kwargs_bindable; rewrite Hv; left; reflexivity).
    match goal with
    | |- context [dict_get vn ?d] =>
        assert (Hd : keys_bindable sig d)
          by (destruct (dict_mem vn parsed);
              [exact Hk | apply keys_bindable_set; assumption]);
        destruct (dict_get vn d) as [[]|]; try discriminate
    end.
    intros [= <-]. apply keys_bindable_set; assumption.
Qed.

Lemma named_loop_keys sig kwargs : forall parsed parsed',
  keys_bindable sig parsed ->
  named_loop sig kwargs parsed = Ok parsed' -> keys_bindable sig parsed'.
Proof.
  induction kwargs as [|[k v] kwargs IH]; intros parsed parsed' Hk; simpl.
  - intros [= <-]. exact Hk.
  - destruct (bind_named sig parsed k v) as [p1|] eqn:Hb; [|discriminate].
    simpl. apply IH. eapply bind_named_keys; eassumption.
Qed.

(** X1.  [get_args] validates nothing: on a signature whose names are
    distinct it returns a map for every call, whatever the number of
    positional values and whatever the names passed. *)
Theorem get_args_never_raises sig args kwargs :
  unique_names sig ->
  exists parsed_args, get_args sig args kwargs = Ok parsed_args.
Proof. apply get_args_total. Qed.

(** X2.  Every key of the map [get_args] returns is the name of a parameter
    of the signature that is not positional-only: names passed by the caller
    that the signature does not declare never become keys, and a
    positional-only parameter is never bound. *)
Theorem get_args_keys_are_parameters sig args kwargs parsed_args k :
  get_args sig args kwargs = Ok parsed_args ->
  In k (map fst parsed_args) ->
  exists p, In p sig /\ name p = k /\ kind p <> POSITIONAL_ONLY.
Proof.
  intros Hget Hin. unfold get_args in Hget. cbv zeta in Hget.
  assert (H0 : keys_bindable sig []) by (intros x []).
  match type of Hget with
  | rbind ?x _ = _ => destruct x as [p0|] eqn:Hpos; [|discriminate]
  end.
  simpl in Hget.
  assert (Hp0 : keys_bindable sig p0).
  { destruct (nonempty (standard_args sig) || nonempty (variable_args sig)).
    - eapply positional_loop_keys; [exact H0 | exact Hpos].
    - injection Hpos as <-. exact H0. }
  assert (Hp : keys_bindable sig parsed_args).
  { destruct (nonempty kwargs).
    - eapply named_loop_keys; [exact Hp0 | exact Hget].
    - injection Hget as <-. exact Hp0. }
  exact (Hp k Hin).
Qed.

Lemma unique_names_filter sig (f : param -> bool) :
  unique_names sig -> NoDup (map name (List.filter f sig)).
Proof.
  unfold unique_names. induction sig as [|a sig IH]; simpl; [constructor|].
  intros Hnd. apply NoDup_cons in Hnd as [Hnot Hnd].
  destruct (f a); simpl; [|auto].
  apply NoDup_cons. split; [|auto].
  intros Hin. apply Hnot. apply list_elem_of_In. apply list_elem_of_In in Hin.
  apply in_map_iff in Hin as (q & Hq & Hin). apply filter_In in Hin as [Hin _].
  apply in_map_iff. eauto.
Qed.

(** A step of the positional loop leaves alone every name that is neither an
    ordinary parameter nor the [*args] collector. *)
Lemma bind_positional_frame sig parsed i arg parsed' q :
  ~ In q (standard_args sig) -> head (variable_args sig) <> Some q ->
  bind_positional sig parsed i arg = Ok parsed' ->
  dict_get q parsed' = dict_get q parsed.
Proof.
  intros Hs Hv. unfold bind_positional.
  destruct (nth_error (standard_args sig) i) as [p|] eqn:Hp.
  - intros [= <-]. apply dict_get_set_ne. intros ->.
    apply Hs. eapply nth_error_In. exact Hp.
  - destruct (variable_args sig) as [|vn rest]; [intros [= <-]; reflexivity|].
    assert (Hne : vn <> q) by (intros ->; apply Hv; reflexivity).
    unfold dict_mem. destruct (dict_get vn parsed) as [v0|] eqn:Hg.
    + rewrite Hg. destruct v0; try discriminate.
      intros [= <-]. apply dict_get_set_ne. exact Hne.
    + rewrite dict_get_set_eq. intros [= <-].
      rewrite !dict_get_set_ne by exact Hne. reflexivity.
Qed.

Lemma positional_loop_frame sig args q : forall i parsed parsed',
  ~ In q (standard_args sig) -> head (variable_args sig) <> Some q ->
  positional_loop sig i args parsed = Ok parsed' ->
  dict_get q parsed' = dict_get q parsed.
Proof.
  induction args as [|a args IH]; intros i parsed parsed' Hs Hv; simpl.
  - intros [= <-]. reflexivity.
  - destruct (bind_positional sig parsed i a) as [p1|] eqn:Hb; [|discriminate].
    simpl. intros Hl. rewrite (IH _ _ _ Hs Hv Hl).
    eapply bind_positional_frame; eassumption.
Qed.

(** A step of the named loop leaves alone every name that is neither the key
    it handles nor the [**kwargs] collector. *)
Lemma bind_named_frame sig parsed key value parsed' q :
  key <> q -> head (variable_kwargs sig) <> Some q ->
  bind_named sig parsed key value = Ok parsed' ->
  dict_get q parsed' = dict_get q parsed.
Proof.
  intros Hk Hv. unfold bind_named.
  destruct (str_in key (allowed_kwargs sig)).
  - intros [= <-]. apply dict_get_set_ne. exact Hk.
  - destruct (variable_kwargs sig) as [|vn rest]; [intros [= <-]; reflexivity|].
    assert (Hne : vn <> q) by (intros ->; apply Hv; reflexivity).
    unfold dict_mem. destruct (dict_get vn parsed) as [v0|] eqn:Hg.
    + rewrite Hg. destruct v0; try discriminate.
      intros [= <-]. apply dict_get_set_ne. exact Hne.
    + rewrite dict_get_set_eq. intros [= <-].
      rewrite !dict_get_set_ne by exact Hne. reflexivity.
Qed.

Lemma named_loop_frame sig kwargs q : forall parsed parsed',
  ~ In q (map fst kwargs) -> head (variable_kwargs sig) <> Some q ->
  named_loop sig kwargs parsed = Ok parsed' ->
  dict_get q parsed' = dict_get q parsed.
Proof.
  induction kwargs as [|[k v] kwargs IH]; intros parsed parsed' Hq Hv; simpl.
  - intros [= <-]. reflexivity.
  - simpl in Hq.
    destruct (bind_named sig parsed k v) as [p1|] eqn:Hb; [|discriminate].
    simpl. intros Hl. rewrite (IH p1 parsed') by tauto.
    eapply bind_named_frame; [| |exact Hb]; tauto.
Qed.

(** A name passed that is no allowed keyword only ever touches the
    [**kwargs] collector. *)
Lemma named_loop_frame_unknown sig kwargs q : forall parsed parsed',
  ~ In q (allowed_kwargs sig) -> head (variable_kwargs sig) <> Some q ->
  named_loop sig kwargs parsed = Ok parsed' ->
  dict_get q parsed' = dict_get q parsed.
Proof.
  induction kwargs as [|[k v] kwargs IH]; intros parsed parsed' Hq Hv; simpl.
  - intros [= <-]. reflexivity.
  - destruct (bind_named sig parsed k v) as [p1|] eqn:Hb; [|discriminate].
    simpl. intros Hl. rewrite (IH p1 parsed' Hq Hv Hl).
    unfold bind_named in Hb.
    destruct (str_in k (allowed_kwargs sig)) eqn:Ha.
    + injection Hb as <-. apply dict_get_set_ne. intros ->.
      apply Hq. apply str_in_true. exact Ha.
    + destruct (variable_kwargs sig) as [|vn rest]; [injection Hb as <-; reflexivity|].
      assert (Hne : vn <> q) by (intros ->; apply Hv; reflexivity).
      unfold dict_mem in Hb. destruct (dict_get vn parsed) as [v0|] eqn:Hg.
      * rewrite Hg in Hb. destruct v0; try discriminate.
        injection Hb as <-. apply dict_get_set_ne. exact Hne.
      * rewrite dict_get_set_eq in Hb. injection Hb as <-.
        rewrite !dict_get_set_ne by exact Hne. reflexivity.
Qed.

Lemma get_args_unfold sig args kwargs :
  get_args sig args kwargs
  = rbind (if nonempty (standard_args sig) || nonempty (variable_args sig)
           then positional_loop sig 0 args [] else Ok [])
          (named_loop sig kwargs).
Proof.
  unfold get_args. cbv zeta.
  match goal with |- rbind ?x _ = rbind ?y _ => change y with x; destruct x as [p|] end;
    [|reflexivity].
  simpl. destruct kwargs; reflexivity.
Qed.

(** X3.  The [i]-th positional value is bound to the [i]-th parameter of
    kind POSITIONAL_OR_KEYWORD, unless the call also passes that parameter by
    name. *)
Theorem positional_value_is_bound sig args kwargs i p a :
  unique_names sig ->
  nth_error (standard_args sig) i = Some p ->
  nth_error args i = Some a ->
  ~ In p (map fst kwargs) ->
  exists parsed_args,
    get_args sig args kwargs = Ok parsed_args
    /\ dict_get p parsed_args = Some a.
Proof.
  intros Hu Hp Ha Hk.
  destruct (get_args_total sig args kwargs Hu) as (parsed & Hget).
  exists parsed. split; [exact Hget|].
  rewrite get_args_unfold in Hget.
  destruct (standard_args sig) as [|s0 l] eqn:Hs; [destruct i; discriminate|].
  cbn [nonempty orb] in Hget.
  destruct (positional_loop sig 0 args []) as [p0|] eqn:Hpos; [|discriminate].
  simpl in Hget.
  assert (H0 : dict_get p p0 = Some a).
  { apply (positional_loop_binds sig args 0 i p a [] p0); auto.
    - rewrite Hs. exact Hp.
    - unfold standard_args. apply unique_names_filter. exact Hu. }
  rewrite <- H0. apply (named_loop_other sig kwargs p p0 parsed); auto.
  apply standard_allowed. rewrite Hs. eapply nth_error_In. exact Hp.
Qed.

Lemma positional_loop_app sig xs : forall ys i parsed,
  positional_loop sig i (xs ++ ys) parsed
  = rbind (positional_loop sig i xs parsed)
          (positional_loop sig (i + length xs) ys).
Proof.
  induction xs as [|x xs IH]; intros ys i parsed; simpl.
  - rewrite Nat.add_0_r. reflexivity.
  - destruct (bind_positional sig parsed i x) as [p1|]; simpl; [|reflexivity].
    rewrite IH. rewrite Nat.add_succ_r. reflexivity.
Qed.

Lemma positional_loop_beyond sig args : forall i parsed,
  variable_args sig = [] -> (length (standard_args sig) <= i)%nat ->
  positional_loop sig i args parsed = Ok parsed.
Proof.
  induction args as [|a args IH]; intros i parsed Hv Hi; simpl; [reflexivity|].
  unfold bind_positional.
  destruct (nth_error (standard_args sig) i) eqn:E.
  - assert (nth_error (standard_args sig) i <> None) by congruence.
    apply nth_error_Some in H. lia.
  - rewrite Hv. simpl. apply IH; [exact Hv | lia].
Qed.

(** X4.  Without a [*args] parameter, the positional values beyond the
    ordinary parameters are dropped: the call is normalized as if they had
    not been passed. *)
Theorem excess_positional_dropped sig args kwargs :
  variable_args sig = [] ->
  get_args sig args kwargs
  = get_args sig (firstn (length (standard_args sig)) args) kwargs.
Proof.
  intros Hv. rewrite !get_args_unfold. f_equal.
  destruct (nonempty (standard_args sig) || nonempty (variable_args sig));
    [|reflexivity].
  set (n := length (standard_args sig)).
  rewrite <- (firstn_skipn n args) at 1. rewrite positional_loop_app.
  destruct (positional_loop sig 0 (firstn n args) []) as [p1|] eqn:E;
    simpl; [|reflexivity].
  destruct (Nat.le_gt_cases (length args) n) as [Hle|Hgt].
  - rewrite skipn_all2 by exact Hle. reflexivity.
  - apply positional_loop_beyond; [exact Hv|].
    rewrite length_firstn. subst n. lia.
Qed.

(** Past the ordinary parameters, every value is appended to the list kept
    under the [*args] name. *)
Lemma positional_loop_collects sig v rest ys : forall i parsed prev,
  variable_args sig = v :: rest ->
  (length (standard_args sig) <= i)%nat ->
  dict_get v parsed = Some (VList prev) ->
  exists parsed',
    positional_loop sig i ys parsed = Ok parsed'
    /\ dict_get v parsed' = Some (VList (prev ++ ys)).
Proof.
  induction ys as [|y ys IH]; intros i parsed prev Hv Hi Hg; simpl.
  - exists parsed. rewrite app_nil_r. auto.
  - unfold bind_positional.
    destruct (nth_error (standard_args sig) i) eqn:E.
    { assert (nth_error (standard_args sig) i <> None) by congruence.
      apply nth_error_Some in H. lia. }
    rewrite Hv. unfold dict_mem. rewrite Hg. rewrite Hg. simpl.
    destruct (IH (S i) (dict_set v (VList (prev ++ [y])) parsed) (prev ++ [y]))
      as (p' & Hl & Hp'); [exact Hv | lia | apply dict_get_set_eq |].
    exists p'. rewrite <- app_assoc in Hp'. auto.
Qed.

(** X5.  With a [*args] parameter, the positional values beyond the ordinary
    parameters are kept, in call order, as a list under the collector's name;
    when there are none, the collector's name is not a key of the map. *)
Theorem extra_positional_collected sig v xs ys kwargs :
  unique_names sig ->
  head (variable_args sig) = Some v ->
  length xs = length (standard_args sig) ->
  exists parsed_args,
    get_args sig (xs ++ ys) kwargs = Ok parsed_args
    /\ dict_get v parsed_args
       = match ys with [] => None | _ :: _ => Some (VList ys) end.
Proof.
  intros Hu Hv Hlen.
  destruct (get_args_total sig (xs ++ ys) kwargs Hu) as (parsed & Hget).
  exists parsed. split; [exact Hget|].
  rewrite get_args_unfold in Hget.
  destruct (variable_args sig) as [|v0 rest] eqn:Hva; [discriminate|].
  injection Hv as ->.
  assert (Hin : In v (variable_args sig)) by (rewrite Hva; left; reflexivity).
  replace (nonempty (standard_args sig) || nonempty (v :: rest)) with true in Hget
    by (destruct (standard_args sig); reflexivity).
  rewrite positional_loop_app in Hget.
  destruct (positional_loop sig 0 xs []) as [p1|] eqn:Hxs; [|discriminate].
  simpl in Hget.
  assert (Hstd : ~ In v (standard_args sig)).
  { intros Hs.
    refine (names_apart sig _ _ v Hu _ Hs Hin).
    intros p Hf Hg. unfold is_standard, is_var_positional in *.
    destruct (kind p); discriminate. }
  assert (Hna : ~ In v (allowed_kwargs sig)).
  { intros Ha. refine (names_apart sig _ _ v Hu _ Ha Hin).
    intros p Hf Hg. unfold is_allowed_kwarg, is_var_positional in *.
    destruct (kind p); discriminate. }
  assert (Hnk : head (variable_kwargs sig) <> Some v).
  { intros Hh. apply head_In in Hh.
    refine (names_apart sig _ _ v Hu _ Hh Hin).
    intros p Hf Hg. unfold is_var_keyword, is_var_positional in *.
    destruct (kind p); discriminate. }
  assert (Hp1 : dict_get v p1 = None).
  { rewrite (positional_as_named sig xs 0 []) in Hxs by lia.
    exact (named_loop_frame_unknown sig _ v [] p1 Hna Hnk Hxs). }
  assert (Hnamed : forall p2, named_loop sig kwargs p2 = Ok parsed ->
                              dict_get v parsed = dict_get v p2).
  { intros p2 Hn. exact (named_loop_frame_unknown sig kwargs v p2 parsed Hna Hnk Hn). }
  destruct ys as [|y ys].
  - simpl in Hget. rewrite (Hnamed p1 Hget). exact Hp1.
  - cbn [positional_loop] in Hget. unfold bind_positional at 1 in Hget.
    simpl in Hget.
    destruct (nth_error (standard_args sig) (length xs)) eqn:E.
    { assert (nth_error (standard_args sig) (length xs) <> None) by congruence.
      apply nth_error_Some in H. lia. }
    rewrite Hva in Hget. unfold dict_mem in Hget. rewrite Hp1 in Hget.
    rewrite dict_get_set_eq in Hget. cbn [rbind app] in Hget.
    match type of Hget with
    | rbind (positional_loop sig ?i ys ?d) _ = _ =>
        destruct (positional_loop_collects sig v rest ys i d [y] Hva)
          as (p2 & Hl & Hp2); [lia | apply dict_get_set_eq |]
    end.
    rewrite Hl in Hget. simpl in Hget.
    rewrite (Hnamed p2 Hget). exact Hp2.
Qed.

(** Without a [**kwargs] parameter, a step on a name that is no allowed
    keyword does nothing. *)
Lemma named_loop_drops sig kwargs : forall parsed,
  variable_kwargs sig = [] ->
  named_loop sig kwargs parsed
  = named_loop sig
      (List.filter (fun kv => str_in (fst kv) (allowed_kwargs sig)) kwargs)
      parsed.
Proof.
  induction kwargs as [|[k v] kwargs IH]; intros parsed Hv; simpl; [reflexivity|].
  unfold bind_named at 1.
  destruct (str_in k (allowed_kwargs sig)) eqn:Ha; simpl.
  - unfold bind_named. rewrite Ha. simpl. apply IH. exact Hv.
  - rewrite Hv. simpl. apply IH. exact Hv.
Qed.

(** X6.  Without a [**kwargs] parameter, the named values whose name is
    neither an ordinary nor a keyword-only parameter are dropped: the call is
    normalized as if they had not been passed. *)
Theorem unknown_named_dropped sig args kwargs :
  variable_kwargs sig = [] ->
  get_args sig args kwargs
  = get_args sig args
      (List.filter (fun kv => str_in (fst kv) (allowed_kwargs sig)) kwargs).
Proof.
  intros Hv. rewrite !get_args_unfold.
  destruct (if nonempty (standard_args sig) || nonempty (variable_args sig)
            then positional_loop sig 0 args [] else Ok []) as [p|];
    simpl; [|reflexivity].
  apply named_loop_drops. exact Hv.
Qed.

Lemma dict_set_fresh k v d :
  ~ In k (map fst d) -> dict_set k v d = d ++ [(k, v)].
Proof.
  induction d as [|[k' v'] d IH]; simpl; [reflexivity|]. intros Hn.
  rewrite str_eqb_false by (intros ->; tauto). rewrite IH by tauto. reflexivity.
Qed.

Lemma named_loop_collects sig vk kwargs : forall parsed acc,
  ~ In vk (allowed_kwargs sig) ->
  head (variable_kwargs sig) = Some vk ->
  NoDup (map fst kwargs) ->
  (forall k, In k (map fst acc) -> ~ In k (map fst kwargs)) ->
  dict_get vk parsed = Some (VDict acc) ->
  exists parsed',
    named_loop sig kwargs parsed = Ok parsed'
    /\ dict_get vk parsed'
       = Some (VDict (acc ++ List.filter
                        (fun kv => negb (str_in (fst kv) (allowed_kwargs sig)))
                        kwargs)).
Proof.
  induction kwargs as [|[k v] kwargs IH]; intros parsed acc Hna Hvk Hnd Hdis Hg.
  - exists parsed. simpl. rewrite app_nil_r. auto.
  - simpl in Hnd. apply NoDup_cons in Hnd as [Hk Hnd].
    simpl. unfold bind_named.
    destruct (str_in k (allowed_kwargs sig)) eqn:Ha; simpl.
    + apply IH; auto.
      * intros x Hx Hin. apply (Hdis x Hx). right. exact Hin.
      * rewrite dict_get_set_ne; [exact Hg|]. intros ->.
        apply Hna. apply str_in_true. exact Ha.
    + destruct (variable_kwargs sig) as [|vn rest]; [discriminate|].
      injection Hvk as ->. unfold dict_mem. rewrite Hg, Hg. simpl.
      rewrite (dict_set_fresh k v acc)
        by (intros Hin; apply (Hdis k Hin); left; reflexivity).
      destruct (IH (dict_set vk (VDict (acc ++ [(k, v)])) parsed) (acc ++ [(k, v)]))
        as (p' & Hl & Hp'); auto.
      * intros x Hx Hin. rewrite map_app in Hx. apply in_app_or in Hx as [Hx|Hx].
        -- apply (Hdis x Hx). right. exact Hin.
        -- simpl in Hx. destruct Hx as [<-|[]]. apply Hk.
           apply list_elem_of_In. exact Hin.
      * apply dict_get_set_eq.
      * exists p'. rewrite <- app_assoc in Hp'. auto.
Qed.

(** X7.  With a [**kwargs] parameter, the named values whose name is neither
    an ordinary nor a keyword-only parameter are kept, in call order, as a
    dictionary under the collector's name; when there are none, the
    collector's name is not a key of the map. *)
Theorem unknown_named_collected sig args kwargs vk :
  unique_names sig ->
  head (variable_kwargs sig) = Some vk ->
  NoDup (map fst kwargs) ->
  exists parsed_args,
    get_args sig args kwargs = Ok parsed_args
    /\ dict_get vk parsed_args
       = match List.filter
                 (fun kv => negb (str_in (fst kv) (allowed_kwargs sig))) kwargs
         with
         | [] => None
         | unknown => Some (VDict unknown)
         end.
Proof.
  intros Hu Hvk Hnd.
  destruct (get_args_total sig args kwargs Hu) as (parsed & Hget).
  exists parsed. split; [exact Hget|].
  rewrite get_args_unfold in Hget.
  assert (Hin : In vk (variable_kwargs sig)) by (apply head_In; exact Hvk).
  assert (Hna : ~ In vk (allowed_kwargs sig)).
  { intros Ha. refine (names_apart sig _ _ vk Hu _ Ha Hin).
    intros p Hf Hg. unfold is_allowed_kwarg, is_var_keyword in *.
    destruct (kind p); discriminate. }
  assert (Hns : ~ In vk (standard_args sig)).
  { intros Ha. apply Hna. apply standard_allowed. exact Ha. }
  assert (Hnv : head (variable_args sig) <> Some vk).
  { intros Hh. apply head_In in Hh.
    refine (names_apart sig _ _ vk Hu _ Hh Hin).
    intros p Hf Hg. unfold is_var_positional, is_var_keyword in *.
    destruct (kind p); discriminate. }
  match type of Hget with
  | rbind ?x _ = _ => destruct x as [p0|] eqn:Hpos; [|discriminate]
  end.
  simpl in Hget.
  assert (Hp0 : dict_get vk p0 = None).
  { destruct (nonempty (standard_args sig) || nonempty (variable_args sig)).
    - exact (positional_loop_frame sig args vk 0 [] p0 Hns Hnv Hpos).
    - injection Hpos as <-. reflexivity. }
  clear Hpos. revert p0 Hp0 Hget Hnd.
  induction kwargs as [|[k v] kwargs IH]; intros p0 Hp0 Hget Hnd.
  - simpl in *. injection Hget as <-. exact Hp0.
  - simpl in Hnd. apply NoDup_cons in Hnd as [Hk Hnd].
    simpl in Hget. unfold bind_named in Hget. simpl.
    destruct (str_in k (allowed_kwargs sig)) eqn:Ha; simpl in *.
    + apply (IH (dict_set k v p0)); auto.
      rewrite dict_get_set_ne; [exact Hp0|]. intros ->.
      apply Hna. apply str_in_true. exact Ha.
    + destruct (variable_kwargs sig) as [|vn rest] eqn:Hv; [discriminate|].
      injection Hvk as ->. unfold dict_mem in Hget. rewrite Hp0 in Hget.
      rewrite dict_get_set_eq in Hget. simpl in Hget.
      destruct (named_loop_collects sig vk kwargs
                  (dict_set vk (VDict [(k, v)]) (dict_set vk (VDict []) p0))
                  [(k, v)])
        as (p' & Hl & Hp'); auto.
      * rewrite Hv. reflexivity.
      * intros x [<-|[]] Hx. apply Hk. apply list_elem_of_In. exact Hx.
      * apply dict_get_set_eq.
      * rewrite Hl in Hget. injection Hget as <-. exact Hp'.
Qed.

End NormalizerMore.

(* ===================================================================== *)
(** * More on keys *)
(* ===================================================================== *)

Section KeysMore.

Local Open Scope N_scope.

(** Whatever [get_key] returns is the full prefix, a colon and a base64
    text. *)
Lemma get_key_shape self args kwargs key :
  get_key self args kwargs = Ok key ->
  exists normalized_args serialized_data payload,
    match key_serializer self with
    | Some key_serializer => key_serializer (VDict normalized_args)
    | None => serializer self (VDict normalized_args)
    end = Ok serialized_data
    /\ match serialized_data with
       | SStr text => encode_utf8 text
       | SBytes data => Ok data
       end = Ok payload
    /\ key = get_full_prefix self ++ lit ":" ++ b64encode payload.
Proof.
  unfold get_key. destruct (original_fn self) as [fn|]; [|discriminate].
  destruct (get_args (fn_signature fn) args kwargs) as [n|]; [|discriminate].
  cbn [rbind].
  destruct (match key_serializer self with
            | Some ks => ks (VDict n)
            | None => serializer self (VDict n)
            end) as [d|] eqn:Hd; [|discriminate].
  cbn [rbind].
  destruct (match d with SStr text => encode_utf8 text | SBytes data => Ok data end)
    as [p|] eqn:E; [|discriminate].
  cbn [rbind]. intros [= <-]. exists n, d, p. auto.
Qed.

(** Two texts that agree up to and including the first [c] are cut at the
    same place. *)
Lemma first_occurrence_split (c : N) (u v a b : str) :
  ~ In c u -> ~ In c v -> u ++ c :: a = v ++ c :: b -> u = v /\ a = b.
Proof.
  revert v. induction u as [|x u IH]; intros [|y v] Hu Hv; simpl in *.
  - intros [= ->]. auto.
  - intros [= <- _]. tauto.
  - intros [= -> _]. tauto.
  - intros [= -> H]. destruct (IH v) as [-> ->]; auto.
Qed.

Lemma last_brace_split (a b x y : str) :
  Forall (fun c => ~ brace c) x -> Forall (fun c => ~ brace c) y ->
  a ++ lit "}" ++ x = b ++ lit "}" ++ y -> a = b /\ x = y.
Proof.
  intros Hx Hy H. apply (f_equal (@rev N)) in H.
  rewrite !rev_app_distr in H. simpl in H. rewrite <- !app_assoc in H. simpl in H.
  assert (Hn : forall l, Forall (fun c => ~ brace c) l -> ~ In 125 (rev l)).
  { intros l Hl Hin. apply in_rev in Hin. rewrite List.Forall_forall in Hl.
    apply (Hl 125 Hin). right. reflexivity. }
  destruct (first_occurrence_split 125 (rev x) (rev y) (rev a) (rev b)) as [E1 E2];
    auto.
  split; apply rev_inj; assumption.
Qed.

Lemma key_suffix_no_brace payload :
  Forall (fun c => ~ brace c) (lit ":" ++ b64encode payload).
Proof.
  constructor; [unfold brace; simpl; lia | apply b64encode_no_brace].
Qed.

Lemma full_prefix_split self :
  get_full_prefix self
  = (lit "{" ++ prefix self ++ lit ":"
     ++ match namespace self with Some ns => ns | None => lit "None" end)
    ++ lit "}".
Proof. unfold get_full_prefix. rewrite <- !app_assoc. reflexivity. Qed.

(** X8.  Namespaces keep caches apart: under one prefix, an entry key of one
    decorator is an entry key of another only if the two have the same
    namespace, and it is never the index key ([keys_key]) of a decorator with
    another namespace. *)
Theorem namespaces_keep_keys_apart d1 d2 ns1 ns2 args1 kwargs1 key :
  prefix d1 = prefix d2 ->
  namespace d1 = Some ns1 ->
  namespace d2 = Some ns2 ->
  get_key d1 args1 kwargs1 = Ok key ->
  (forall args2 kwargs2, get_key d2 args2 kwargs2 = Ok key -> ns1 = ns2)
  /\ (key = get_full_prefix d2 ++ lit ":keys" -> ns1 = ns2).
Proof.
  intros Hp Hn1 Hn2 Hk1.
  destruct (get_key_shape d1 args1 kwargs1 key Hk1) as (n1 & s1 & p1 & _ & _ & E1).
  rewrite full_prefix_split, Hn1 in E1. rewrite <- app_assoc in E1.
  assert (Hcut : forall x, Forall (fun c => ~ brace c) x ->
            key = get_full_prefix d2 ++ x -> ns1 = ns2).
  { intros x Hx E2. rewrite full_prefix_split, Hn2 in E2.
    rewrite <- app_assoc in E2. rewrite E1 in E2.
    apply last_brace_split in E2 as [E _];
      [| apply key_suffix_no_brace | exact Hx].
    rewrite Hp in E. apply app_inv_head in E. apply app_inv_head in E.
    apply app_inv_head in E. exact E. }
  split.
  - intros args2 kwargs2 Hk2.
    destruct (get_key_shape d2 args2 kwargs2 key Hk2) as (n2 & s2 & p2 & _ & _ & E2).
    apply (Hcut (lit ":" ++ b64encode p2)); [apply key_suffix_no_brace | exact E2].
  - apply Hcut. repeat constructor; unfold brace; simpl; lia.
Qed.

(** The sextet behind the letter [k]. *)
Lemma b64_char_k i : b64_char i = 107 -> N.land i 63 = 36.
Proof.
  unfold b64_char.
  assert (Hi : N.land i 63 < 64).
  { change 63 with (N.ones 6). rewrite N.land_ones. apply N.mod_lt. discriminate. }
  destruct (N.ltb_spec (N.land i 63) 26); [lia|].
  destruct (N.ltb_spec (N.land i 63) 52); [lia|].
  destruct (N.ltb_spec (N.land i 63) 62); [lia|].
  destruct (N.eqb_spec (N.land i 63) 62); lia.
Qed.

Lemma small_testbit c n : c < 2 ^ n -> N.testbit c n = false.
Proof.
  intros H. destruct (N.eq_dec c 0) as [->|Hc]; [apply N.bits_0|].
  apply N.bits_above_log2. apply N.log2_lt_pow2; lia.
Qed.

(** The first octet of a UTF-8 text is no continuation octet (10xxxxxx). *)
Lemma utf8_char_head c chunk :
  utf8_char c = Ok chunk ->
  exists a rest, chunk = a :: rest
                 /\ (N.testbit a 7 = false \/ N.testbit a 6 = true).
Proof.
  unfold utf8_char.
  destruct (N.ltb_spec c 128).
  { intros [= <-]. exists c, []. split; [reflexivity|]. left.
    apply small_testbit. simpl. lia. }
  assert (Hlor : forall x y, N.testbit x 6 = true -> N.testbit (N.lor x y) 6 = true)
    by (intros x y Hx; rewrite N.lor_spec, Hx; reflexivity).
  destruct (c <? 2048).
  { intros [= <-]. eexists _, _. split; [reflexivity|]. right. apply Hlor. reflexivity. }
  destruct (c <? 65536).
  { destruct ((55296 <=? c) && (c <=? 57343)); [discriminate|].
    intros [= <-]. eexists _, _. split; [reflexivity|]. right. apply Hlor. reflexivity. }
  destruct (c <? 1114112); [|discriminate].
  intros [= <-]. eexists _, _. split; [reflexivity|]. right. apply Hlor. reflexivity.
Qed.

Lemma encode_utf8_head text payload :
  encode_utf8 text = Ok payload ->
  payload = []
  \/ exists a rest, payload = a :: rest
                    /\ (N.testbit a 7 = false \/ N.testbit a 6 = true).
Proof.
  unfold encode_utf8. destruct text as [|c text]; simpl.
  - intros [= <-]. left. reflexivity.
  - destruct (utf8_char c) as [chunk|] eqn:Hc; [|discriminate]. simpl.
    destruct (sequence (map utf8_char text)) as [chunks|]; [|discriminate].
    simpl. intros [= <-]. right.
    destruct (utf8_char_head c chunk Hc) as (a & rest & -> & Ha).
    exists a, (rest ++ concat chunks). auto.
Qed.

Lemma b64encode_keys payload :
  b64encode payload = lit "keys" ->
  exists a rest, payload = a :: rest
                 /\ N.testbit a 7 = true /\ N.testbit a 6 = false.
Proof.
  destruct payload as [|a [|b [|c rest]]]; simpl; try discriminate;
    intros H; injection H as H _; apply b64_char_k in H;
    (eexists _, _; split; [reflexivity|]);
    (split;
     [ assert (E : N.testbit (N.land (N.shiftr a 2) 63) 5 = true)
         by (rewrite H; reflexivity);
       rewrite N.land_spec, N.shiftr_spec in E by lia;
       apply andb_true_iff in E as [E _]; exact E
     | assert (E : N.testbit (N.land (N.shiftr a 2) 63) 4 = false)
         by (rewrite H; reflexivity);
       rewrite N.land_spec, N.shiftr_spec in E by lia;
       change (N.testbit 63 4) with true in E; rewrite andb_true_r in E;
       exact E ]).
Qed.

(** X9.  When the serializer used for keys returns text, no entry key is the
    index key of its own namespace: a write of an entry never lands on the
    sorted set that tracks the entries. *)
Theorem entry_key_is_not_index_key self args kwargs key :
  (forall v d,
     match key_serializer self with
     | Some key_serializer => key_serializer v
     | None => serializer self v
     end = Ok d -> exists text, d = SStr text) ->
  get_key self args kwargs = Ok key ->
  key <> get_full_prefix self ++ lit ":keys".
Proof.
  intros Htext Hkey E.
  destruct (get_key_shape self args kwargs key Hkey) as (n & d & payload & Hd & Hp & ->).
  destruct (Htext _ _ Hd) as [text ->].
  apply app_inv_head in E. injection E as E.
  destruct (b64encode_keys payload E) as (a & rest & -> & H7 & H6).
  destruct (encode_utf8_head text (a :: rest) Hp)
    as [H|(a' & rest' & [= <- <-] & [H|H])]; congruence.
Qed.

(** ** The key loses nothing of the serialized arguments *)

Lemma all_below_spec k : forall f,
  all_below k f = true -> forall n, n < 2 ^ N.of_nat k -> f n = true.
Proof.
  induction k as [|k IH]; intros f H n Hn.
  - simpl in *. assert (n = 0) by lia. subst. exact H.
  - simpl in H. apply andb_true_iff in H as [H0 H1].
    rewrite Nat2N.inj_succ, N.pow_succ_r' in Hn.
    pose proof (N.div_mod n 2 ltac:(discriminate)) as Hdiv.
    assert (Hh : n / 2 < 2 ^ N.of_nat k)
      by (apply N.Div0.div_lt_upper_bound; exact Hn).
    assert (Hm : n mod 2 = 0 \/ n mod 2 = 1).
    { pose proof (N.mod_lt n 2 ltac:(discriminate)) as Hlt.
      revert Hlt. generalize (n mod 2). intros m Hlt. lia. }
    destruct Hm as [Hm|Hm]; rewrite Hm in Hdiv.
    + rewrite Hdiv, N.add_0_r. apply (IH _ H0). exact Hh.
    + rewrite Hdiv. apply (IH _ H1). exact Hh.
Qed.

Lemma b64_index_char i : b64_index (b64_char i) = N.land i 63.
Proof.
  unfold b64_char.
  assert (Hi : N.land i 63 < 64).
  { change 63 with (N.ones 6). rewrite N.land_ones. apply N.mod_lt. discriminate. }
  revert Hi. generalize (N.land i 63) as j. intros j Hj.
  pose proof (all_below_spec 6
    (fun j => b64_index
                (if j <? 26 then 65 + j
                 else if j <? 52 then 97 + (j - 26)
                 else if j <? 62 then 48 + (j - 52)
                 else if j =? 62 then 43 else 47) =? j)
    ltac:(vm_compute; reflexivity) j Hj) as H.
  apply N.eqb_eq in H. exact H.
Qed.

Lemma b64_char_not_pad i : (b64_char i =? b64_pad) = false.
Proof.
  apply N.eqb_neq. pose proof (b64_char_alphabet i) as H.
  unfold b64_alphabet, b64_pad in *. lia.
Qed.

Lemma octet_round_trip_1 a b :
  is_octet a -> is_octet b ->
  N.lor (N.shiftl (N.land (N.shiftr a 2) 63) 2)
        (N.shiftr (N.land (N.lor (N.shiftl (N.land a 3) 4) (N.shiftr b 4)) 63) 4)
  = a.
Proof.
  intros Ha Hb.
  pose proof (all_below_spec 8
    (fun a => all_below 8 (fun b =>
       N.lor (N.shiftl (N.land (N.shiftr a 2) 63) 2)
         (N.shiftr (N.land (N.lor (N.shiftl (N.land a 3) 4) (N.shiftr b 4)) 63) 4)
       =? a))
    ltac:(vm_compute; reflexivity) a Ha) as H.
  apply N.eqb_eq. exact (all_below_spec 8 _ H b Hb).
Qed.

Lemma octet_round_trip_2 a b c :
  is_octet a -> is_octet b -> is_octet c ->
  N.lor (N.shiftl (N.land (N.land (N.lor (N.shiftl (N.land a 3) 4) (N.shiftr b 4)) 63) 15) 4)
        (N.shiftr (N.land (N.lor (N.shiftl (N.land b 15) 2) (N.shiftr c 6)) 63) 2)
  = b.
Proof.
  intros Ha Hb Hc.
  assert (Hh : N.land a 3 < 2 ^ N.of_nat 2).
  { change 3 with (N.ones 2). rewrite N.land_ones. apply N.mod_lt. discriminate. }
  assert (Hy : N.shiftr c 6 < 2 ^ N.of_nat 2).
  { rewrite N.shiftr_div_pow2. apply N.Div0.div_lt_upper_bound.
    unfold is_octet in Hc. simpl. lia. }
  revert Hh Hy. generalize (N.land a 3) as h. generalize (N.shiftr c 6) as y.
  intros y h Hh Hy.
  pose proof (all_below_spec 2
    (fun h => all_below 8 (fun b => all_below 2 (fun y =>
       N.lor (N.shiftl (N.land (N.land (N.lor (N.shiftl h 4) (N.shiftr b 4)) 63) 15) 4)
         (N.shiftr (N.land (N.lor (N.shiftl (N.land b 15) 2) y) 63) 2)
       =? b)))
    ltac:(vm_compute; reflexivity) h Hh) as H.
  apply N.eqb_eq.
  exact (all_below_spec 2 _ (all_below_spec 8 _ H b Hb) y Hy).
Qed.

Lemma octet_round_trip_3 b c :
  is_octet b -> is_octet c ->
  N.lor (N.shiftl (N.land (N.land (N.lor (N.shiftl (N.land b 15) 2) (N.shiftr c 6)) 63) 3) 6)
        (N.land c 63)
  = c.
Proof.
  intros Hb Hc.
  pose proof (all_below_spec 8
    (fun b => all_below 8 (fun c =>
       N.lor (N.shiftl (N.land (N.land (N.lor (N.shiftl (N.land b 15) 2) (N.shiftr c 6)) 63) 3) 6)
         (N.land c 63)
       =? c))
    ltac:(vm_compute; reflexivity) b Hb) as H.
  apply N.eqb_eq. exact (all_below_spec 8 _ H c Hc).
Qed.

(** Decoding gives back the octets that were encoded. *)
Lemma b64decode_b64encode data :
  Forall is_octet data -> b64decode (b64encode data) = data.
Proof.
  assert (H0 : is_octet 0) by (unfold is_octet; lia).
  induction data as [|a|a b|a b c l IH] using list_ind3; intros Hd.
  - reflexivity.
  - apply Forall_cons in Hd as [Ha _].
    cbn [b64encode b64decode]. change (b64_pad =? b64_pad) with true. cbv iota.
    unfold b64_octet1. rewrite !b64_index_char.
    f_equal. pose proof (octet_round_trip_1 a 0 Ha H0) as E.
    rewrite N.shiftr_0_l, N.lor_0_r in E. exact E.
  - apply Forall_cons in Hd as [Ha Hd]. apply Forall_cons in Hd as [Hb _].
    cbn [b64encode b64decode]. rewrite b64_char_not_pad.
    change (b64_pad =? b64_pad) with true. cbv iota.
    unfold b64_octet1, b64_octet2. rewrite !b64_index_char.
    f_equal; [apply octet_round_trip_1; assumption|]. f_equal.
    pose proof (octet_round_trip_2 a b 0 Ha Hb H0) as E.
    rewrite N.shiftr_0_l, N.lor_0_r in E. exact E.
  - apply Forall_cons in Hd as [Ha Hd]. apply Forall_cons in Hd as [Hb Hd].
    apply Forall_cons in Hd as [Hc Hd].
    cbn [b64encode b64decode]. rewrite !b64_char_not_pad.
    unfold b64_octet1, b64_octet2, b64_octet3. rewrite !b64_index_char.
    rewrite (IH Hd).
    f_equal; [apply octet_round_trip_1; assumption|].
    f_equal; [apply octet_round_trip_2; assumption|].
    f_equal. apply octet_round_trip_3; assumption.
Qed.

Lemma split_low c k :
  N.lor (N.shiftl (N.shiftr c k) k) (N.land c (N.ones k)) = c.
Proof. rewrite <- N.ldiff_ones_r. apply N.lor_ldiff_and. Qed.

Lemma recombine2 c :
  N.lor (N.shiftl (N.shiftr c 6) 6) (N.land c 63) = c.
Proof. apply (split_low c 6). Qed.

Lemma recombine3 c :
  N.lor (N.shiftl (N.shiftr c 12) 12)
        (N.lor (N.shiftl (N.land (N.shiftr c 6) 63) 6) (N.land c 63)) = c.
Proof.
  rewrite <- (recombine2 c) at 4.
  rewrite <- (recombine2 (N.shiftr c 6)) at 2.
  rewrite N.shiftr_shiftr, N.shiftl_lor, N.shiftl_shiftl, N.lor_assoc.
  reflexivity.
Qed.

Lemma recombine4 c :
  N.lor (N.shiftl (N.shiftr c 18) 18)
        (N.lor (N.shiftl (N.land (N.shiftr c 12) 63) 12)
               (N.lor (N.shiftl (N.land (N.shiftr c 6) 63) 6) (N.land c 63)))
  = c.
Proof.
  rewrite <- (recombine3 c) at 5.
  rewrite <- (recombine2 (N.shiftr c 12)) at 2.
  rewrite N.shiftr_shiftr, N.shiftl_lor, N.shiftl_shiftl, <- N.lor_assoc.
  reflexivity.
Qed.

Lemma shiftr_below c k n :
  c < 2 ^ (k + n) -> N.shiftr c k < 2 ^ n.
Proof.
  intros H. rewrite N.shiftr_div_pow2. apply N.Div0.div_lt_upper_bound.
  rewrite <- N.pow_add_r. exact H.
Qed.

Lemma land63_below c : N.land c 63 < 2 ^ N.of_nat 6.
Proof. change 63 with (N.ones 6). rewrite N.land_ones. apply N.mod_lt. discriminate. Qed.

(** A continuation octet carries six bits. *)
Lemma utf8_continuation x :
  x < 2 ^ N.of_nat 6 ->
  N.land (N.lor 128 x) 63 = x /\ is_octet (N.lor 128 x).
Proof.
  intros Hx.
  pose proof (all_below_spec 6
    (fun x => (N.land (N.lor 128 x) 63 =? x) && (N.lor 128 x <? 256))
    ltac:(vm_compute; reflexivity) x Hx) as H.
  apply andb_true_iff in H as [H1 H2].
  split; [apply N.eqb_eq; exact H1 | apply N.ltb_lt; exact H2].
Qed.

(** A leading octet carries [k] bits under its mark and tells how many
    octets follow. *)
Lemma utf8_leading (k : nat) (mark mask : N) (following : nat) h :
  all_below k
    (fun h => (N.land (N.lor mark h) mask =? h) && (N.lor mark h <? 256)
              && Nat.eqb (utf8_following (N.lor mark h)) following) = true ->
  h < 2 ^ N.of_nat k ->
  N.land (N.lor mark h) mask = h /\ is_octet (N.lor mark h)
  /\ utf8_following (N.lor mark h) = following.
Proof.
  intros Hall Hh. pose proof (all_below_spec k _ Hall h Hh) as H.
  apply andb_true_iff in H as [H H3]. apply andb_true_iff in H as [H1 H2].
  split; [apply N.eqb_eq; exact H1|].
  split; [apply N.ltb_lt; exact H2 | apply Nat.eqb_eq; exact H3].
Qed.

(** The UTF-8 form of a code point reads back as the code point, is made of
    octets, and its first octet tells its length. *)
Lemma utf8_char_facts c chunk :
  utf8_char c = Ok chunk ->
  utf8_point chunk = c
  /\ Forall is_octet chunk
  /\ exists a rest, chunk = a :: rest /\ length rest = utf8_following a.
Proof.
  unfold utf8_char.
  destruct (N.ltb_spec c 128) as [H1|H1].
  { intros [= <-]. split; [reflexivity|]. split.
    - repeat constructor. unfold is_octet. lia.
    - exists c, []. split; [reflexivity|]. unfold utf8_following.
      destruct (N.ltb_spec c 128); [reflexivity | lia]. }
  destruct (N.ltb_spec c 2048) as [H2|H2].
  { intros [= <-].
    destruct (utf8_leading 5 192 31 1 (N.shiftr c 6) ltac:(vm_compute; reflexivity))
      as (Ea & Oa & Fa); [apply (shiftr_below c 6 5); simpl; lia|].
    destruct (utf8_continuation (N.land c 63) (land63_below c)) as (Eb & Ob).
    split; [|split].
    - unfold utf8_point. rewrite Ea, Eb. apply recombine2.
    - repeat constructor; assumption.
    - eexists _, _. split; [reflexivity|]. rewrite Fa. reflexivity. }
  destruct (N.ltb_spec c 65536) as [H3|H3].
  { destruct ((55296 <=? c) && (c <=? 57343)); [discriminate|].
    intros [= <-].
    destruct (utf8_leading 4 224 15 2 (N.shiftr c 12) ltac:(vm_compute; reflexivity))
      as (Ea & Oa & Fa); [apply (shiftr_below c 12 4); simpl; lia|].
    destruct (utf8_continuation (N.land (N.shiftr c 6) 63) (land63_below _))
      as (Eb & Ob).
    destruct (utf8_continuation (N.land c 63) (land63_below c)) as (Ec & Oc).
    split; [|split].
    - unfold utf8_point. rewrite Ea, Eb, Ec. apply recombine3.
    - repeat constructor; assumption.
    - eexists _, _. split; [reflexivity|]. rewrite Fa. reflexivity. }
  destruct (N.ltb_spec c 1114112) as [H4|H4]; [|discriminate].
  intros [= <-].
  destruct (utf8_leading 3 240 7 3 (N.shiftr c 18) ltac:(vm_compute; reflexivity))
    as (Ea & Oa & Fa); [apply (shiftr_below c 18 3); simpl; lia|].
  destruct (utf8_continuation (N.land (N.shiftr c 12) 63) (land63_below _))
    as (Eb & Ob).
  destruct (utf8_continuation (N.land (N.shiftr c 6) 63) (land63_below _))
    as (Ec & Oc).
  destruct (utf8_continuation (N.land c 63) (land63_below c)) as (Ed & Od).
  split; [|split].
  - unfold utf8_point. rewrite Ea, Eb, Ec, Ed. apply recombine4.
  - repeat constructor; assumption.
  - eexists _, _. split; [reflexivity|]. rewrite Fa. reflexivity.
Qed.

Lemma encode_utf8_cons c text payload :
  encode_utf8 (c :: text) = Ok payload ->
  exists chunk payload',
    utf8_char c = Ok chunk /\ encode_utf8 text = Ok payload'
    /\ payload = chunk ++ payload'.
Proof.
  unfold encode_utf8. simpl.
  destruct (utf8_char c) as [chunk|]; [|discriminate]. simpl.
  destruct (sequence (map utf8_char text)) as [chunks|]; [|discriminate].
  simpl. intros [= <-]. eauto.
Qed.

Lemma encode_utf8_octets text : forall payload,
  encode_utf8 text = Ok payload -> Forall is_octet payload.
Proof.
  induction text as [|c text IH]; intros payload H.
  - injection H as <-. constructor.
  - apply encode_utf8_cons in H as (chunk & p' & Hc & Ht & ->).
    apply Forall_app. split; [apply (utf8_char_facts c chunk Hc) | apply IH; exact Ht].
Qed.

(** Two texts with the same UTF-8 form are the same text. *)
Lemma encode_utf8_inj t1 : forall t2 payload,
  encode_utf8 t1 = Ok payload -> encode_utf8 t2 = Ok payload -> t1 = t2.
Proof.
  induction t1 as [|c1 t1 IH]; intros [|c2 t2] payload H1 H2.
  - reflexivity.
  - injection H1 as <-.
    apply encode_utf8_cons in H2 as (chunk & p' & Hc & _ & E).
    destruct (utf8_char_facts c2 chunk Hc) as (_ & _ & a & r & -> & _). discriminate.
  - injection H2 as <-.
    apply encode_utf8_cons in H1 as (chunk & p' & Hc & _ & E).
    destruct (utf8_char_facts c1 chunk Hc) as (_ & _ & a & r & -> & _). discriminate.
  - apply encode_utf8_cons in H1 as (ch1 & p1 & Hc1 & Ht1 & E1).
    apply encode_utf8_cons in H2 as (ch2 & p2 & Hc2 & Ht2 & E2).
    destruct (utf8_char_facts c1 ch1 Hc1) as (Hp1 & _ & a1 & r1 & -> & Hl1).
    destruct (utf8_char_facts c2 ch2 Hc2) as (Hp2 & _ & a2 & r2 & -> & Hl2).
    rewrite E1 in E2. simpl in E2. injection E2 as Ea E2. subst a2.
    apply app_inj_1 in E2 as [-> ->]; [|congruence].
    f_equal; [congruence|]. apply (IH t2 p2); assumption.
Qed.

Lemma b64encode_inj p1 p2 :
  Forall is_octet p1 -> Forall is_octet p2 ->
  b64encode p1 = b64encode p2 -> p1 = p2.
Proof.
  intros H1 H2 E. rewrite <- (b64decode_b64encode p1 H1), E.
  apply b64decode_b64encode. exact H2.
Qed.

(** X10.  The key loses nothing of the serialized arguments: when the
    serializer used for keys returns text, two calls of one decorated
    function get the same key only if their normalized argument maps
    serialize to the same text. *)
Theorem equal_keys_equal_text self fn args1 kwargs1 args2 kwargs2 n1 n2 t1 t2 key :
  original_fn self = Some fn ->
  get_args (fn_signature fn) args1 kwargs1 = Ok n1 ->
  get_args (fn_signature fn) args2 kwargs2 = Ok n2 ->
  match key_serializer self with
  | Some key_serializer => key_serializer (VDict n1)
  | None => serializer self (VDict n1)
  end = Ok (SStr t1) ->
  match key_serializer self with
  | Some key_serializer => key_serializer (VDict n2)
  | None => serializer self (VDict n2)
  end = Ok (SStr t2) ->
  get_key self args1 kwargs1 = Ok key ->
  get_key self args2 kwargs2 = Ok key ->
  t1 = t2.
Proof.
  intros Hfn Hn1 Hn2 Hs1 Hs2 Hk1 Hk2.
  unfold get_key in Hk1, Hk2. rewrite Hfn in Hk1, Hk2.
  rewrite Hn1 in Hk1. rewrite Hn2 in Hk2. cbn [rbind] in Hk1, Hk2.
  rewrite Hs1 in Hk1. rewrite Hs2 in Hk2. cbn [rbind] in Hk1, Hk2.
  destruct (encode_utf8 t1) as [p1|] eqn:E1; [|discriminate].
  destruct (encode_utf8 t2) as [p2|] eqn:E2; [|discriminate].
  cbn [rbind] in Hk1, Hk2. rewrite <- Hk2 in Hk1. injection Hk1 as E.
  apply app_inv_head in E. injection E as E. unfold decode_ascii in E.
  apply b64encode_inj in E;
    [| eapply encode_utf8_octets; eassumption | eapply encode_utf8_octets; eassumption].
  subst p2. apply (encode_utf8_inj t1 t2 p1); assumption.
Qed.

(** X11.  With a serializer that returns octets, two calls get the same key
    only if the serialized octets are the same. *)
Theorem equal_keys_equal_octets self fn args1 kwargs1 args2 kwargs2 n1 n2 b1 b2 key :
  original_fn self = Some fn ->
  get_args (fn_signature fn) args1 kwargs1 = Ok n1 ->
  get_args (fn_signature fn) args2 kwargs2 = Ok n2 ->
  match key_serializer self with
  | Some key_serializer => key_serializer (VDict n1)
  | None => serializer self (VDict n1)
  end = Ok (SBytes b1) ->
  match key_serializer self with
  | Some key_serializer => key_serializer (VDict n2)
  | None => serializer self (VDict n2)
  end = Ok (SBytes b2) ->
  Forall is_octet b1 -> Forall is_octet b2 ->
  get_key self args1 kwargs1 = Ok key ->
  get_key self args2 kwargs2 = Ok key ->
  b1 = b2.
Proof.
  intros Hfn Hn1 Hn2 Hs1 Hs2 Ho1 Ho2 Hk1 Hk2.
  unfold get_key in Hk1, Hk2. rewrite Hfn in Hk1, Hk2.
  rewrite Hn1 in Hk1. rewrite Hn2 in Hk2. cbn [rbind] in Hk1, Hk2.
  rewrite Hs1 in Hk1. rewrite Hs2 in Hk2. cbn [rbind] in Hk1, Hk2.
  rewrite <- Hk2 in Hk1. injection Hk1 as E.
  apply app_inv_head in E. injection E as E. unfold decode_ascii in E.
  apply b64encode_inj in E; assumption.
Qed.








End KeysMore.

(* ===================================================================== *)
(** * Batching: [chunks] *)
(* ===================================================================== *)

Section ChunksFacts.

Local Open Scope Z_scope.

Context {A : Type}.

Lemma take_next_firstn (n : nat) (l : list A) :
  take_next n l = (firstn n l, skipn n l).
Proof.
  revert l. induction n as [|n IH]; intros [|x l]; simpl; try reflexivity.
  rewrite IH. reflexivity.
Qed.

(** With enough fuel the loop of [chunks] cuts the list every [S m]
    elements. *)
Lemma chunks_loop_cons (fuel : nat) (n : Z) (x : A) (l : list A) :
  chunks_loop (S fuel) n (x :: l)
  = match Z.to_nat n with
    | O => []
    | S m => (x :: firstn m l) :: chunks_loop fuel n (skipn m l)
    end.
Proof.
  simpl. rewrite take_next_firstn. destruct (Z.to_nat n); reflexivity.
Qed.

Lemma chunks_loop_nil (fuel : nat) (n : Z) :
  chunks_loop fuel n ([] : list A) = [].
Proof.
  destruct fuel; simpl; [reflexivity|].
  rewrite take_next_firstn. destruct (Z.to_nat n); reflexivity.
Qed.

Lemma chunks_loop_concat (fuel : nat) (n : Z) (l : list A) :
  0 < n -> (length l < fuel)%nat -> concat (chunks_loop fuel n l) = l.
Proof.
  intros Hn. revert l. induction fuel as [|fuel IH]; intros l Hl; [lia|].
  destruct l as [|x l]; [rewrite chunks_loop_nil; reflexivity|].
  rewrite chunks_loop_cons. destruct (Z.to_nat n) as [|m] eqn:E; [lia|].
  simpl concat. rewrite IH.
  - simpl. rewrite firstn_skipn. reflexivity.
  - rewrite length_skipn. simpl in Hl. lia.
Qed.

(** X12.  For a positive size, [chunks] loses nothing and keeps the order:
    the chunks it yields, put end to end, are the elements of the iterable. *)
Theorem chunks_concat (iterable : list A) (n : Z) :
  0 < n -> concat (chunks iterable n) = iterable.
Proof.
  intros Hn. unfold chunks. apply chunks_loop_concat; [exact Hn | lia].
Qed.

Lemma chunks_loop_nth (fuel : nat) (n : Z) (l : list A) (i : nat) (c : list A) :
  0 < n -> (length l < fuel)%nat ->
  nth_error (chunks_loop fuel n l) i = Some c
  <-> (i * Z.to_nat n < length l)%nat
      /\ c = firstn (Z.to_nat n) (skipn (i * Z.to_nat n) l).
Proof.
  intros Hn. revert l i. induction fuel as [|fuel IH]; intros l i Hl; [lia|].
  destruct l as [|x l].
  { rewrite chunks_loop_nil. simpl. split.
    - destruct i; discriminate.
    - intros [H _]. lia. }
  rewrite chunks_loop_cons. destruct (Z.to_nat n) as [|m] eqn:E; [lia|].
  destruct i as [|i].
  { simpl. split.
    - intros [= <-]. split; [lia | reflexivity].
    - intros [_ ->]. reflexivity. }
  change (nth_error (_ :: ?t) (S i)) with (nth_error t i).
  rewrite IH by (rewrite length_skipn; simpl in Hl; lia).
  rewrite length_skipn.
  replace (S i * S m)%nat with (S (i * S m + m))%nat by lia.
  change (skipn (S (i * S m + m)) (x :: l)) with (skipn (i * S m + m) l).
  rewrite <- (skipn_skipn (i * S m) m l).
  simpl length. split; intros [H ->]; (split; [lia | reflexivity]).
Qed.

(** X13.  For a positive size [n], the [i]-th chunk is made of the elements
    [i * n] to [(i + 1) * n - 1] of the iterable, as far as there are any:
    every chunk but the last has [n] elements, the last has between one and
    [n], and no chunk is empty. *)
Theorem chunks_nth (iterable : list A) (n : Z) (i : nat) (c : list A) :
  0 < n ->
  nth_error (chunks iterable n) i = Some c
  <-> (i * Z.to_nat n < length iterable)%nat
      /\ c = firstn (Z.to_nat n) (skipn (i * Z.to_nat n) iterable).
Proof.
  intros Hn. unfold chunks. apply chunks_loop_nth; [exact Hn | lia].
Qed.

(** X14.  For a size of zero or less, [chunks] yields nothing, whatever the
    iterable holds. *)
Theorem chunks_nonpositive (iterable : list A) (n : Z) :
  n <= 0 -> chunks iterable n = [].
Proof.
  intros Hn. unfold chunks. cbn [chunks_loop]. rewrite take_next_firstn.
  replace (Z.to_nat n) with O by lia. reflexivity.
Qed.

(** No chunk is empty, for any size. *)
Lemma chunks_loop_nonempty (fuel : nat) (n : Z) (l : list A) :
  Forall (fun c => c <> []) (chunks_loop fuel n l).
Proof.
  revert l. induction fuel as [|fuel IH]; intros l; simpl; [constructor|].
  rewrite take_next_firstn.
  destruct (firstn (Z.to_nat n) l) eqn:E; constructor; [discriminate | apply IH].
Qed.

End ChunksFacts.

(* ===================================================================== *)
(** * Invalidation of one entry *)
(* ===================================================================== *)

Section InvalidateFacts.

Local Open Scope Z_scope.

(** A round trip that reaches the server runs its command there. *)
Lemma round_trip_reached {A} (c : cmd A) w :
  hd None (faults w) = None ->
  round_trip c w
  = (fst (c (srv w)),
     {| srv := snd (c (srv w)); faults := tl (faults w); calls := calls w;
        has_lua_cache_fn := has_lua_cache_fn w |}).
Proof.
  intros H. unfold round_trip.
  destruct (faults w) as [|[e|] rest]; simpl in H; try discriminate;
    destruct (c (srv w)); reflexivity.
Qed.

(** A round trip leaves the server as it was or as its command leaves it,
    and calls no wrapped function. *)
Lemma round_trip_frame {A} (c : cmd A) w :
  calls (snd (round_trip c w)) = calls w
  /\ has_lua_cache_fn (snd (round_trip c w)) = has_lua_cache_fn w
  /\ (srv (snd (round_trip c w)) = srv w
      \/ srv (snd (round_trip c w)) = snd (c (srv w))).
Proof.
  unfold round_trip. destruct (faults w) as [|[e|] rest]; simpl;
    try (destruct (c (srv w)); simpl); auto.
Qed.

Lemma zremove_one_members key z :
  map fst (zremove [key] z)
  = List.filter (fun m => negb (str_eqb m key)) (map fst z).
Proof.
  induction z as [|[m sc] z IH]; [reflexivity|].
  change (zremove [key] ((m, sc) :: z))
    with (if negb (str_eqb m key || false) then (m, sc) :: zremove [key] z
          else zremove [key] z).
  rewrite orb_false_r. cbn [map fst List.filter].
  destruct (str_eqb m key); cbn [negb map fst]; rewrite IH; reflexivity.
Qed.

(** What the two commands of [invalidate] do to the server. *)
Lemma invalidate_pipeline key kk s :
  let r := fst (run_pipeline [del [key]; zrem kk [key]] s) in
  let s' := snd (run_pipeline [del [key]; zrem kk [key]] s) in
  now s' = now s
  /\ log s' = log s ++ [DEL [key]; ZREM kk [key]]
  /\ db s' !! key = None
  /\ (forall k, k <> key -> k <> kk -> db s' !! k = db s !! k)
  /\ index_members kk s'
     = (if bool_decide (key = kk) then []
        else List.filter (fun m => negb (str_eqb m key)) (index_members kk s))
  /\ ((forall e, lookup kk s = Some e -> exists z, payload e = RZset z) ->
      r = Ok tt).
Proof.
  cbn zeta.
  set (s1 := with_db (logged (DEL [key]) s) (delete key (db s))).
  assert (Hrun : run_pipeline [del [key]; zrem kk [key]] s
                 = (rbind (fst (zrem kk [key] s1)) (fun _ => Ok tt),
                    snd (zrem kk [key] s1))).
  { unfold run_pipeline. change (del [key] s) with (Ok (A:=Z)
      (Z.of_nat (length (List.filter
         (fun k => bool_decide (is_Some (lookup k (logged (DEL [key]) s))))
         [key]))), s1).
    cbv iota beta. destruct (zrem kk [key] s1) as [[n|e] s2]; reflexivity. }
  rewrite Hrun. clear Hrun.
  assert (Hlog1 : log s1 ++ [ZREM kk [key]] = log s ++ [DEL [key]; ZREM kk [key]]).
  { simpl. rewrite <- app_assoc. reflexivity. }
  assert (Hlk : lookup kk (logged (ZREM kk [key]) s1)
                = if bool_decide (key = kk) then None else lookup kk s).
  { unfold lookup. simpl. case_bool_decide as E.
    - subst. rewrite lookup_delete_eq. reflexivity.
    - rewrite lookup_delete_ne by congruence. reflexivity. }
  unfold zrem. cbv zeta.
  rewrite Hlk. case_bool_decide as E.
  { subst kk. simpl. split; [reflexivity|]. split; [exact Hlog1|].
    split; [apply lookup_delete_eq|].
    split; [intros k Hk _; apply lookup_delete_ne; congruence|].
    split; [|reflexivity].
    unfold index_members, lookup. simpl. rewrite lookup_delete_eq. reflexivity. }
  destruct (lookup kk s) as [e|] eqn:El.
  2: { simpl. split; [reflexivity|]. split; [exact Hlog1|].
       split; [apply lookup_delete_eq|].
       split; [intros k Hk _; apply lookup_delete_ne; congruence|].
       split; [|reflexivity].
       rewrite (index_members_same kk s (logged (ZREM kk [key]) s1));
         [|reflexivity|].
       - rewrite index_members_lookup, El. reflexivity.
       - simpl. apply lookup_delete_ne. congruence. }
  destruct (payload e) as [v|z] eqn:Ep.
  { simpl. split; [reflexivity|]. split; [exact Hlog1|].
    split; [apply lookup_delete_eq|].
    split; [intros k Hk _; apply lookup_delete_ne; congruence|].
    split.
    - rewrite (index_members_same kk s (logged (ZREM kk [key]) s1));
         [|reflexivity|].
      + rewrite index_members_lookup, El, Ep. reflexivity.
      + simpl. apply lookup_delete_ne. congruence.
    - intros H. destruct (H e eq_refl) as [z Hz]. congruence. }
  simpl. split; [reflexivity|]. split; [exact Hlog1|].
  split; [rewrite store_zset_other by congruence; apply lookup_delete_eq|].
  split.
  { intros k Hk Hk'. rewrite store_zset_other by congruence.
    apply lookup_delete_ne. congruence. }
  split; [|reflexivity].
  rewrite (index_members_lookup kk s), El, Ep, <- zremove_one_members.
  apply (index_members_stored kk (zremove [key] z) (expire_at e)
           (logged (ZREM kk [key]) s1));
    [reflexivity | reflexivity |].
  apply lookup_live in El. exact El.
Qed.

Lemma invalidate_unfold self args kwargs key kk w :
  get_key self args kwargs = Ok key ->
  keys_key self = Some kk ->
  invalidate self args kwargs w
  = round_trip (run_pipeline [del [key]; zrem kk [key]]) w.
Proof.
  intros Hkey Hkk. unfold invalidate, bind, lift. rewrite Hkey, Hkk.
  reflexivity.
Qed.

(** X15.  [invalidate], when it reaches the server, removes the entry of the
    call from the store and its key from the index of the namespace, whether
    the entry was there or not; it sends one [DEL] and one [ZREM], leaves all
    other keys and the other members of the index as they were, and calls
    no wrapped function.  It returns normally unless the index key holds a
    string. *)
Theorem invalidate_removes_entry self args kwargs key kk w :
  get_key self args kwargs = Ok key ->
  keys_key self = Some kk ->
  hd None (faults w) = None ->
  let w' := snd (invalidate self args kwargs w) in
  db (srv w') !! key = None
  /\ ~ In key (index_members kk (srv w'))
  /\ (key <> kk ->
      index_members kk (srv w')
      = List.filter (fun m => negb (str_eqb m key)) (index_members kk (srv w)))
  /\ (forall k, k <> key -> k <> kk -> db (srv w') !! k = db (srv w) !! k)
  /\ log (srv w') = log (srv w) ++ [DEL [key]; ZREM kk [key]]
  /\ calls w' = calls w
  /\ ((forall e, lookup kk (srv w) = Some e -> exists z, payload e = RZset z) ->
      fst (invalidate self args kwargs w) = Ok tt).
Proof.
  intros Hkey Hkk Hf. cbn zeta.
  rewrite (invalidate_unfold _ _ _ _ _ _ Hkey Hkk), (round_trip_reached _ _ Hf).
  cbn [fst snd srv calls].
  destruct (invalidate_pipeline key kk (srv w)) as (_ & Hlog & Hgone & Hothers & Hidx & Hok).
  split; [exact Hgone|]. split.
  { rewrite Hidx. case_bool_decide as E; [intros []|].
    intros Hin. apply filter_In in Hin as [_ Hin].
    rewrite str_eqb_refl in Hin. discriminate. }
  split.
  { intros Hne. rewrite Hidx. rewrite bool_decide_false by exact Hne. reflexivity. }
  split; [exact Hothers|]. split; [exact Hlog|]. split; [reflexivity | exact Hok].
Qed.

Lemma invalidate_server self args kwargs w :
  srv (snd (invalidate self args kwargs w)) = srv w
  \/ exists key kk,
       keys_key self = Some kk
       /\ srv (snd (invalidate self args kwargs w))
          = snd (run_pipeline [del [key]; zrem kk [key]] (srv w)).
Proof.
  unfold invalidate, bind, lift.
  destruct (get_key self args kwargs) as [key|e]; [|left; reflexivity].
  destruct (keys_key self) as [kk|]; [|left; reflexivity].
  destruct (round_trip_frame (run_pipeline [del [key]; zrem kk [key]]) w)
    as (_ & _ & [H|H]); [left; exact H|].
  right. exists key, kk. split; [reflexivity | exact H].
Qed.

Lemma entry_not_index m kk s :
  In m (index_members kk s) ->
  forall e, db s !! kk = Some e -> is_entry e -> False.
Proof.
  intros Hin e He [v Hv]. rewrite index_members_lookup in Hin.
  destruct (lookup kk s) as [e'|] eqn:El; [|destruct Hin].
  apply lookup_db in El. rewrite He in El. injection El as <-.
  rewrite Hv in Hin. destruct Hin.
Qed.

Lemma entry_exists_db m s :
  entry_exists m s = true ->
  exists e, db s !! m = Some e /\ is_entry e /\ live (now s) e = true.
Proof.
  unfold entry_exists. destruct (lookup m s) as [e|] eqn:El; [|discriminate].
  intros H. exists e. split; [apply lookup_db; exact El|].
  split; [|apply (lookup_live _ _ _ El)].
  destruct e as [[v|z] ex]; [exists v; reflexivity | discriminate].
Qed.

Lemma entry_exists_same m s s' :
  now s' = now s -> db s' !! m = db s !! m ->
  entry_exists m s' = entry_exists m s.
Proof.
  intros Hnow Hdb. unfold entry_exists. rewrite (lookup_same m s s' Hnow Hdb).
  reflexivity.
Qed.

(** X16.  [invalidate] keeps the index in step with the store: if every key
    of the index has its entry before, so it is after, and likewise if every
    key of the index has an entry that is there unless its time has run
    out.  This holds whether or not the server was reached. *)
Theorem invalidate_keeps_index_backed self args kwargs kk w :
  keys_key self = Some kk ->
  let w' := snd (invalidate self args kwargs w) in
  (index_backed kk (srv w) -> index_backed kk (srv w'))
  /\ (backed_unless_expired kk (srv w) -> backed_unless_expired kk (srv w')).
Proof.
  intros Hkk. cbn zeta.
  destruct (invalidate_server self args kwargs w) as [->|(key & kk' & Hkk' & ->)];
    [split; auto|].
  rewrite Hkk in Hkk'. injection Hkk' as <-.
  destruct (invalidate_pipeline key kk (srv w))
    as (Hnow & _ & _ & Hothers & Hidx & _).
  cbn zeta in *.
  set (s' := snd (run_pipeline [del [key]; zrem kk [key]] (srv w))) in *.
  assert (Hmem : forall m, In m (index_members kk s') ->
                   m <> key /\ In m (index_members kk (srv w))).
  { intros m Hin. rewrite Hidx in Hin. case_bool_decide as E; [destruct Hin|].
    apply filter_In in Hin as [Hin Hne]. split; [|exact Hin].
    intros ->. rewrite str_eqb_refl in Hne. discriminate. }
  split.
  - intros Hb m Hin. destruct (Hmem m Hin) as [Hne Hin0].
    specialize (Hb m Hin0).
    rewrite (entry_exists_same m (srv w) s'); [exact Hb | exact Hnow |].
    apply Hothers; [exact Hne|]. intros ->.
    destruct (entry_exists_db _ _ Hb) as (e & He & Hent & _).
    exact (entry_not_index _ _ _ Hin0 e He Hent).
  - intros Hb m Hin. destruct (Hmem m Hin) as [Hne Hin0].
    assert (Hkeep : db s' !! m = db (srv w) !! m).
    { apply Hothers; [exact Hne|]. intros ->.
      destruct (Hb kk Hin0) as [Hex|(e & t & He & Hent & _)].
      - destruct (entry_exists_db _ _ Hex) as (e & He & Hent & _).
        exact (entry_not_index _ _ _ Hin0 e He Hent).
      - exact (entry_not_index _ _ _ Hin0 e He Hent). }
    destruct (Hb m Hin0) as [Hex|(e & t & He & Hent & Ht & Hle)].
    + left. rewrite (entry_exists_same m (srv w) s'); assumption.
    + right. exists e, t. rewrite Hkeep, Hnow. auto.
Qed.

(** The path of [inner] after a miss calls the function once; a value it
    returns is the one the function computed. *)
Lemma miss_path self fn args kwargs key w :
  let m :=
    bind (call_fn fn args kwargs) (fun result =>
    bind (lift (serializer self result)) (fun result_serialized =>
    bind (run_script key (keys_key self) result_serialized
                     (ttl self) (limit self)) (fun _ =>
    ret result))) in
  calls (snd (m w))
  = calls w ++ [{| called := fn_qualname fn; call_args := args;
                   call_kwargs := kwargs |}]
  /\ (forall v, fst (m w) = Ok v -> fn_body fn args kwargs = Ok v)
  /\ (forall e, fn_body fn args kwargs = Raise e ->
        fst (m w) = Raise e /\ srv (snd (m w)) = srv w).
Proof.
  cbn zeta. unfold bind, call_fn, lift, run_script, get_cache_lua_fn, ret.
  destruct (fn_body fn args kwargs) as [v|e].
  2: { cbn. split; [reflexivity|]. split; [intros; discriminate|].
       intros e' [= <-]. split; reflexivity. }
  destruct (serializer self v) as [ser|e].
  2: { cbn. split; [reflexivity|]. split; intros; discriminate. }
  destruct (keys_key self) as [kk|].
  2: { cbn. split; [reflexivity|]. split; intros; discriminate. }
  destruct (wire ser) as [p|e].
  2: { cbn. split; [reflexivity|]. split; intros; discriminate. }
  unfold bind, lift. cbv beta iota.
  match goal with |- context [round_trip ?c ?w0] =>
    pose proof (round_trip_frame c w0) as (Hc & _ & _);
    destruct (round_trip c w0) as [[[]|e] w2] end; cbn in *.
  - split; [exact Hc|]. split; [intros ? [= <-]; reflexivity | intros; discriminate].
  - split; [exact Hc|]. split; intros; discriminate.
Qed.

(** X17.  After [invalidate] the next call of the wrapped function with the
    same arguments does not use the cache: the function is called once more,
    and what the call returns, if it returns, is what the function computed
    now. *)
Theorem invalidate_then_call_recomputes self fn args kwargs key kk w :
  get_key self args kwargs = Ok key ->
  keys_key self = Some kk ->
  faults w = [] ->
  let w1 := snd (invalidate self args kwargs w) in
  let w2 := snd (inner self fn args kwargs w1) in
  calls w2 = calls w ++ [{| called := fn_qualname fn; call_args := args;
                            call_kwargs := kwargs |}]
  /\ (forall v, fst (inner self fn args kwargs w1) = Ok v ->
        fn_body fn args kwargs = Ok v)
  /\ (forall e, fn_body fn args kwargs = Raise e ->
        fst (inner self fn args kwargs w1) = Raise e).
Proof.
  intros Hkey Hkk Hf. cbn zeta.
  rewrite (invalidate_unfold _ _ _ _ _ _ Hkey Hkk).
  rewrite round_trip_reached by (rewrite Hf; reflexivity).
  cbn [snd].
  destruct (invalidate_pipeline key kk (srv w)) as (_ & _ & Hgone & _).
  cbn zeta in Hgone.
  set (s1 := snd (run_pipeline [del [key]; zrem kk [key]] (srv w))) in *.
  set (w1 := {| srv := s1; faults := tl (faults w); calls := calls w;
                has_lua_cache_fn := has_lua_cache_fn w |}).
  assert (Hget : round_trip (get key) w1
                 = (Ok None,
                    {| srv := logged (GET key) s1; faults := tl (faults w1);
                       calls := calls w1;
                       has_lua_cache_fn := has_lua_cache_fn w1 |})).
  { rewrite round_trip_reached by (unfold w1; rewrite Hf; reflexivity).
    unfold get, lookup. cbn [srv w1 db logged]. rewrite Hgone. reflexivity. }
  rewrite (inner_miss self fn args kwargs key None w1 _ Hkey Hget eq_refl).
  match goal with |- context [snd (?m ?w0)] =>
    destruct (miss_path self fn args kwargs key w0) as (Hc & Hv & He) end.
  cbn zeta in Hc, Hv, He.
  split; [exact Hc|]. split; [exact Hv|].
  intros e Hr. apply (He e Hr).
Qed.

End InvalidateFacts.

(* ===================================================================== *)
(** * Invalidation of a namespace *)
(* ===================================================================== *)

Section InvalidateAllFacts.

Local Open Scope Z_scope.

Lemma starts_with_app p k :
  starts_with p k = true <-> exists rest, k = p ++ rest.
Proof.
  revert k. induction p as [|a p IH]; intros k; simpl.
  - split; [intros _; exists k; reflexivity | reflexivity].
  - destruct k as [|b k].
    + split; [discriminate | intros [rest H]; discriminate].
    + rewrite andb_true_iff, N.eqb_eq, IH. split.
      * intros [-> [rest ->]]. exists rest. reflexivity.
      * intros [rest [= -> ->]]. split; [reflexivity | exists rest; reflexivity].
Qed.

(** What [scan_iter] finds: the keys that exist and match. *)
Lemma scan_iter_found scan_match pattern s k :
  In k (match fst (scan_iter scan_match pattern s) with
        | Ok found => found
        | Raise _ => []
        end)
  <-> is_Some (lookup k s) /\ scan_match pattern k = true.
Proof.
  unfold scan_iter. cbn [fst]. rewrite filter_In, andb_true_iff, bool_decide_eq_true.
  split; [tauto|]. intros [Hs Hm]. split; [|tauto].
  destruct Hs as [e He]. apply lookup_db in He.
  apply in_map_iff. exists (k, e). split; [reflexivity|].
  apply list_elem_of_In, elem_of_map_to_list. exact He.
Qed.

Lemma del_nonempty ks s :
  ks <> [] ->
  exists n, del ks s = (Ok n, with_db (logged (DEL ks) s) (foldr delete (db s) ks)).
Proof.
  intros H. unfold del. destruct ks; [congruence|]. eexists. reflexivity.
Qed.

(** Whatever happens on the way, the loop of [invalidate_all] touches only
    the keys it was given, calls no wrapped function and leaves the clock
    alone. *)
Lemma delete_chunks_frame chunks_gen w :
  let w' := snd (delete_chunks chunks_gen w) in
  now (srv w') = now (srv w)
  /\ calls w' = calls w
  /\ (forall k, ~ In k (concat chunks_gen) ->
        db (srv w') !! k = db (srv w) !! k).
Proof.
  revert w. induction chunks_gen as [|keys chunks_gen IH]; intros w; cbn zeta.
  { simpl. auto. }
  cbn [delete_chunks]. unfold bind.
  destruct (round_trip (del keys) w) as [[n|e] w1] eqn:Hrt.
  - destruct (IH w1) as (Hnow & Hcalls & Hdb). cbn zeta in *.
    destruct (round_trip_frame (del keys) w) as (Hc1 & _ & Hs1).
    rewrite Hrt in Hc1, Hs1. cbn [snd] in Hc1, Hs1.
    assert (Hdel : now (srv w1) = now (srv w)
                   /\ forall k, ~ In k keys -> db (srv w1) !! k = db (srv w) !! k).
    { destruct Hs1 as [->| ->]; [auto|].
      destruct (del keys (srv w)) as [r s'] eqn:Hd.
      destruct (del_post keys _ _ _ Hd) as (Hn & Ho & _). auto. }
    destruct Hdel as [Hn1 Ho1].
    split; [congruence|]. split; [congruence|].
    intros k Hk. cbn [concat] in Hk. rewrite in_app_iff in Hk.
    rewrite Hdb by tauto. apply Ho1. tauto.
  - cbn [snd].
    destruct (round_trip_frame (del keys) w) as (Hc1 & _ & Hs1).
    rewrite Hrt in Hc1, Hs1. cbn [snd] in Hc1, Hs1.
    split; [|split; [exact Hc1|]].
    + destruct Hs1 as [->| ->]; [reflexivity|].
      destruct (del keys (srv w)) as [r s'] eqn:Hd.
      destruct (del_post keys _ _ _ Hd) as (Hn & _ & _). exact Hn.
    + intros k Hk. cbn [concat] in Hk. rewrite in_app_iff in Hk.
      destruct Hs1 as [->| ->]; [reflexivity|].
      destruct (del keys (srv w)) as [r s'] eqn:Hd.
      destruct (del_post keys _ _ _ Hd) as (_ & Ho & _). apply Ho. tauto.
Qed.

(** When the server is reached every time and no batch is empty, the loop
    deletes every key it was given and returns. *)
Lemma delete_chunks_reached chunks_gen w :
  faults w = [] ->
  Forall (fun keys => keys <> []) chunks_gen ->
  fst (delete_chunks chunks_gen w) = Ok tt
  /\ forall k, In k (concat chunks_gen) ->
       db (srv (snd (delete_chunks chunks_gen w))) !! k = None.
Proof.
  revert w. induction chunks_gen as [|keys chunks_gen IH]; intros w Hf Hne.
  { split; [reflexivity | intros k []]. }
  apply List.Forall_cons_iff in Hne as [Hk Hne].
  cbn [delete_chunks]. unfold bind.
  rewrite round_trip_reached by (rewrite Hf; reflexivity).
  destruct (del_nonempty keys (srv w) Hk) as [n Hd]. rewrite Hd. cbn [fst snd].
  set (w1 := {| srv := _; faults := _; calls := _; has_lua_cache_fn := _ |}).
  assert (Hf1 : faults w1 = []) by (unfold w1; cbn; rewrite Hf; reflexivity).
  destruct (IH w1 Hf1 Hne) as [Hok Hgone]. split; [exact Hok|].
  intros k Hin. cbn [concat] in Hin. rewrite in_app_iff in Hin.
  destruct (In_dec (List.list_eq_dec N.eq_dec) k (concat chunks_gen)) as [Hc|Hc];
    [apply Hgone; exact Hc|].
  destruct (delete_chunks_frame chunks_gen w1) as (_ & _ & Hdb).
  cbn zeta in Hdb. rewrite (Hdb k Hc). unfold w1. cbn [srv db with_db].
  apply foldr_delete_in. tauto.
Qed.

Lemma invalidate_all_unfold scan_match self w :
  hd None (faults w) = None ->
  invalidate_all scan_match self w
  = delete_chunks
      (chunks (List.filter
                 (fun k => bool_decide (is_Some (lookup k (srv w)))
                           && scan_match (get_full_prefix self ++ lit ":*") k)
                 (map fst (map_to_list (db (srv w))))) 500)
      {| srv := srv w; faults := tl (faults w); calls := calls w;
         has_lua_cache_fn := has_lua_cache_fn w |}.
Proof.
  intros Hf. unfold invalidate_all, bind. rewrite (round_trip_reached _ _ Hf).
  reflexivity.
Qed.

(** The keys [invalidate_all] may touch are among those the scan matches. *)
Lemma invalidate_all_frame scan_match self w :
  let w' := snd (invalidate_all scan_match self w) in
  now (srv w') = now (srv w)
  /\ calls w' = calls w
  /\ (forall k, scan_match (get_full_prefix self ++ lit ":*") k = false ->
        db (srv w') !! k = db (srv w) !! k).
Proof.
  cbn zeta. unfold invalidate_all, bind.
  destruct (round_trip_frame
              (scan_iter scan_match (get_full_prefix self ++ lit ":*")) w)
    as (Hc & _ & Hs).
  assert (Hs' : srv (snd (round_trip
                  (scan_iter scan_match (get_full_prefix self ++ lit ":*")) w))
                = srv w) by (destruct Hs as [H|H]; exact H).
  clear Hs.
  destruct (round_trip (scan_iter scan_match (get_full_prefix self ++ lit ":*")) w)
    as [[found|e] w1] eqn:Hrt; cbn [snd] in *.
  2: { rewrite Hs', Hc. auto. }
  destruct (delete_chunks_frame (chunks found 500) w1) as (Hn & Hcalls & Hdb).
  cbn zeta in *. rewrite Hn, Hcalls, Hs', Hc. split; [reflexivity|].
  split; [reflexivity|]. intros k Hk. rewrite Hdb, Hs'; [reflexivity|].
  unfold chunks. rewrite chunks_loop_concat by lia.
  intros Hin.
  assert (Hfound : In k (match fst (scan_iter scan_match
                     (get_full_prefix self ++ lit ":*") (srv w)) with
                         | Ok found => found | Raise _ => [] end)).
  { unfold round_trip in Hrt. destruct (faults w) as [|[e|] rest];
      try discriminate; cbn in Hrt; injection Hrt as <- _; exact Hin. }
  apply scan_iter_found in Hfound as [_ Hm]. congruence.
Qed.

(** X18.  When the server is reached every time and matches the pattern
    [{prefix:namespace}:*] as the keys that start with [{prefix:namespace}:],
    [invalidate_all] returns normally and leaves no key of the namespace
    behind: none of the keys [get_key] builds for this decorator and not the
    index of the namespace either. *)
Theorem invalidate_all_clears scan_match self w :
  faults w = [] ->
  (forall k, starts_with (get_full_prefix self ++ lit ":") k = true ->
             scan_match (get_full_prefix self ++ lit ":*") k = true) ->
  let w' := snd (invalidate_all scan_match self w) in
  fst (invalidate_all scan_match self w) = Ok tt
  /\ (forall k, starts_with (get_full_prefix self ++ lit ":") k = true ->
        lookup k (srv w') = None)
  /\ (forall args kwargs key, get_key self args kwargs = Ok key ->
        lookup key (srv w') = None)
  /\ lookup (get_full_prefix self ++ lit ":keys") (srv w') = None.
Proof.
  intros Hf Hscan. cbn zeta.
  assert (Hall : fst (invalidate_all scan_match self w) = Ok tt
                 /\ forall k, starts_with (get_full_prefix self ++ lit ":") k = true ->
                      lookup k (srv (snd (invalidate_all scan_match self w))) = None).
  { destruct (invalidate_all_frame scan_match self w) as (Hnow & _ & _).
    cbn zeta in Hnow.
    rewrite invalidate_all_unfold in * by (rewrite Hf; reflexivity).
    set (found := List.filter _ _) in *.
    set (w1 := {| srv := srv w; faults := _; calls := _; has_lua_cache_fn := _ |}) in *.
    assert (Hf1 : faults w1 = []) by (unfold w1; cbn; rewrite Hf; reflexivity).
    destruct (delete_chunks_reached (chunks found 500) w1 Hf1) as [Hok Hgone].
    { apply chunks_loop_nonempty. }
    split; [exact Hok|]. intros k Hk.
    unfold chunks in Hgone at 1. rewrite chunks_loop_concat in Hgone by lia.
    destruct (lookup k (srv w)) as [e|] eqn:El.
    - unfold lookup. rewrite Hgone; [reflexivity|].
      apply (scan_iter_found scan_match (get_full_prefix self ++ lit ":*") (srv w) k).
      split; [rewrite El; eauto | apply Hscan; exact Hk].
    - destruct (delete_chunks_frame (chunks found 500) w1) as (_ & _ & Hdb).
      cbn zeta in Hdb.
      destruct (In_dec (List.list_eq_dec N.eq_dec) k found) as [Hin|Hin].
      + unfold lookup. rewrite Hgone by exact Hin. reflexivity.
      + rewrite <- El. apply lookup_same; [exact Hnow|].
        apply Hdb. unfold chunks. rewrite chunks_loop_concat by lia. exact Hin. }
  destruct Hall as [Hok Hgone]. split; [exact Hok|]. split; [exact Hgone|].
  split.
  - intros args kwargs key Hkey. apply Hgone.
    destruct (get_key_shape self args kwargs key Hkey) as (_ & _ & p & _ & _ & ->).
    apply starts_with_app. exists (b64encode p). rewrite <- app_assoc. reflexivity.
  - apply Hgone. apply starts_with_app. exists (lit "keys").
    rewrite <- app_assoc. reflexivity.
Qed.

(** X19.  Whatever happens on the way, [invalidate_all] changes no key but
    those the server matches against [{prefix:namespace}:*]; it calls no
    wrapped function either. *)
Theorem invalidate_all_spares_unmatched scan_match self w k :
  scan_match (get_full_prefix self ++ lit ":*") k = false ->
  let w' := snd (invalidate_all scan_match self w) in
  db (srv w') !! k = db (srv w) !! k /\ calls w' = calls w.
Proof.
  intros Hk. destruct (invalidate_all_frame scan_match self w) as (_ & Hc & Hdb).
  split; [apply Hdb; exact Hk | exact Hc].
Qed.

Lemma other_namespace_apart d1 d2 ns1 ns2 rest :
  prefix d1 = prefix d2 ->
  namespace d1 = Some ns1 ->
  namespace d2 = Some ns2 ->
  ~ In 125%N ns1 -> ~ In 125%N ns2 -> ns1 <> ns2 ->
  starts_with (get_full_prefix d1 ++ lit ":") (get_full_prefix d2 ++ rest)
  = false.
Proof.
  intros Hp Hn1 Hn2 H1 H2 Hne.
  destruct (starts_with _ _) eqn:E; [|reflexivity].
  apply starts_with_app in E as [r E]. exfalso. apply Hne.
  unfold get_full_prefix in E. rewrite Hn1, Hn2, Hp in E.
  rewrite <- !app_assoc in E.
  apply app_inv_head in E. apply app_inv_head in E. apply app_inv_head in E.
  symmetry.
  apply (first_occurrence_split 125%N ns2 ns1 rest (lit ":" ++ r) H2 H1 E).
Qed.

(** X20.  When the server matches the pattern of a namespace only against
    keys that start with [{prefix:namespace}:], [invalidate_all] of one
    decorator leaves the cache of a decorator with the same prefix and
    another namespace alone — its entries and its index — provided neither
    namespace contains a closing brace. *)
Theorem invalidate_all_spares_other_namespaces scan_match d1 d2 ns1 ns2 w :
  (forall k, scan_match (get_full_prefix d1 ++ lit ":*") k = true ->
             starts_with (get_full_prefix d1 ++ lit ":") k = true) ->
  prefix d1 = prefix d2 ->
  namespace d1 = Some ns1 ->
  namespace d2 = Some ns2 ->
  ~ In 125%N ns1 -> ~ In 125%N ns2 -> ns1 <> ns2 ->
  let w' := snd (invalidate_all scan_match d1 w) in
  (forall args kwargs key, get_key d2 args kwargs = Ok key ->
     db (srv w') !! key = db (srv w) !! key)
  /\ db (srv w') !! (get_full_prefix d2 ++ lit ":keys")
     = db (srv w) !! (get_full_prefix d2 ++ lit ":keys").
Proof.
  intros Hscan Hp Hn1 Hn2 H1 H2 Hne. cbn zeta.
  destruct (invalidate_all_frame scan_match d1 w) as (_ & _ & Hdb).
  cbn zeta in Hdb.
  assert (Hout : forall rest,
            scan_match (get_full_prefix d1 ++ lit ":*")
                       (get_full_prefix d2 ++ rest) = false).
  { intros rest. destruct (scan_match _ _) eqn:E; [|reflexivity].
    apply Hscan in E.
    rewrite (other_namespace_apart d1 d2 ns1 ns2 rest) in E by assumption.
    discriminate. }
  split.
  - intros args kwargs key Hkey.
    destruct (get_key_shape d2 args kwargs key Hkey) as (_ & _ & p & _ & _ & ->).
    apply Hdb, Hout.
  - apply Hdb, Hout.
Qed.

End InvalidateAllFacts.

(* ===================================================================== *)
(** * More on the script: expiry and eviction *)
(* ===================================================================== *)

Section ScriptMore.

Local Open Scope Z_scope.



Lemma zremove_members_iff ms z k :
  In k (map fst (zremove ms z)) <-> In k (map fst z) /\ ~ In k ms.
Proof.
  unfold zremove. rewrite !in_map_iff. split.
  - intros (p & <- & Hp). apply filter_In in Hp as [Hin Hb]. split; [eauto|].
    intros Hms. apply str_in_true in Hms. cbv beta in Hb. rewrite Hms in Hb.
    discriminate.
  - intros [(p & <- & Hp) Hms]. exists p. split; [reflexivity|].
    apply filter_In. split; [exact Hp|].
    destruct (str_in (fst p) ms) eqn:E; [|reflexivity].
    apply str_in_true in E. contradiction.
Qed.

(** What a successful [ZADD] does to the index. *)
Lemma zadd_members idx sc K1 s n s' :
  zadd idx sc K1 s = (Ok n, s') ->
  now s' = now s
  /\ (forall k, k <> idx -> db s' !! k = db s !! k)
  /\ (forall m, In m (index_members idx s')
                <-> m = K1 \/ In m (index_members idx s))
  /\ (length (index_members idx s') <= S (length (index_members idx s)))%nat.
Proof.
  unfold zadd.
  change (lookup idx (logged (ZADD idx sc K1) s)) with (lookup idx s).
  rewrite (index_members_lookup idx s).
  destruct (lookup idx s) as [e|] eqn:Hl.
  - destruct (payload e) as [v|z] eqn:Hp; [discriminate|].
    intros [= _ <-]. cbn [now with_db logged db].
    split; [reflexivity|]. split; [intros k Hk; apply store_zset_other; exact Hk|].
    rewrite (index_members_stored idx (zinsert (K1, sc) (zremove [K1] z))
               (expire_at e) (logged (ZADD idx sc K1) s));
      [|reflexivity|reflexivity|apply lookup_live in Hl; exact Hl].
    split.
    + intros m. rewrite zinsert_members, zremove_members_iff. cbn [fst In].
      destruct (decide (m = K1)) as [->|Hne]; [tauto|].
      split; [tauto|]. intros [?|?]; [tauto|]. right. split; [assumption|].
      intros [?|[]]. congruence.
    + rewrite !length_map, zinsert_length.
      pose proof (zremove_length [K1] z). lia.
  - intros [= _ <-]. cbn [now with_db logged db].
    split; [reflexivity|].
    split; [intros k Hk; apply (store_zset_other idx [(K1, sc)] None); exact Hk|].
    rewrite (index_members_stored idx [(K1, sc)] None (logged (ZADD idx sc K1) s));
      [|reflexivity|reflexivity|reflexivity].
    split; [|simpl; lia].
    intros m. simpl. intuition congruence.
Qed.

(** What a successful [ZREM] does to the index. *)
Lemma zrem_members idx ms s n s' :
  zrem idx ms s = (Ok n, s') ->
  now s' = now s
  /\ (forall k, k <> idx -> db s' !! k = db s !! k)
  /\ (forall m, In m (index_members idx s')
                <-> In m (index_members idx s) /\ ~ In m ms).
Proof.
  unfold zrem. destruct ms as [|m0 ms]; [discriminate|].
  change (lookup idx (logged (ZREM idx (m0 :: ms)) s)) with (lookup idx s).
  rewrite (index_members_lookup idx s).
  destruct (lookup idx s) as [e|] eqn:Hl.
  - destruct (payload e) as [v|z] eqn:Hp; [discriminate|].
    intros [= _ <-]. cbn [now with_db logged db].
    split; [reflexivity|]. split; [intros k Hk; apply store_zset_other; exact Hk|].
    rewrite (index_members_stored idx (zremove (m0 :: ms) z)
               (expire_at e) (logged (ZREM idx (m0 :: ms)) s));
      [|reflexivity|reflexivity|apply lookup_live in Hl; exact Hl].
    intros m. apply zremove_members_iff.
  - intros [= _ <-]. cbn [now logged db].
    split; [reflexivity|]. split; [reflexivity|].
    intros m. unfold index_members.
    change (lookup idx (logged (ZREM idx (m0 :: ms)) s)) with (lookup idx s).
    rewrite Hl. simpl. tauto.
Qed.

Lemma del_gone ks s r s' k :
  del ks s = (r, s') -> In k ks -> db s' !! k = None.
Proof.
  unfold del. destruct ks as [|k0 ks]; [intros _ []|].
  intros [= _ <-] Hin. exact (foldr_delete_in (k0 :: ks) (db s) k Hin).
Qed.

(** X22.  Eviction takes an entry out of the store together with its key
    out of the index.  After a run of the script with a positive limit,
    every key the index held before, and the key just written, is either
    still in the index or gone from the store; the entries of the keys that
    stay in the index are as they were; and nothing is evicted while the
    index holds fewer keys than the limit. *)
Theorem evicted_entries_are_deleted K1 idx v ttl L s :
  0 < L ->
  K1 <> idx ->
  ~ In idx (index_members idx s) ->
  fst (cache_lua_fn K1 idx v ttl L s) = Ok tt ->
  let s' := snd (cache_lua_fn K1 idx v ttl L s) in
  (forall m, In m (K1 :: index_members idx s) ->
     In m (index_members idx s') \/ db s' !! m = None)
  /\ (forall m, In m (index_members idx s') -> m <> K1 ->
        In m (index_members idx s) /\ db s' !! m = db s !! m)
  /\ (Z.of_nat (length (index_members idx s)) < L ->
      forall m, In m (K1 :: index_members idx s) ->
        In m (index_members idx s')).
Proof.
  intros HL Hne Hself. cbn zeta.
  destruct (cache_lua_fn K1 idx v ttl L s) as [r s'] eqn:H. cbn [fst snd].
  intros ->. unfold cache_lua_fn, bind in H. rewrite write_step in H.
  match type of H with
  | context [{| db := ?d; now := ?n; log := ?l |}] =>
      set (s1 := {| db := d; now := n; log := l |}) in *
  end.
  assert (Hm1 : index_members idx s1 = index_members idx s).
  { apply index_members_same; [reflexivity|]. apply lookup_insert_ne. exact Hne. }
  assert (Hd1 : forall k, k <> K1 -> db s1 !! k = db s !! k)
    by (intros k Hk; apply lookup_insert_ne; congruence).
  destruct (L >? 0) eqn:HL'; [|lia].
  rewrite time_step in H.
  match type of H with
  | context [zadd idx ?sc K1 ?st] =>
      destruct (zadd idx sc K1 st) as [r3 s3] eqn:H3
  end.
  destruct r3 as [added|e]; [|discriminate].
  apply zadd_members in H3 as (Hn3 & Hd3 & Hm3 & Hl3).
  change (index_members idx (logged TIME s1)) with (index_members idx s1)
    in Hm3, Hl3.
  rewrite Hm1 in Hm3, Hl3. cbn [db logged] in Hd3.
  destruct (zcount idx s3) as [r4 s4] eqn:H4.
  apply zcount_post in H4 as (Hn4 & Hd4 & Hc4).
  assert (Hm4 : index_members idx s4 = index_members idx s3)
    by (apply index_members_same; [exact Hn4 | rewrite Hd4; reflexivity]).
  destruct r4 as [count|e]; [|discriminate].
  specialize (Hc4 count eq_refl).
  assert (Hold : forall m, In m (index_members idx s4) -> m <> K1 ->
                   In m (index_members idx s) /\ db s4 !! m = db s !! m).
  { intros m Hin HmK. rewrite Hm4 in Hin. apply Hm3 in Hin as [?|Hin]; [tauto|].
    split; [exact Hin|]. rewrite Hd4, Hd3, Hd1; [reflexivity | exact HmK |].
    intros ->. tauto. }
  destruct (count - L >? 0) eqn:Hover.
  2:{ injection H as <-. split; [|split].
      - intros m Hin. left. rewrite Hm4. apply Hm3. simpl in Hin. intuition.
      - exact Hold.
      - intros _ m Hin. rewrite Hm4. apply Hm3. simpl in Hin. intuition. }
  apply Z.gtb_lt in Hover.
  destruct (zpopmin idx (count - L) s4) as [r5 s5] eqn:H5.
  apply zpopmin_post in H5 as (Hn5 & Hf5 & H5).
  destruct r5 as [reply|e]; [|discriminate].
  destruct H5 as [Hm5 Hstale]. rewrite Hstale in H.
  match type of H with
  | context [zrem idx ?ms s5] =>
      set (stale := ms) in *; destruct (zrem idx stale s5) as [r6 s6] eqn:H6
  end.
  destruct r6 as [removed|e]; [|discriminate].
  apply zrem_members in H6 as (Hn6 & Hf6 & Hm6).
  destruct (del stale s6) as [r7 s7] eqn:H7.
  destruct r7 as [deleted|e]; [|discriminate].
  injection H as <-.
  pose proof (del_post _ _ _ _ H7) as (Hn7 & Hkeep7 & _).
  assert (Hstale_in : forall m, In m stale -> In m (index_members idx s4)).
  { intros m Hin. unfold stale in Hin.
    rewrite <- (firstn_skipn (Z.to_nat (count - L)) (index_members idx s4)).
    apply in_or_app. left. exact Hin. }
  assert (Hidx : ~ In idx stale).
  { intros Hin. apply Hstale_in in Hin. rewrite Hm4 in Hin.
    apply Hm3 in Hin as [?|?]; [congruence | tauto]. }
  assert (Hm7 : index_members idx s7 = index_members idx s6)
    by (apply index_members_same; [exact Hn7 | apply Hkeep7; exact Hidx]).
  split; [|split].
  - intros m Hin.
    assert (Hin4 : In m (index_members idx s4)).
    { rewrite Hm4. apply Hm3. simpl in Hin. intuition. }
    destruct (In_dec (List.list_eq_dec N.eq_dec) m stale) as [Hs|Hs].
    + right. apply (del_gone _ _ _ _ _ H7 Hs).
    + left. rewrite Hm7. apply Hm6. split; [|exact Hs]. rewrite Hm5.
      rewrite <- (firstn_skipn (Z.to_nat (count - L)) (index_members idx s4)) in Hin4.
      apply in_app_iff in Hin4 as [Hin4|Hin4]; [contradiction | exact Hin4].
  - intros m Hin HmK. rewrite Hm7 in Hin. apply Hm6 in Hin as [Hin Hs].
    rewrite Hm5 in Hin. apply skipn_In in Hin.
    destruct (Hold m Hin HmK) as [Hin0 Hdb]. split; [exact Hin0|].
    rewrite (Hkeep7 m Hs), Hf6, Hf5; [exact Hdb | |]; intros ->; tauto.
  - intros Hfew. lia.
Qed.





(** ** Keys the index does not hold *)







End ScriptMore.

(* ===================================================================== *)
(** * The scores of the index *)
(* ===================================================================== *)

Section ScoreFacts.

Local Open Scope N_scope.

Lemma decimal_pos_app fuel : forall n acc,
  decimal_pos fuel n acc = decimal_pos fuel n [] ++ acc.
Proof.
  induction fuel as [|fuel IH]; intros n acc; simpl; [reflexivity|].
  destruct (n / 10 =? 0); [reflexivity|].
  rewrite (IH (n / 10) (_ :: acc)), (IH (n / 10) [_]), <- app_assoc.
  reflexivity.
Qed.

(** With enough fuel, a number is below the power of ten of the number of
    digits printed for it. *)
Lemma decimal_pos_bound fuel : forall n,
  n < 2 ^ N.of_nat fuel ->
  n < 10 ^ N.of_nat (length (decimal_pos fuel n [])).
Proof.
  induction fuel as [|fuel IH]; intros n Hn.
  { simpl in *. lia. }
  cbn [decimal_pos]. destruct (N.eqb_spec (n / 10) 0) as [E|E].
  - simpl length. change (10 ^ N.of_nat 1) with 10.
    pose proof (N.div_mod n 10 ltac:(lia)) as Hd.
    pose proof (N.mod_lt n 10 ltac:(lia)). lia.
  - rewrite decimal_pos_app, length_app. simpl length.
    rewrite Nat.add_1_r, Nat2N.inj_succ, N.pow_succ_r'.
    assert (Hq : n / 10 < 2 ^ N.of_nat fuel).
    { rewrite Nat2N.inj_succ, N.pow_succ_r' in Hn.
      apply N.Div0.div_lt_upper_bound. lia. }
    specialize (IH (n / 10) Hq).
    pose proof (N.div_mod n 10 ltac:(lia)) as Hd.
    pose proof (N.mod_lt n 10 ltac:(lia)). lia.
Qed.

(** The fuel beyond what is needed changes nothing. *)
Lemma decimal_pos_fuel fuel : forall fuel' n acc,
  0 < n -> n < 2 ^ N.of_nat fuel -> n < 2 ^ N.of_nat fuel' ->
  decimal_pos fuel n acc = decimal_pos fuel' n acc.
Proof.
  induction fuel as [|fuel IH]; intros fuel' n acc H0 Hn Hn'.
  { simpl in Hn. lia. }
  destruct fuel' as [|fuel'].
  { simpl in Hn'. lia. }
  cbn [decimal_pos]. destruct (N.eqb_spec (n / 10) 0) as [E|E]; [reflexivity|].
  apply IH; [apply N.neq_0_lt_0; exact E | |];
    apply N.Div0.div_lt_upper_bound;
    rewrite Nat2N.inj_succ, N.pow_succ_r' in *; lia.
Qed.

Lemma log2_fuel n : n < 2 ^ N.of_nat (S (N.to_nat (N.log2 n))).
Proof.
  rewrite Nat2N.inj_succ, N2Nat.id.
  destruct (N.eq_dec n 0) as [->|Hn]; [reflexivity|].
  apply N.log2_spec. lia.
Qed.

Lemma decimal_N_bound n : n < 10 ^ N.of_nat (length (decimal_N n)).
Proof. apply decimal_pos_bound, log2_fuel. Qed.

Lemma decimal_N_times_ten n :
  0 < n -> decimal_N (10 * n) = decimal_N n ++ lit "0".
Proof.
  intros Hn. unfold decimal_N.
  set (f := N.to_nat (N.log2 (10 * n))).
  change (decimal_pos (S f) (10 * n) [])
    with (if 10 * n / 10 =? 0 then [digit_char ((10 * n) mod 10)]
          else decimal_pos f (10 * n / 10) [digit_char ((10 * n) mod 10)]).
  replace (10 * n / 10) with n by (rewrite N.mul_comm, N.div_mul; lia).
  replace ((10 * n) mod 10) with 0 by (rewrite N.mul_comm, N.Div0.mod_mul; lia).
  destruct (N.eqb_spec n 0) as [E|E]; [lia|].
  rewrite decimal_pos_app. f_equal.
  apply decimal_pos_fuel; [exact Hn | |apply log2_fuel].
  pose proof (log2_fuel (10 * n)) as H. fold f in H.
  rewrite Nat2N.inj_succ, N.pow_succ_r' in H. lia.
Qed.

Local Open Scope Z_scope.

Lemma decimal_Z_bound z :
  0 <= z -> z < 10 ^ Z.of_nat (length (decimal_Z z)).
Proof.
  intros Hz. destruct z as [|p|p]; [reflexivity| |lia].
  cbn [decimal_Z]. pose proof (decimal_N_bound (Npos p)) as H.
  apply N2Z.inj_lt in H. rewrite N2Z.inj_pow, nat_N_Z in H. exact H.
Qed.

Lemma lua_time_number_parts sec usec :
  0 <= usec ->
  let scale := 10 ^ Z.of_nat (length (decimal_Z usec)) in
  0 < scale /\ usec < scale
  /\ lua_time_number (sec, usec)
     = Qmake (sec * scale + usec) (Z.to_pos scale).
Proof.
  intros Hu scale.
  assert (Hs : 0 < scale) by (apply Z.pow_pos_nonneg; lia).
  split; [exact Hs|]. split; [apply decimal_Z_bound; exact Hu|].
  unfold lua_time_number. fold scale. rewrite Z2Pos.id by exact Hs.
  reflexivity.
Qed.

Local Open Scope N_scope.


Local Open Scope Z_scope.





(** X24.  Within one second the scores do not follow the clock: the
    microseconds are appended as printed, without leading zeros, so a
    reading of [usec] microseconds and a reading of [10 * usec] microseconds
    in the same second give the same score. *)
Theorem scores_collide_within_second sec usec :
  0 < usec ->
  Qeq (lua_time_number (sec, usec)) (lua_time_number (sec, 10 * usec)).
Proof.
  intros Hu.
  destruct (lua_time_number_parts sec usec ltac:(lia)) as (Hp1 & _ & ->).
  destruct (lua_time_number_parts sec (10 * usec) ltac:(lia)) as (Hp2 & _ & ->).
  assert (E : length (decimal_Z (10 * usec)) = S (length (decimal_Z usec))).
  { destruct usec as [|p|p]; try lia.
    change (10 * Z.pos p) with (Z.pos (10 * p)). cbn [decimal_Z].
    change (N.pos (10 * p)) with (10 * N.pos p)%N.
    rewrite decimal_N_times_ten by lia. rewrite length_app. simpl. lia. }
  rewrite E in *. rewrite Nat2Z.inj_succ, Z.pow_succ_r in * by lia.
  set (S1 := 10 ^ Z.of_nat (length (decimal_Z usec))) in *.
  unfold Qeq. cbn [Qnum Qden]. rewrite !Z2Pos.id by assumption.
  ring.
Qed.

End ScoreFacts.

(* ===================================================================== *)
(** * More on the wrapped call *)
(* ===================================================================== *)

Section FacadeMore.

Local Open Scope Z_scope.

Variable self : CacheDecorator.
Variable fn : function.
Variables (args : list value) (kwargs : dict).

(** X25.  An exception of the read that is not one of the
    [fallback_exceptions] is raised to the caller: the wrapped function is
    not called and nothing is written. *)
Theorem inner_error_propagates key e w :
  get_key self args kwargs = Ok key ->
  fst (round_trip (get key) w) = Raise e ->
  fallback_exceptions self e = false ->
  let w' := snd (inner self fn args kwargs w) in
  fst (inner self fn args kwargs w) = Raise e
  /\ calls w' = calls w
  /\ db (srv w') = db (srv w)
  /\ (log (srv w') = log (srv w) \/ log (srv w') = log (srv w) ++ [GET key]).
Proof.
  intros Hkey Hget Hfb. cbn zeta.
  rewrite (inner_unfold self fn args kwargs key w Hkey).
  destruct (read_only key w) as (Hdb & _ & Hcalls & Hlog). cbn zeta in *.
  destruct (round_trip (get key) w) as [[result|e'] w1]; cbn [fst snd] in *;
    [discriminate|].
  injection Hget as ->. rewrite Hfb. cbn [fst snd]. auto.
Qed.

(** X26.  On a miss, when the wrapped function or the serializer raises, the
    exception is raised to the caller and the script is not run: the store
    is as the read left it. *)
Theorem inner_failed_computation_writes_nothing key result w w1 e :
  get_key self args kwargs = Ok key ->
  round_trip (get key) w = (Ok result, w1) ->
  truthy result = false ->
  rbind (fn_body fn args kwargs) (serializer self) = Raise e ->
  let w' := snd (inner self fn args kwargs w) in
  fst (inner self fn args kwargs w) = Raise e
  /\ srv w' = srv w1
  /\ db (srv w') = db (srv w)
  /\ calls w' = calls w ++ [{| called := fn_qualname fn; call_args := args;
                               call_kwargs := kwargs |}].
Proof.
  intros Hkey Hget Hmiss Hfail. cbn zeta.
  rewrite (inner_miss self fn args kwargs key result w w1 Hkey Hget Hmiss).
  destruct (read_only key w) as (Hdb & _ & Hcalls & _). cbn zeta in *.
  rewrite Hget in Hdb, Hcalls. cbn [snd] in Hdb, Hcalls.
  unfold bind, call_fn, lift.
  destruct (fn_body fn args kwargs) as [v|e0]; cbn [rbind] in Hfail.
  - rewrite Hfail. cbn [fst snd srv calls]. rewrite Hcalls. auto.
  - injection Hfail as ->. cbn [fst snd srv calls]. rewrite Hcalls. auto.
Qed.




End FacadeMore.

(* ===================================================================== *)
(** * More on [mget] *)
(* ===================================================================== *)

Section BatchMore.

Local Open Scope Z_scope.

Variable self : RedisCache.

(** A multi-key read that returns leaves the store alone. *)
Lemma mget_read_frame keys w results w1 :
  round_trip (Redis.mget keys) w = (Ok results, w1) ->
  calls w1 = calls w
  /\ db (srv w1) = db (srv w)
  /\ log (srv w1) = log (srv w) ++ [MGET keys].
Proof.
  unfold round_trip. destruct keys as [|k keys];
    destruct (faults w) as [|[e|] rest]; try discriminate;
    cbn; intros [= _ <-]; cbn; auto.
Qed.

(** The loop of [mget] over hits only: it deserializes, in order, and stops
    at the first payload the deserializer rejects. *)
Lemma mget_loop_hits reqs keys : forall payloads i pipeline acc flag w,
  mget_loop self reqs keys i (map Some payloads) pipeline acc flag w
  = (rbind (sequence (map (rc_deserializer self) payloads))
       (fun vs => Ok (pipeline, acc ++ vs, flag)), w).
Proof.
  induction payloads as [|p payloads IH]; intros i pipeline acc flag w.
  { simpl. rewrite app_nil_r. reflexivity. }
  cbn [map mget_loop sequence]. unfold bind at 1. unfold lift at 1.
  destruct (rc_deserializer self p) as [v|e]; cbn [rbind]; [|reflexivity].
  rewrite IH. destruct (sequence (map (rc_deserializer self) payloads));
    cbn [rbind]; [|reflexivity].
  rewrite <- app_assoc. reflexivity.
Qed.

(** X28.  When every key of the batch is in the store, [mget] calls no
    wrapped function and sends nothing but its one [MGET]: it returns the
    deserialized payloads in request order, or raises what the deserializer
    raises first. *)
Theorem mget_all_hits reqs keys payloads w w1 :
  mget_keys reqs = Ok keys ->
  round_trip (Redis.mget keys) w = (Ok (map Some payloads), w1) ->
  mget self reqs w = (sequence (map (rc_deserializer self) payloads), w1)
  /\ calls w1 = calls w
  /\ db (srv w1) = db (srv w)
  /\ log (srv w1) = log (srv w) ++ [MGET keys].
Proof.
  intros Hkeys Hread. split.
  - unfold mget, bind, lift. cbv beta. rewrite Hkeys. cbv beta iota.
    rewrite (client_mget_read _ _ _ _ Hread). cbv beta iota. rewrite mget_loop_hits.
    destruct (sequence (map (rc_deserializer self) payloads)) as [vs|e];
      cbn [rbind]; reflexivity.
  - exact (mget_read_frame _ _ _ _ Hread).
Qed.

(** The loop of [mget] queues its writes; it sends nothing. *)
Lemma mget_loop_server reqs keys : forall results i pipeline acc flag w,
  let w' := snd (mget_loop self reqs keys i results pipeline acc flag w) in
  srv w' = srv w /\ faults w' = faults w.
Proof.
  induction results as [|[p|] results IH]; intros i pipeline acc flag w;
    cbn zeta.
  - split; reflexivity.
  - cbn [mget_loop]. unfold bind, lift.
    destruct (rc_deserializer self p) as [v|e]; [apply IH | split; reflexivity].
  - cbn [mget_loop]. unfold bind, lift, call_fn, get_cache_lua_fn.
    destruct (index reqs i) as [r|e]; [|split; reflexivity].
    destruct (original_fn (instance r)) as [fn|]; [|split; reflexivity].
    destruct (fn_body fn (args_of r) (kwargs_of r)) as [v|e];
      [|split; reflexivity].
    destruct (rc_serializer self v) as [ser|e]; [|split; reflexivity].
    destruct (index keys i) as [k|e]; [|split; reflexivity].
    match goal with |- context [mget_loop self reqs keys (S i) results ?q ?a ?f ?w0] =>
      destruct (IH (S i) q a f w0) as [Hs Hf] end.
    cbn zeta in Hs, Hf. rewrite Hs, Hf. split; reflexivity.
Qed.

(** X29.  [mget] writes only at its end: when the loop over the results
    raises — a wrapped function, the serializer or the deserializer raises —
    the exception is raised to the caller and the values computed so far for
    other misses are not stored; the server saw the [MGET] and nothing
    else. *)
Theorem mget_failure_stores_nothing reqs keys results w w1 e :
  mget_keys reqs = Ok keys ->
  round_trip (Redis.mget keys) w = (Ok results, w1) ->
  fst (mget_loop self reqs keys 0 results [] [] false w1) = Raise e ->
  let w' := snd (mget self reqs w) in
  fst (mget self reqs w) = Raise e
  /\ srv w' = srv w1
  /\ db (srv w') = db (srv w)
  /\ log (srv w') = log (srv w) ++ [MGET keys].
Proof.
  intros Hkeys Hread Hloop. cbn zeta.
  destruct (mget_loop_server reqs keys results 0 [] [] false w1) as [Hs _].
  cbn zeta in Hs.
  destruct (mget_loop self reqs keys 0 results [] [] false w1) as [[x|e'] w2]
    eqn:Hl; cbn [fst snd] in *; [discriminate|].
  injection Hloop as ->.
  assert (Hm : mget self reqs w = (Raise e, w2)).
  { unfold mget, bind, lift. cbv beta. rewrite Hkeys. cbv beta iota.
    rewrite (client_mget_read _ _ _ _ Hread). cbv beta iota. rewrite Hl. reflexivity. }
  rewrite Hm. cbn [fst snd]. split; [reflexivity|]. split; [exact Hs|].
  rewrite Hs. destruct (mget_read_frame _ _ _ _ Hread) as (_ & Hdb & Hlog).
  split; assumption.
Qed.

End BatchMore.

(* ===================================================================== *)
(** * More examples *)
(* ===================================================================== *)

Section MoreExamples.

Import Fixtures MoreFixtures.

Local Open Scope Z_scope.

(** ** The normalizer *)

Lemma get_args_never_raises_witness :
  exists parsed_args,
    get_args report_signature [VInt 1; VInt 2; VInt 3] [(lit "colour", VInt 4)]
    = Ok parsed_args.
Proof.
  apply (get_args_never_raises report_signature).
  apply (bool_decide_unpack _). vm_compute. exact I.
Defined.

Lemma get_args_keys_are_parameters_witness :
  exists p, In p report_signature /\ name p = lit "args"
            /\ kind p <> POSITIONAL_ONLY.
Proof.
  apply (get_args_keys_are_parameters report_signature
           [VInt 1; VInt 2; VInt 3] []
           [(lit "level", VInt 1); (lit "args", VList [VInt 2; VInt 3])]
           (lit "args")).
  - vm_compute. reflexivity.
  - simpl. right. left. reflexivity.
Defined.

Lemma positional_value_is_bound_witness :
  exists parsed_args,
    get_args (fn_signature add) [VInt 1; VInt 2] [] = Ok parsed_args
    /\ dict_get (lit "b") parsed_args = Some (VInt 2).
Proof.
  apply (positional_value_is_bound (fn_signature add) [VInt 1; VInt 2] []
           1 (lit "b") (VInt 2)).
  - apply (bool_decide_unpack _). vm_compute. exact I.
  - reflexivity.
  - reflexivity.
  - simpl. tauto.
Defined.

Lemma excess_positional_dropped_witness :
  get_args (fn_signature add) [VInt 1; VInt 2; VInt 3] []
  = get_args (fn_signature add) [VInt 1; VInt 2] [].
Proof.
  apply (excess_positional_dropped (fn_signature add)
           [VInt 1; VInt 2; VInt 3] []).
  reflexivity.
Defined.

Lemma extra_positional_collected_witness :
  exists parsed_args,
    get_args report_signature [VInt 1; VInt 2; VInt 3] [] = Ok parsed_args
    /\ dict_get (lit "args") parsed_args = Some (VList [VInt 2; VInt 3]).
Proof.
  apply (extra_positional_collected report_signature (lit "args")
           [VInt 1] [VInt 2; VInt 3] []).
  - apply (bool_decide_unpack _). vm_compute. exact I.
  - reflexivity.
  - reflexivity.
Defined.

Lemma unknown_named_dropped_witness :
  get_args (fn_signature add) [] [(lit "a", VInt 1); (lit "c", VInt 3)]
  = get_args (fn_signature add) [] [(lit "a", VInt 1)].
Proof.
  apply (unknown_named_dropped (fn_signature add) []
           [(lit "a", VInt 1); (lit "c", VInt 3)]).
  reflexivity.
Defined.

Lemma unknown_named_collected_witness :
  exists parsed_args,
    get_args report_signature [VInt 1]
      [(lit "level", VInt 2); (lit "colour", VInt 4)] = Ok parsed_args
    /\ dict_get (lit "kwargs") parsed_args
       = Some (VDict [(lit "colour", VInt 4)]).
Proof.
  apply (unknown_named_collected report_signature [VInt 1]
           [(lit "level", VInt 2); (lit "colour", VInt 4)] (lit "kwargs")).
  - apply (bool_decide_unpack _). vm_compute. exact I.
  - reflexivity.
  - apply (bool_decide_unpack _). vm_compute. exact I.
Defined.

(** ** Keys *)

Lemma namespaces_keep_keys_apart_witness :
  (forall args2 kwargs2,
     get_key cached_square args2 kwargs2
     = Ok (lit "{rc:app.add}:eyJhIjoxLCJiIjoyfQ==") ->
     lit "app.add" = lit "app.square")
  /\ (lit "{rc:app.add}:eyJhIjoxLCJiIjoyfQ=="
      = get_full_prefix cached_square ++ lit ":keys" ->
      lit "app.add" = lit "app.square").
Proof.
  apply (namespaces_keep_keys_apart cached_add cached_square
           (lit "app.add") (lit "app.square") [VInt 1; VInt 2] []).
  - reflexivity.
  - reflexivity.
  - reflexivity.
  - vm_compute. reflexivity.
Defined.

Lemma entry_key_is_not_index_key_witness :
  lit "{rc:app.add}:eyJhIjoxLCJiIjoyfQ=="
  <> get_full_prefix cached_add ++ lit ":keys".
Proof.
  apply (entry_key_is_not_index_key cached_add [VInt 1; VInt 2] []).
  - intros v d. simpl. unfold compact_dump.
    destruct (dumps v) as [s|e]; simpl; [|discriminate].
    intros [= <-]. exists s. reflexivity.
  - vm_compute. reflexivity.
Defined.

Lemma equal_keys_equal_text_witness :
  get_key cached_add [VInt 1; VInt 2] []
  = get_key cached_add [] [(lit "a", VInt 1); (lit "b", VInt 2)]
  /\ json_a1_b2 = json_a1_b2.
Proof.
  split; [vm_compute; reflexivity|].
  apply (equal_keys_equal_text cached_add add
           [VInt 1; VInt 2] [] [] [(lit "a", VInt 1); (lit "b", VInt 2)]
           [(lit "a", VInt 1); (lit "b", VInt 2)]
           [(lit "a", VInt 1); (lit "b", VInt 2)]
           json_a1_b2 json_a1_b2 (lit "{rc:app.add}:eyJhIjoxLCJiIjoyfQ=="));
    vm_compute; reflexivity.
Defined.

Lemma equal_keys_equal_octets_witness :
  get_key octet_add [VInt 1; VInt 2] []
  = get_key octet_add [] [(lit "a", VInt 1); (lit "b", VInt 2)]
  /\ json_a1_b2 = json_a1_b2.
Proof.
  split; [vm_compute; reflexivity|].
  apply (equal_keys_equal_octets octet_add add
           [VInt 1; VInt 2] [] [] [(lit "a", VInt 1); (lit "b", VInt 2)]
           [(lit "a", VInt 1); (lit "b", VInt 2)]
           [(lit "a", VInt 1); (lit "b", VInt 2)]
           json_a1_b2 json_a1_b2 (lit "{rc:app.add}:eyJhIjoxLCJiIjoyfQ=="));
    try (vm_compute; reflexivity);
    repeat constructor.
Defined.


(** ** Batching *)

Lemma chunks_concat_witness :
  concat (chunks [1; 2; 3; 4; 5] 2) = [1; 2; 3; 4; 5].
Proof. apply (chunks_concat [1; 2; 3; 4; 5] 2). lia. Defined.

Lemma chunks_nth_witness :
  nth_error (chunks [1; 2; 3; 4; 5] 2) 2 = Some [5].
Proof.
  apply (chunks_nth [1; 2; 3; 4; 5] 2 2 [5]); [lia|].
  split; [simpl; lia | reflexivity].
Defined.

Lemma chunks_nonpositive_witness :
  chunks [1; 2; 3; 4; 5] 0 = [].
Proof. apply (chunks_nonpositive [1; 2; 3; 4; 5] 0). lia. Defined.

(** ** Invalidation *)

Lemma invalidate_removes_entry_witness :
  let w' := snd (invalidate cached_square [VInt 4] [] warm) in
  db (srv warm) !! square_4
  = Some {| payload := RString (lit "16"); expire_at := None |}
  /\ db (srv w') !! square_4 = None
  /\ log (srv w') = log (srv warm) ++ [DEL [square_4]; ZREM idx [square_4]]
  /\ fst (invalidate cached_square [VInt 4] [] warm) = Ok tt.
Proof.
  intros w'.
  destruct (invalidate_removes_entry cached_square [VInt 4] [] square_4 idx warm)
    as (Hgone & _ & _ & _ & Hlog & _ & Hok);
    try (vm_compute; reflexivity).
  split; [vm_compute; reflexivity|]. split; [exact Hgone|].
  split; [exact Hlog|]. apply Hok.
  intros e He. vm_compute in He. discriminate.
Defined.

Lemma invalidate_keeps_index_backed_witness :
  index_members idx (srv shared) = [square_4]
  /\ index_backed idx (srv (snd (invalidate cached_square [VInt 4] [] shared))).
Proof.
  split; [vm_compute; reflexivity|].
  apply (invalidate_keeps_index_backed cached_square [VInt 4] [] idx shared).
  - reflexivity.
  - intros m Hm. vm_compute in Hm. destruct Hm as [<-|[]].
    vm_compute. reflexivity.
Defined.

Lemma invalidate_then_call_recomputes_witness :
  let w1 := snd (invalidate cached_square [VInt 4] [] warm) in
  length (calls warm) = 1%nat
  /\ length (calls (snd (inner cached_square square [VInt 4] [] warm))) = 1%nat
  /\ length (calls (snd (inner cached_square square [VInt 4] [] w1))) = 2%nat.
Proof.
  intros w1.
  destruct (invalidate_then_call_recomputes cached_square square [VInt 4] []
              square_4 idx warm) as (Hc & _ & _);
    try (vm_compute; reflexivity).
  split; [vm_compute; reflexivity|]. split; [vm_compute; reflexivity|].
  subst w1. rewrite Hc. vm_compute. reflexivity.
Defined.

Lemma invalidate_all_clears_witness :
  let w' := snd (invalidate_all literal_star cached_square shared) in
  is_Some (lookup square_4 (srv shared))
  /\ is_Some (lookup idx (srv shared))
  /\ fst (invalidate_all literal_star cached_square shared) = Ok tt
  /\ lookup square_4 (srv w') = None
  /\ lookup idx (srv w') = None.
Proof.
  intros w'.
  destruct (invalidate_all_clears literal_star cached_square shared)
    as (Hok & _ & Hkeys & Hidx).
  - reflexivity.
  - intros k Hk. exact Hk.
  - split; [vm_compute; eexists; reflexivity|].
    split; [vm_compute; eexists; reflexivity|].
    split; [exact Hok|]. split; [|exact Hidx].
    apply (Hkeys [VInt 4] []). vm_compute. reflexivity.
Defined.

Lemma invalidate_all_spares_unmatched_witness :
  let w' := snd (invalidate_all literal_star cached_square shared) in
  db (srv w') !! lit "session"
  = Some {| payload := RString (lit "x"); expire_at := None |}
  /\ calls w' = calls shared.
Proof.
  intros w'.
  destruct (invalidate_all_spares_unmatched literal_star cached_square shared
              (lit "session")) as [Hdb Hc].
  - vm_compute. reflexivity.
  - split; [|exact Hc]. subst w'. rewrite Hdb. vm_compute. reflexivity.
Defined.

Lemma invalidate_all_spares_other_namespaces_witness :
  let w' := snd (invalidate_all literal_star cached_square shared) in
  db (srv w') !! lit "{rc:app.add}:eyJhIjoxLCJiIjoyfQ=="
  = Some {| payload := RString (lit "3"); expire_at := None |}.
Proof.
  intros w'.
  destruct (invalidate_all_spares_other_namespaces literal_star
              cached_square cached_add (lit "app.square") (lit "app.add") shared)
    as [Hkeys _].
  - intros k Hk. exact Hk.
  - reflexivity.
  - reflexivity.
  - reflexivity.
  - vm_compute. intuition discriminate.
  - vm_compute. intuition discriminate.
  - vm_compute. discriminate.
  - subst w'. rewrite (Hkeys [VInt 1; VInt 2] []) by (vm_compute; reflexivity).
    vm_compute. reflexivity.
Defined.

(** ** The script *)

(** C5 as stated fails on the code: a completed run can delete the entry it
    has just written.  Under limit 1, a first key is stored 5.050000 s after
    the epoch, with score 5.5 (the microseconds 50000 are appended as
    printed), and a second key 5.200000 s after the epoch, with score 5.2:
    the second run pops the lowest score, which is that of the key it is
    storing, and deletes it. *)
Lemma entry_evicted_by_its_own_run :
  ~ (forall idx L es e,
       fst (execute idx L e (run idx L es empty_server)) = Ok tt ->
       exists expires,
         lookup (e_key e) (snd (execute idx L e (run idx L es empty_server)))
         = Some {| payload := RString (e_value e); expire_at := expires |}).
Proof.
  intros H.
  destruct (H idx 1 [put "kold" "1" 0 5050000] (put "knew" "2" 0 150000))
    as [expires Hl]; [vm_compute; reflexivity|].
  vm_compute in Hl. discriminate.
Qed.


(** C7 as stated fails on the code: an entry written with limit zero can be
    removed by a later eviction.  A key stored under limit 1 is in the
    index; rewriting it with limit 0 leaves it there; a second later, the
    store of another key under limit 1 pops it from the index and deletes
    the entry, though it has not expired and was never invalidated. *)
Lemma entry_without_limit_is_evicted :
  ~ (forall idx K1 v ttl es ops,
       Forall (spares K1) ops ->
       let s := run idx 1 es empty_server in
       let s1 := snd (cache_lua_fn K1 idx v ttl 0 s) in
       is_Some (db (run_later idx ops s1) !! K1)).
Proof.
  intros H.
  specialize (H idx (lit "k1") (lit "1b") 0 [put "k1" "1" 0 1000000]
                [Wait 1000000; Store (lit "k2") (lit "2") 0 1]).
  cbv zeta in H.
  assert (Hops : Forall (spares (lit "k1"))
                   [Wait 1000000; Store (lit "k2") (lit "2") 0 1]).
  { repeat constructor. vm_compute. discriminate. }
  specialize (H Hops). vm_compute in H. destruct H as [e He]. discriminate.
Qed.



Lemma evicted_entries_are_deleted_witness :
  let s := run idx 2 [put "k1" "1" 0 1000000; put "k2" "2" 0 1000000]
             empty_server in
  let s' := snd (cache_lua_fn (lit "k3") idx (lit "3") 0 2 (advance 1000000 s)) in
  index_members idx s = [lit "k1"; lit "k2"]
  /\ index_members idx s' = [lit "k2"; lit "k3"]
  /\ db s' !! lit "k1" = None.
Proof.
  intros s s'.
  destruct (evicted_entries_are_deleted (lit "k3") idx (lit "3") 0 2
              (advance 1000000 s)) as (Hgone & _ & _).
  - lia.
  - vm_compute. discriminate.
  - vm_compute. intuition discriminate.
  - vm_compute. reflexivity.
  - split; [vm_compute; reflexivity|]. split; [vm_compute; reflexivity|].
    destruct (Hgone (lit "k1")) as [Hin|Hdb].
    + vm_compute. right. left. reflexivity.
    + vm_compute in Hin. exfalso. intuition discriminate.
    + exact Hdb.
Defined.


Lemma scores_collide_within_second_witness :
  Qeq (lua_time_number (5, 5)) (lua_time_number (5, 50)).
Proof. apply (scores_collide_within_second 5 5). lia. Defined.

(** ** The wrapped call *)

Lemma inner_error_propagates_witness :
  let w' := snd (inner cached_add add [VInt 1; VInt 2] [] offline) in
  fst (inner cached_add add [VInt 1; VInt 2] [] offline) = Raise ConnectionError
  /\ calls w' = []
  /\ db (srv w') = db (srv offline).
Proof.
  intros w'.
  destruct (inner_error_propagates cached_add add [VInt 1; VInt 2] []
              (lit "{rc:app.add}:eyJhIjoxLCJiIjoyfQ==") ConnectionError offline)
    as (Hr & Hc & Hdb & _); try (vm_compute; reflexivity).
  split; [exact Hr|]. split; [exact Hc | exact Hdb].
Defined.

Lemma inner_failed_computation_writes_nothing_witness :
  let w' := snd (inner cached_square square [VStr (lit "x")] [] quiet) in
  fst (inner cached_square square [VStr (lit "x")] [] quiet) = Raise TypeError
  /\ db (srv w') = db (srv quiet)
  /\ length (calls w') = 1%nat.
Proof.
  intros w'.
  destruct (inner_failed_computation_writes_nothing cached_square square
              [VStr (lit "x")] [] (lit "{rc:app.square}:eyJ4IjoieCJ9") None quiet
              (snd (round_trip (get (lit "{rc:app.square}:eyJ4IjoieCJ9")) quiet))
              TypeError)
    as (Hr & _ & Hdb & Hc); try (vm_compute; reflexivity).
  split; [exact Hr|]. split; [exact Hdb|]. subst w'. rewrite Hc. reflexivity.
Defined.


(** ** [mget] *)

Lemma mget_all_hits_witness :
  let reqs := [{| instance := cached_square; args := Some [VInt 4];
                  kwargs := None |}] in
  fst (mget int_cache reqs warm) = Ok [VInt 16]
  /\ calls (snd (mget int_cache reqs warm)) = calls warm
  /\ db (srv (snd (mget int_cache reqs warm))) = db (srv warm).
Proof.
  intros reqs.
  destruct (mget_all_hits int_cache reqs [square_4] [lit "16"] warm
              (snd (round_trip (Redis.mget [square_4]) warm)))
    as (Hm & Hc & Hdb & _); try (vm_compute; reflexivity).
  rewrite Hm. cbn [fst snd]. split; [reflexivity|]. split; [exact Hc | exact Hdb].
Defined.

Lemma mget_failure_stores_nothing_witness :
  let reqs := [{| instance := cached_square; args := Some [VInt 3];
                  kwargs := None |};
               {| instance := cached_square; args := Some [VStr (lit "x")];
                  kwargs := None |}] in
  let w' := snd (mget int_cache reqs warm) in
  fst (mget int_cache reqs warm) = Raise TypeError
  /\ length (calls w') = 3%nat
  /\ db (srv w') = db (srv warm)
  /\ db (srv w') !! square_3 = None.
Proof.
  intros reqs w'.
  destruct (mget_failure_stores_nothing int_cache reqs
              [square_3; lit "{rc:app.square}:eyJ4IjoieCJ9"] [None; None] warm
              (snd (round_trip (Redis.mget
                      [square_3; lit "{rc:app.square}:eyJ4IjoieCJ9"]) warm))
              TypeError)
    as (Hr & _ & Hdb & _); try (vm_compute; reflexivity).
  split; [exact Hr|]. split; [vm_compute; reflexivity|].
  split; [exact Hdb|]. subst w'. rewrite Hdb. vm_compute. reflexivity.
Defined.

End MoreExamples.
